(** * goxdcr control plane: replication-spec service and generic supervisor

    A shallow embedding of [metadata_svc.ReplicationSpecService]
    (replication_spec_service.go) and of [supervisor.GenericSupervisor]
    (generic_supervisor.go), with the properties of the design document
    proved or refuted on it.

    Conventions of the embedding.
    - A Go [error] is a value of [error]; [nil] is [None].  The package-level
      sentinels ([InvalidReplicationSpecError], [utils.NonExistentBucketError],
      [service_def.MetadataNotFoundErr]) are constructors of their own, since
      the source compares them by identity; an error built with [errors.New]
      or [fmt.Errorf] is never identical to a sentinel.
    - A Go function returning several values returns a tuple.
    - A Go [panic] (explicit, failed type assertion, nil dereference, closing a
      closed channel) is the outcome [Panic].
    - The cache stores pointers: the cache maps an identifier to an interface
      value, and the [ReplicationSpecVal] structs live in a heap indexed by
      location, so that a write through a pointer obtained from [cache.Get] is
      seen by every later read, with or without an [Upsert].
    - External collaborators (topology service, bucket probes, remote-cluster
      service, cluster-info service, JSON codec) are oracles gathered in
      [Env]; the metadata store is an abstract state with operations
      [MetadataSvc].
    - Calls to the logger have no effect on the state and are left out. *)

From Stdlib Require Import ZArith String Ascii.
From Stdlib.Strings Require Import Byte.
From stdpp Require Import base option strings list gmap.

Local Open Scope string_scope.

(** ** Package [base] *)
Module base.

(* delimiter for multiple parts in a key *)
Definition KeyPartsDelimiter : string := "_".

(** Modelled from the spec: the file declaring the admin-port field keys is
    not part of the sources at hand; section 6 names them [fromBucket],
    [toCluster], [toBucket] and the catch-all [placeHolderFieldKey]. *)
Definition FromBucket : string := "fromBucket".
Definition ToCluster : string := "toCluster".
Definition ToBucket : string := "toBucket".
Definition PlaceHolderFieldKey : string := "placeHolderFieldKey".

End base.

(** ** Go values shared by both packages *)

Inductive error : Type :=
| InvalidReplicationSpecError
| NonExistentBucketError
| MetadataNotFoundErr
| ErrorString (msg : string)
| EnhancedError (msg : string) (cause : error)
| BucketNotFoundError (bucketName : string).

#[export] Instance error_eq_dec : EqDecision error.
Proof. solve_decision. Defined.

Definition dquote : string := String "034"%char EmptyString.
Definition newline : string := String "010"%char EmptyString.

(** [err.Error()], as far as the source formats errors into messages.

    Modelled from the spec: the texts of the two foreign sentinels and of
    [utils.BucketNotFoundError] are declared in package [utils] and
    [service_def], outside the sources at hand; the words of section 7 stand
    for them.  No statement below depends on these texts. *)
Fixpoint Error (e : error) : string :=
  match e with
  | InvalidReplicationSpecError => "Invalid Replication spec"
  | NonExistentBucketError => "non-existent-bucket"
  | MetadataNotFoundErr => "not-found"
  | ErrorString msg => msg
  | EnhancedError msg cause => msg +:+ " " +:+ Error cause
  | BucketNotFoundError b => "bucket-not-found " +:+ b
  end.

Inductive outcome (A : Type) : Type :=
| Done (a : A)
| Panic (msg : string).
Arguments Done {A} a.
Arguments Panic {A} msg.

(** A Go [interface{}] used as a setting value. *)
Inductive any : Type :=
| AString (s : string)
| AInt (z : Z)
| ADuration (d : Z)
| AUint16 (n : Z)
| ABool (b : bool).

#[export] Instance any_eq_dec : EqDecision any.
Proof. solve_decision. Defined.

(** ** Package [metadata]: the declarative records *)
Module metadata.

(** An opaque persistence revision token ([interface{}]); [None] is [nil]. *)
Abbreviation Revision := (option nat).

(** Modelled from the spec: [ReplicationSpecification] is declared in package
    [metadata], outside the sources at hand; the fields are the attributes
    of section 3, under the names the service uses. *)
Record ReplicationSpecification : Type := {
  Id : string;
  SourceBucketName : string;
  SourceBucketUUID : string;
  TargetClusterUUID : string;
  TargetBucketName : string;
  TargetBucketUUID : string;
  Settings : gmap string any;
  Revision_ : Revision;
}.

Definition with_Revision (spec : ReplicationSpecification) (rev : Revision)
  : ReplicationSpecification :=
  {| Id := Id spec;
     SourceBucketName := SourceBucketName spec;
     SourceBucketUUID := SourceBucketUUID spec;
     TargetClusterUUID := TargetClusterUUID spec;
     TargetBucketName := TargetBucketName spec;
     TargetBucketUUID := TargetBucketUUID spec;
     Settings := Settings spec;
     Revision_ := rev |}.

(** Modelled from the spec: [RemoteClusterReference] is declared in package
    [metadata]; the service reads its [Uuid] and calls [MyConnectionStr()]
    and [MyCredentials()] on it, whose results the reference carries here. *)
Record RemoteClusterReference : Type := {
  Uuid : string;
  Name : string;
  MyConnectionStr : string * option error;
  MyCredentials : string * string * option error;
}.

(** Modelled from the spec: [ReplicationId] is declared in package
    [metadata]; section 6 gives the identifier syntax
    [source_bucket '_' target_cluster_uuid '_' target_bucket]. *)
Definition ReplicationId (sourceBucket targetClusterUuid targetBucket : string) : string :=
  sourceBucket +:+ base.KeyPartsDelimiter +:+ targetClusterUuid
    +:+ base.KeyPartsDelimiter +:+ targetBucket.

(** Modelled from the spec: the setting key of the replication type and the
    value of the memcached-style type are declared in package [metadata];
    section 4.4 speaks of the replication type and of "memcached-style". *)
Definition ReplicationType : string := "replication_type".
Definition ReplicationTypeXmem : string := "memcached-style".

(** Modelled from the spec: [IsReplicationIdForSourceBucket] is declared in
    package [metadata]; by section 6 the membership test for a source bucket
    parses the prefix segment of the identifier. *)
Definition IsReplicationIdForSourceBucket (replicationId sourceBucketName : string) : bool :=
  String.prefix (sourceBucketName +:+ base.KeyPartsDelimiter) replicationId.

(** Modelled from the spec: [NewReplicationSpecification] is declared in
    package [metadata]; by section 4.4 it builds a fresh spec, not yet
    persisted, from the two bucket names, the target cluster UUID and the
    two bucket UUIDs resolved at that moment, under the identity of section
    3.  The default settings it attaches are not described: none here. *)
Definition NewReplicationSpecification
    (sourceBucketName sourceBucketUUID targetClusterUUID targetBucketName targetBucketUUID
       : string) : ReplicationSpecification :=
  {| Id := ReplicationId sourceBucketName targetClusterUUID targetBucketName;
     SourceBucketName := sourceBucketName;
     SourceBucketUUID := sourceBucketUUID;
     TargetClusterUUID := targetClusterUUID;
     TargetBucketName := targetBucketName;
     TargetBucketUUID := targetBucketUUID;
     Settings := ∅;
     Revision_ := None |}.

End metadata.
Import metadata.

(** ** Package [metadata_svc]: the replication-spec service *)
Module metadata_svc.

(* parent dir of all Replication Specs *)
Definition ReplicationSpecsCatalogKey : string := "replicationSpec".

Definition ReplicationSpecAlreadyExistErrorMessage : string :=
  "Replication to the same remote cluster and bucket already exists".
Definition ReplicationSpecNotFoundErrorMessage : string :=
  "Requested resource not found".

(** Heap locations of the [ReplicationSpecVal] structs. *)
Abbreviation loc := positive.

(** An externally owned handle; the core never looks inside. *)
Abbreviation DerivedObj := nat.

(* replication spec and its derived object; this is what is put into the cache *)
Record ReplicationSpecVal : Type := {
  spec : option ReplicationSpecification;
  derivedObj : option DerivedObj;
}.

(** The [interface{}] values a cache slot can hold: the nil interface, a
    pointer to a [ReplicationSpecVal], or a value of another dynamic type. *)
Inductive CacheVal : Type :=
| VNil
| VSpecVal (p : loc)
| VOther.

(** Modelled from the spec: [MetadataCache] is declared in another file of
    package [metadata_svc]; section 4.2 describes it as a mapping from
    identifier to arbitrary record with [get], [upsert], [delete] and
    [snapshot], where absence is a valid result and nothing fails. *)
Abbreviation MetadataCache := (gmap string CacheVal).

Definition cache_Get (cache : MetadataCache) (key : string) : CacheVal * bool :=
  match cache !! key with
  | Some v => (v, true)
  | None => (VNil, false)
  end.

Definition cache_Upsert (cache : MetadataCache) (key : string) (val : CacheVal)
  : MetadataCache := <[key := val]> cache.

Definition cache_Delete (cache : MetadataCache) (key : string) : MetadataCache :=
  delete key cache.

Definition cache_GetMap (cache : MetadataCache) : gmap string CacheVal := cache.

(** The heap: a location never written reads as the zero-valued struct. *)
Abbreviation Heap := (gmap loc ReplicationSpecVal).

Definition deref (h : Heap) (p : loc) : ReplicationSpecVal :=
  default {| spec := None; derivedObj := None |} (h !! p).

Definition alloc (h : Heap) (v : ReplicationSpecVal) : loc * Heap :=
  let p := fresh (dom h) in (p, <[p := v]> h).

Definition set_spec (h : Heap) (p : loc) (s : option ReplicationSpecification) : Heap :=
  <[p := {| spec := s; derivedObj := derivedObj (deref h p) |}]> h.

Definition set_derivedObj (h : Heap) (p : loc) (d : option DerivedObj) : Heap :=
  <[p := {| spec := spec (deref h p); derivedObj := d |}]> h.

(** *** External collaborators *)

(** The collaborators of section 6, each an oracle answering a call with the
    tuple the Go function returns.  [GetKeyFromPath] belongs to another file
    of this package and is taken as a parameter. *)
Record Env : Type := {
  xdcr_comp_topology_svc_MyConnectionStr : string * option error;
  xdcr_comp_topology_svc_MyClusterUuid : string * option error;
  utils_LocalBucketUUID : string -> string -> string * option error;
  utils_RemoteBucketUUID : string -> string -> string -> string -> string * option error;
  remote_cluster_svc_RemoteClusterByRefName :
    string -> bool -> option RemoteClusterReference * option error;
  remote_cluster_svc_RemoteClusterByUuid :
    string -> bool -> option RemoteClusterReference * option error;
  remote_cluster_svc_GetRemoteClusterNameFromClusterUuid : string -> string;
  cluster_info_svc_IsClusterCompatible :
    RemoteClusterReference -> list Z -> bool * option error;
  json_Marshal : ReplicationSpecification -> list byte * option error;
  json_Unmarshal : list byte -> ReplicationSpecification * option error;
  GetKeyFromPath : string -> string;
}.

(** The metadata store of section 4.1: an abstract state [M] and the
    operations the service calls on it.  Nothing is assumed of them: a store
    may refuse a write or fail a read at any time. *)
Record MetadataSvc (M : Type) : Type := {
  Get : M -> string -> list byte * Revision * option error;
  AddWithCatalog : M -> string -> string -> list byte -> M * option error;
  Set_ : M -> string -> list byte -> Revision -> M * option error;
  DelWithCatalog : M -> string -> string -> Revision -> M * option error;
}.
Arguments Get {M}.
Arguments AddWithCatalog {M}.
Arguments Set_ {M}.
Arguments DelWithCatalog {M}.

(** Modelled from the spec: [service_def.MetadataEntry] is declared in
    package [service_def]; by section 4.1 the enumeration of a catalog yields
    a sequence of key, value and revision.  A nil value is [None]. *)
Record MetadataEntry : Type := {
  Key : string;
  Value : option (list byte);
  Rev : Revision;
}.

(** *** The service *)

Record ReplicationSpecService (M : Type) : Type := {
  metadata_store : M;
  uilog_svc : option (list string);
  cache : option MetadataCache;
  heap : Heap;
}.
Arguments metadata_store {M}.
Arguments uilog_svc {M}.
Arguments cache {M}.
Arguments heap {M}.

Section Service.

Context (env : Env) {M : Type} (metadata_svc : MetadataSvc M).

Abbreviation Service := (ReplicationSpecService M).

Definition with_store (service : Service) (m : M) : Service :=
  {| metadata_store := m; uilog_svc := uilog_svc service;
     cache := cache service; heap := heap service |}.

Definition with_uilog (service : Service) (l : option (list string)) : Service :=
  {| metadata_store := metadata_store service; uilog_svc := l;
     cache := cache service; heap := heap service |}.

Definition with_cache (service : Service) (c : MetadataCache) (h : Heap) : Service :=
  {| metadata_store := metadata_store service; uilog_svc := uilog_svc service;
     cache := Some c; heap := h |}.

Definition nil_dereference {A} : outcome A :=
  Panic "invalid memory address or nil pointer dereference".
Definition bad_type_assertion {A} : outcome A :=
  Panic "interface conversion: interface {} is not *ReplicationSpecVal".

Definition getCache (service : Service) : option MetadataCache * option error :=
  match cache service with
  | None => (None, Some (ErrorString "Can't instantiate cahe"))
  | Some c => (Some c, None)
  end.

Definition not_found {A} : outcome (option A * option error) :=
  Done (None, Some (ErrorString ReplicationSpecNotFoundErrorMessage)).

Definition ReplicationSpec (service : Service) (replicationId : string)
  : outcome (option ReplicationSpecification * option error) :=
  match getCache service with
  | (_, Some err) => Done (None, Some err)
  | (None, None) => nil_dereference
  | (Some cache, None) =>
      let '(val, ok) := cache_Get cache replicationId in
      if negb ok then not_found
      else match val with
           | VNil => not_found
           | VOther => bad_type_assertion
           | VSpecVal p =>
               match spec (deref (heap service) p) with
               | None => not_found
               | Some s => Done (Some s, None)
               end
           end
  end.

Definition cacheSpec (cache : MetadataCache) (h : Heap) (specId : string)
    (spec : option ReplicationSpecification) : outcome (MetadataCache * Heap) :=
  let '(cachedVal, ok) := cache_Get cache specId in
  match ok, cachedVal with
  | true, VSpecVal cachedObj =>
      let h := set_spec h cachedObj spec in
      Done (cache_Upsert cache specId (VSpecVal cachedObj), h)
  | true, VOther =>
      Panic "Object in ReplicationSpecServcie cache is not of type *replciationSpecVal"
  | _, _ =>
      (* never being cached before *)
      let '(cachedObj, h) := alloc h {| spec := spec; derivedObj := None |} in
      Done (cache_Upsert cache specId (VSpecVal cachedObj), h)
  end.

Definition writeUiLog (service : Service) (spec : ReplicationSpecification)
    (action reason : string) : Service :=
  match uilog_svc service with
  | Some log =>
      let remoteClusterName :=
        remote_cluster_svc_GetRemoteClusterNameFromClusterUuid env (TargetClusterUUID spec) in
      let head :=
        "Replication from bucket " +:+ dquote +:+ SourceBucketName spec +:+ dquote
          +:+ " to bucket " +:+ dquote +:+ TargetBucketName spec +:+ dquote
          +:+ " on cluster " +:+ dquote +:+ remoteClusterName +:+ dquote
          +:+ " " +:+ action in
      let uiLogMsg :=
        if decide (reason = EmptyString) then head +:+ "."
        else head +:+ ", since " +:+ reason in
      with_uilog service (Some (log ++ [uiLogMsg])%list)
  | None => service
  end.

Definition getKeyFromReplicationId (replicationId : string) : string :=
  ReplicationSpecsCatalogKey +:+ base.KeyPartsDelimiter +:+ replicationId.

Definition getReplicationIdFromKey (key : string) : outcome string :=
  let prefix := ReplicationSpecsCatalogKey +:+ base.KeyPartsDelimiter in
  if negb (String.prefix prefix key) then
    (* should never get here. *)
    Panic ("Got unexpected key " +:+ key +:+ " for replication spec")
  else Done (String.substring (String.length prefix)
               (String.length key - String.length prefix) key).

Definition ValidateNewReplicationSpec (service : Service)
    (sourceBucket targetCluster targetBucket : string) (settings : gmap string any)
  : outcome (string * string * option RemoteClusterReference * gmap string error) :=
  let errorMap : gmap string error := ∅ in
  (* validate the existence of source bucket *)
  let '(local_connStr, _) := xdcr_comp_topology_svc_MyConnectionStr env in
  if decide (local_connStr = EmptyString) then
    Panic "XDCRTopologySvc.MyConnectionStr() should not return empty string"
  else
  let '(sourceBucketUUID, err_source) := utils_LocalBucketUUID env local_connStr sourceBucket in
  let errorMap :=
    if decide (err_source = Some NonExistentBucketError)
    then <[base.FromBucket := BucketNotFoundError sourceBucket]> errorMap
    else errorMap in
  (* validate remote cluster ref *)
  let '(targetClusterRef, err) :=
    remote_cluster_svc_RemoteClusterByRefName env targetCluster false in
  match err with
  | Some err =>
      let errorMap :=
        <[base.ToCluster := EnhancedError "cannot find remote cluster" err]> errorMap in
      Done (EmptyString, EmptyString, None, errorMap)
  | None =>
  (* validate that the source bucket and target bucket are not the same bucket *)
  let same_bucket : outcome bool :=
    if decide (sourceBucket = targetBucket) then
      let '(sourceClusterUuid, err) := xdcr_comp_topology_svc_MyClusterUuid env in
      match err, targetClusterRef with
      | Some _, _ => Panic "cannot get local cluster uuid"
      | None, None => nil_dereference
      | None, Some ref => Done (bool_decide (sourceClusterUuid = Uuid ref))
      end
    else Done false in
  match same_bucket, targetClusterRef with
  | Panic msg, _ => Panic msg
  | Done true, _ =>
      let errorMap :=
        <[base.PlaceHolderFieldKey :=
            ErrorString "Replication from a bucket to the same bucket is not allowed"]>
          errorMap in
      Done (EmptyString, EmptyString, None, errorMap)
  | Done false, None => nil_dereference
  | Done false, Some ref =>
  match MyConnectionStr ref with
  | (_, Some err) =>
      let errorMap :=
        <[base.ToCluster :=
            EnhancedError "invalid remote cluster, MyConnectionStr() failed." err]> errorMap in
      Done (EmptyString, EmptyString, None, errorMap)
  | (remote_connStr, None) =>
  match MyCredentials ref with
  | (_, _, Some err) =>
      let errorMap :=
        <[base.ToCluster :=
            EnhancedError "invalid remote cluster, MyCredentials() failed." err]> errorMap in
      Done (EmptyString, EmptyString, None, errorMap)
  | (remote_userName, remote_password, None) =>
  (* validate target bucket *)
  let '(targetBucketUUID, err_target) :=
    utils_RemoteBucketUUID env remote_connStr remote_userName remote_password targetBucket in
  let errorMap :=
    if decide (err_target = Some NonExistentBucketError)
    then <[base.ToBucket := BucketNotFoundError targetBucket]> errorMap
    else errorMap in
  let repId := ReplicationId sourceBucket (Uuid ref) targetBucket in
  match ReplicationSpec service repId with
  | Panic msg => Panic msg
  | Done (_, err) =>
  let errorMap :=
    match err with
    | None =>
        <[base.PlaceHolderFieldKey := ErrorString ReplicationSpecAlreadyExistErrorMessage]>
          errorMap
    | Some _ => errorMap
    end in
  (* if replication type is set to xmem, validate that the target cluster is xmem compatible *)
  let xmem :=
    match settings !! ReplicationType with
    | None => true
    | Some repl_type => bool_decide (repl_type = AString ReplicationTypeXmem)
    end in
  let errorMap :=
    if xmem then
      match cluster_info_svc_IsClusterCompatible env ref [2; 2]%Z with
      | (_, Some err) =>
          let errMsg :=
            "Failed to get cluster version information, err=" +:+ Error err +:+ newline in
          <[base.ToCluster := ErrorString errMsg]> errorMap
      | (xmemCompatible, None) =>
          if negb xmemCompatible then
            <[base.ToCluster :=
                ErrorString "Version 2 replication is disallowed. Cluster has nodes with versions less than 2.2."]>
              errorMap
          else errorMap
      end
    else errorMap in
  Done (sourceBucketUUID, targetBucketUUID, Some ref, errorMap)
  end end end end end.

(** [spec] is a non-nil pointer; the assignment [spec.Revision = rev] of the
    source shows in the cached value, specs being kept by value here. *)
Definition AddReplicationSpec (service : Service) (spec : ReplicationSpecification)
  : outcome (option error * Service) :=
  match json_Marshal env spec with
  | (_, Some err) => Done (Some err, service)
  | (value, None) =>
      let key := getKeyFromReplicationId (Id spec) in
      let '(m, err) :=
        AddWithCatalog metadata_svc (metadata_store service) ReplicationSpecsCatalogKey key value in
      let service := with_store service m in
      match err with
      | Some err => Done (Some err, service)
      | None =>
          let '(_, rev, err) := Get metadata_svc (metadata_store service) key in
          match err with
          | Some err =>
              Done (Some (ErrorString
                      ("Failed to query newly added replication spec " +:+ Id spec
                         +:+ " back, err=" +:+ Error err +:+ newline)), service)
          | None =>
              let spec := with_Revision spec rev in
              match getCache service with
              | (_, Some _) => Panic "cache is not initialized for ReplicationSpecService"
              | (None, None) => nil_dereference
              | (Some cache, None) =>
                  match cacheSpec cache (heap service) (Id spec) (Some spec) with
                  | Panic msg => Panic msg
                  | Done (cache, h) =>
                      let service := with_cache service cache h in
                      Done (None, writeUiLog service spec "created" EmptyString)
                  end
              end
          end
      end
  end.

(** The error of the re-read [Get] is assigned to [err] and overwritten by the
    next statement, [cache, err := service.getCache()], before anything reads
    it: only [rev] of that call is used. *)
Definition SetReplicationSpec (service : Service) (spec : ReplicationSpecification)
  : outcome (option error * Service) :=
  match json_Marshal env spec with
  | (_, Some err) => Done (Some err, service)
  | (value, None) =>
      let key := getKeyFromReplicationId (Id spec) in
      let '(m, err) := Set_ metadata_svc (metadata_store service) key value (Revision_ spec) in
      let service := with_store service m in
      match err with
      | Some err => Done (Some err, service)
      | None =>
          let '(_, rev, _) := Get metadata_svc (metadata_store service) key in
          let spec := with_Revision spec rev in
          match getCache service with
          | (_, Some _) => Panic "cache is not initialized for ReplicationSpecService"
          | (None, None) => nil_dereference
          | (Some cache, None) =>
              match cacheSpec cache (heap service) (Id spec) (Some spec) with
              | Panic msg => Panic msg
              | Done (cache, h) => Done (None, with_cache service cache h)
              end
          end
      end
  end.

(** [reason] is received and not used: the UI log is written with an empty
    reason.  The cache is read under [key], the catalog key, not under
    [replicationId]. *)
Definition delReplicationSpec_internal (service : Service) (replicationId reason : string)
  : outcome (option ReplicationSpecification * option error * Service) :=
  match ReplicationSpec service replicationId with
  | Panic msg => Panic msg
  | Done (_, Some _) =>
      Done (None, Some (ErrorString ReplicationSpecNotFoundErrorMessage), service)
  | Done (None, None) => nil_dereference
  | Done (Some spec, None) =>
      let key := getKeyFromReplicationId replicationId in
      let '(m, err) :=
        DelWithCatalog metadata_svc (metadata_store service) ReplicationSpecsCatalogKey key
          (Revision_ spec) in
      let service := with_store service m in
      match err with
      | Some err => Done (None, Some err, service)
      | None =>
          match getCache service with
          | (_, Some _) => Done (None, Some (ErrorString "Can't instantiate cahe"), service)
          | (None, None) => nil_dereference
          | (Some cache, None) =>
              (* soft remove it from cache by setting SpecVal.spec = nil, but keep the key
                 there so that the derived object can still be retrieved and be acted on
                 for cleaning-up. *)
              let '(val, ok) := cache_Get cache key in
              let h :=
                match ok, val with
                | true, VSpecVal specVal => set_spec (heap service) specVal None
                | _, _ => heap service
                end in
              let service := with_cache service cache h in
              Done (Some spec, None, writeUiLog service spec "removed" EmptyString)
          end
      end
  end.

Definition DelReplicationSpec (service : Service) (replicationId : string)
  : outcome (option ReplicationSpecification * option error * Service) :=
  delReplicationSpec_internal service replicationId EmptyString.

Definition is_SpecVal (v : CacheVal) : bool :=
  match v with VSpecVal _ => true | _ => false end.

(** The loop asserts the type of a pointer to [ReplicationSpecVal] on every
    value of the snapshot, so any other value panics. *)
Definition AllReplicationSpecs (service : Service)
  : outcome (option (gmap string ReplicationSpecification) * option error) :=
  match getCache service with
  | (_, Some _) => Done (None, Some (ErrorString "Can't instantiate cahe"))
  | (None, None) => nil_dereference
  | (Some cache, None) =>
      let values_map := cache_GetMap cache in
      if bool_decide (map_Forall (λ _ val, is_SpecVal val = true) values_map) then
        Done (Some (omap (λ val, match val with
                                 | VSpecVal p => spec (deref (heap service) p)
                                 | _ => None
                                 end) values_map), None)
      else bad_type_assertion
  end.

(** The order of the ids is the iteration order of a Go map, which is
    unspecified; only membership is meaningful. *)
Definition AllReplicationSpecIds (service : Service)
  : outcome (option (list string) * option error) :=
  match AllReplicationSpecs service with
  | Panic msg => Panic msg
  | Done (_, Some err) => Done (None, Some err)
  | Done (None, None) => Done (Some [], None)
  | Done (Some rep_map, None) => Done (Some (map_to_list rep_map).*1, None)
  end.

Definition AllReplicationSpecIdsForBucket (service : Service) (bucket : string)
  : outcome (option (list string) * option error) :=
  match AllReplicationSpecIds service with
  | Panic msg => Panic msg
  | Done (_, Some err) => Done (None, Some err)
  | Done (None, None) => Done (Some [], None)
  | Done (Some allRepIds, None) =>
      Done (Some (filter (λ repId, IsReplicationIdForSourceBucket repId bucket = true)
                    allRepIds), None)
  end.

(** [value] is [None] for a nil slice. *)
Definition constructReplicationSpec (value : option (list byte)) (rev : Revision)
  : option ReplicationSpecification * option error :=
  match value with
  | None => (None, None)
  | Some value =>
      match json_Unmarshal env value with
      | (_, Some err) => (None, Some err)
      | (spec, None) => (Some (with_Revision spec rev), None)
      end
  end.

(* Implement callback function for metakv *)
Definition ReplicationSpecServiceCallback (service : Service) (path : string)
    (value : option (list byte)) (rev : Revision)
  : outcome (string * option DerivedObj * option ReplicationSpecification * option error
             * Service) :=
  match constructReplicationSpec value rev with
  | (_, Some err) => Done (EmptyString, None, None, Some err, service)
  | (spec, None) =>
      match getReplicationIdFromKey (GetKeyFromPath env path) with
      | Panic msg => Panic msg
      | Done repId =>
          match getCache service with
          | (_, Some err) => Done (EmptyString, None, None, Some err, service)
          | (None, None) => Done (EmptyString, None, None, None, service)
          | (Some cache, None) =>
              (* a present spec is cached; for a deleted one the call is
                 [cacheSpec(cache, repId, nil)] *)
              match cacheSpec cache (heap service) repId spec with
              | Panic msg => Panic msg
              | Done (cache, h) => Done (repId, None, spec, None, with_cache service cache h)
              end
          end
      end
  end.

Definition ValidateExistingReplicationSpec (spec : ReplicationSpecification)
  : outcome (option error * option error) :=
  (* validate the existence of source bucket *)
  let '(local_connStr, _) := xdcr_comp_topology_svc_MyConnectionStr env in
  if decide (local_connStr = EmptyString) then
    Panic "XDCRTopologySvc.MyConnectionStr() should not return empty string"
  else
  let '(sourceBucketUuid, err_source) :=
    utils_LocalBucketUUID env local_connStr (SourceBucketName spec) in
  if decide (err_source = Some NonExistentBucketError) then
    let errMsg :=
      "spec " +:+ Id spec +:+ " refers to non-existent source bucket "
        +:+ dquote +:+ SourceBucketName spec +:+ dquote in
    Done (Some InvalidReplicationSpecError, Some (ErrorString errMsg))
  else
  if decide (SourceBucketUUID spec ≠ EmptyString ∧ SourceBucketUUID spec ≠ sourceBucketUuid) then
    (* spec is referring to a deleted bucket *)
    let errMsg :=
      "spec " +:+ Id spec +:+ " refers to bucket " +:+ SourceBucketName spec
        +:+ " which was deleted and recreated" in
    Done (Some InvalidReplicationSpecError, Some (ErrorString errMsg))
  else
  (* validate target cluster *)
  let '(targetClusterRef, err) :=
    remote_cluster_svc_RemoteClusterByUuid env (TargetClusterUUID spec) false in
  match err, targetClusterRef with
  | Some MetadataNotFoundErr, _ =>
      (* remote cluster is no longer valid *)
      let errMsg :=
        "spec " +:+ Id spec +:+ " refers to non-existent remote cluster reference "
          +:+ dquote +:+ TargetClusterUUID spec +:+ dquote in
      Done (Some InvalidReplicationSpecError, Some (ErrorString errMsg))
  | Some err, _ => Done (Some err, None)
  | None, None => nil_dereference
  | None, Some ref =>
  match MyConnectionStr ref with
  | (_, Some err) =>
      let errMsg :=
        "spec " +:+ Id spec +:+ " refers to an invalid remote cluster reference "
          +:+ dquote +:+ TargetClusterUUID spec +:+ dquote
          +:+ ", as RemoteClusterRef.MyConnectionStr() returns err=" +:+ Error err
          +:+ newline in
      Done (Some InvalidReplicationSpecError, Some (ErrorString errMsg))
  | (remote_connStr, None) =>
  match MyCredentials ref with
  | (_, _, Some err) =>
      let errMsg :=
        "spec " +:+ Id spec +:+ " refers to an invalid remote cluster reference "
          +:+ dquote +:+ TargetClusterUUID spec +:+ dquote
          +:+ ", as RemoteClusterRef.MyCredentials() returns err=" +:+ Error err
          +:+ newline in
      Done (Some InvalidReplicationSpecError, Some (ErrorString errMsg))
  | (remote_userName, remote_password, None) =>
  (* validate target bucket *)
  let '(targetBucketUuid, err_target) :=
    utils_RemoteBucketUUID env remote_connStr remote_userName remote_password
      (TargetBucketName spec) in
  if decide (err_target = Some NonExistentBucketError) then
    let errMsg :=
      "spec " +:+ Id spec +:+ " refers to non-existent target bucket "
        +:+ dquote +:+ TargetBucketName spec +:+ dquote +:+ newline in
    Done (Some InvalidReplicationSpecError, Some (ErrorString errMsg))
  else
  if decide (TargetBucketUUID spec ≠ EmptyString ∧ TargetBucketUUID spec ≠ targetBucketUuid) then
    (* spec is referring to a deleted bucket *)
    let errMsg :=
      "spec " +:+ Id spec +:+ " refers to bucket " +:+ TargetBucketName spec
        +:+ " which was deleted and recreated" +:+ newline in
    Done (Some InvalidReplicationSpecError, Some (ErrorString errMsg))
  else Done (None, None)
  end end end.

(** The error of the internal delete is only logged. *)
Definition ValidateAndGC (service : Service) (spec : ReplicationSpecification)
  : outcome Service :=
  match ValidateExistingReplicationSpec spec with
  | Panic msg => Panic msg
  | Done (err, detail_err) =>
      if decide (err = Some InvalidReplicationSpecError) then
        match detail_err with
        | None => nil_dereference
        | Some detail_err =>
            match delReplicationSpec_internal service (Id spec) (Error detail_err) with
            | Panic msg => Panic msg
            | Done (_, _, service) => Done service
            end
        end
      else Done service
  end.

Definition SetDerivedObj (service : Service) (specId : string) (derivedObj : option DerivedObj)
  : outcome (option error * Service) :=
  match getCache service with
  | (_, Some _) => Done (Some (ErrorString "Can't instantiate cahe"), service)
  | (None, None) => nil_dereference
  | (Some cache, None) =>
      let '(cachedVal, ok) := cache_Get cache specId in
      match ok, cachedVal with
      | false, _ | _, VNil =>
          Done (Some (ErrorString ReplicationSpecNotFoundErrorMessage), service)
      | true, VOther =>
          Panic "Object in ReplicationSpecServcie cache is not of type *replciationSpecVal"
      | true, VSpecVal cachedObj =>
          let h := set_derivedObj (heap service) cachedObj derivedObj in
          match deref h cachedObj with
          | {| spec := None; derivedObj := None |} =>
              (* remove it from the cache *)
              Done (None, with_cache service (cache_Delete cache specId) h)
          | _ =>
              Done (None, with_cache service (cache_Upsert cache specId (VSpecVal cachedObj)) h)
          end
      end
  end.

Definition GetDerviedObj (service : Service) (specId : string)
  : outcome (option DerivedObj * option error) :=
  match getCache service with
  | (_, Some _) => Done (None, Some (ErrorString "Can't instantiate cahe"))
  | (None, None) => nil_dereference
  | (Some cache, None) =>
      let '(cachedVal, ok) := cache_Get cache specId in
      match ok, cachedVal with
      | false, _ | _, VNil =>
          Done (None, Some (ErrorString ReplicationSpecNotFoundErrorMessage))
      | true, VOther =>
          Panic "Object in ReplicationSpecServcie cache is not of type *replciationSpecVal"
      | true, VSpecVal cachedObj => Done (derivedObj (deref (heap service) cachedObj), None)
      end
  end.

(** *** Construction of the service and of new specs *)

(** [metadata_svc.GetAllMetadataFromCatalog], the enumeration of section 4.1,
    which only the construction of the service calls. *)
Context (GetAllMetadataFromCatalog : M -> string -> list MetadataEntry * option error).

Definition with_heap (service : Service) (h : Heap) : Service :=
  {| metadata_store := metadata_store service; uilog_svc := uilog_svc service;
     cache := cache service; heap := h |}.

(** The loop of [initCache] over the entries: it stops at the first entry
    that does not yield a spec and returns the error of that entry, which is
    nil for an entry with a nil value.  [None] for the cache tells that the
    loop has returned early. *)
Fixpoint initCache_entries (cache : MetadataCache) (h : Heap) (entries : list MetadataEntry)
  : outcome (option MetadataCache * option error * Heap) :=
  match entries with
  | [] => Done (Some cache, None, h)
  | entry :: entries =>
      match constructReplicationSpec (Value entry) (Rev entry) with
      | (Some spec, None) =>
          match cacheSpec cache h (Id spec) (Some spec) with
          | Panic msg => Panic msg
          | Done (cache, h) => initCache_entries cache h entries
          end
      | (_, err) => Done (None, err, h)
      end
  end.

Definition initCache (service : Service) : outcome (option error * Service) :=
  let cache : MetadataCache := ∅ in
  match GetAllMetadataFromCatalog (metadata_store service) ReplicationSpecsCatalogKey with
  | (_, Some err) => Done (Some err, service)
  | (entries, None) =>
      match initCache_entries cache (heap service) entries with
      | Panic msg => Panic msg
      | Done (None, err, h) => Done (err, with_heap service h)
      | Done (Some cache, _, h) => Done (None, with_cache service cache h)
      end
  end.

(** The service is built over a store [m] and a UI log sink. *)
Definition NewReplicationSpecService (uilog_svc : option (list string)) (m : M)
  : outcome (option Service * option error) :=
  let svc := {| metadata_store := m; uilog_svc := uilog_svc; cache := None; heap := ∅ |} in
  match initCache svc with
  | Panic msg => Panic msg
  | Done (Some err, _) => Done (None, Some err)
  | Done (None, svc) => Done (Some svc, None)
  end.

Definition IsReplicationValidationError (err : option error) : bool :=
  match err with
  | Some err =>
      String.prefix ReplicationSpecAlreadyExistErrorMessage (Error err)
      || String.prefix ReplicationSpecNotFoundErrorMessage (Error err)
  | None => false
  end.

Definition sourceBucketUUID (bucketName : string) : outcome (string * option error) :=
  let '(local_connStr, _) := xdcr_comp_topology_svc_MyConnectionStr env in
  if decide (local_connStr = EmptyString) then
    Panic "XDCRTopologySvc.MyConnectionStr() should not return empty string"
  else Done (utils_LocalBucketUUID env local_connStr bucketName).

Definition targetBucketUUID (targetClusterUUID bucketName : string)
  : outcome (string * option error) :=
  match remote_cluster_svc_RemoteClusterByUuid env targetClusterUUID false with
  | (_, Some err_target) => Done (EmptyString, Some err_target)
  | (None, None) => nil_dereference
  | (Some ref, None) =>
      match MyConnectionStr ref with
      | (_, Some err_target) => Done (EmptyString, Some err_target)
      | (remote_connStr, None) =>
          match MyCredentials ref with
          | (_, _, Some err_target) => Done (EmptyString, Some err_target)
          | (remote_userName, remote_password, None) =>
              Done (utils_RemoteBucketUUID env remote_connStr remote_userName
                      remote_password bucketName)
          end
      end
  end.

Definition ConstructNewReplicationSpec
    (sourceBucketName targetClusterUUID targetBucketName : string)
  : outcome (option ReplicationSpecification * option error) :=
  match sourceBucketUUID sourceBucketName with
  | Panic msg => Panic msg
  | Done (_, Some err) => Done (None, Some err)
  | Done (sourceBucketUUID, None) =>
      match targetBucketUUID targetClusterUUID targetBucketName with
      | Panic msg => Panic msg
      | Done (_, Some err) => Done (None, Some err)
      | Done (targetBucketUUID, None) =>
          Done (Some (NewReplicationSpecification sourceBucketName sourceBucketUUID
                        targetClusterUUID targetBucketName targetBucketUUID), None)
      end
  end.

End Service.

(** *** Invariants of the cache *)

(** Every slot of the cache holds a pointer to an allocated
    [ReplicationSpecVal], and no two identifiers share one. *)
Definition cache_wf (c : MetadataCache) (h : Heap) : Prop :=
  (∀ id v, c !! id = Some v → ∃ p, v = VSpecVal p ∧ is_Some (h !! p)) ∧
  (∀ id1 id2 p,
     c !! id1 = Some (VSpecVal p) → c !! id2 = Some (VSpecVal p) → id1 = id2).

Definition service_wf {M : Type} (service : ReplicationSpecService M) : Prop :=
  ∃ c, cache service = Some c ∧ cache_wf c (heap service).

(** The error every lookup of the service reports for an identifier it does
    not serve. *)
Definition not_found_error : error := ErrorString ReplicationSpecNotFoundErrorMessage.

(** The spec field and the derived-object field the cache holds for an
    identifier, if any. *)
Definition spec_at (c : MetadataCache) (h : Heap) (id : string)
  : option ReplicationSpecification :=
  match c !! id with
  | Some (VSpecVal p) => spec (deref h p)
  | _ => None
  end.

Definition derived_at (c : MetadataCache) (h : Heap) (id : string) : option DerivedObj :=
  match c !! id with
  | Some (VSpecVal p) => derivedObj (deref h p)
  | _ => None
  end.

(** The catalog entry [e] yields the spec [sp]. *)
Definition decodes (env : Env) (e : MetadataEntry) (sp : ReplicationSpecification) : Prop :=
  constructReplicationSpec env (Value e) (Rev e) = (Some sp, None).

(** What [ValidateExistingReplicationSpec] requires of the world, in the
    order of its checks: the source bucket is not reported missing and has
    the captured UUID (if one was captured), the cluster reference is found
    and yields a connection string and credentials, and the same holds of
    the target bucket. *)
Definition spec_is_live (env : Env) (sp : ReplicationSpecification) : Prop :=
  let connStr := (xdcr_comp_topology_svc_MyConnectionStr env).1 in
  let source := utils_LocalBucketUUID env connStr (SourceBucketName sp) in
  source.2 ≠ Some NonExistentBucketError ∧
  (SourceBucketUUID sp = EmptyString ∨ SourceBucketUUID sp = source.1) ∧
  ∃ ref,
    remote_cluster_svc_RemoteClusterByUuid env (TargetClusterUUID sp) false
      = (Some ref, None) ∧
    (MyConnectionStr ref).2 = None ∧
    (MyCredentials ref).2 = None ∧
    let target :=
      utils_RemoteBucketUUID env (MyConnectionStr ref).1 (MyCredentials ref).1.1
        (MyCredentials ref).1.2 (TargetBucketName sp) in
    target.2 ≠ Some NonExistentBucketError ∧
    (TargetBucketUUID sp = EmptyString ∨ TargetBucketUUID sp = target.1).

End metadata_svc.

(** ** Package [supervisor]: the generic supervisor *)
Module supervisor.

(* configuration settings *)
(* interval of sending heart beat signals *)
Definition HEARTBEAT_INTERVAL : string := "heartbeat_interval".
(* child is considered to have missed a heart beat if it did not respond within
   this timeout period *)
Definition HEARTBEAT_TIMEOUT : string := "heartbeat_timeout".
(* child is considered to be broken if it had missed this number of heart beats
   consecutively *)
Definition MISSED_HEARTBEAT_THRESHOLD : string := "missed_heartbeat_threshold".

(** A [time.Duration] is a number of nanoseconds. *)
Definition Millisecond : Z := 1000000.
Definition default_heartbeat_interval : Z := 1000 * Millisecond.
Definition default_heartbeat_timeout : Z := 4000 * Millisecond.
Definition default_missed_heartbeat_threshold : Z := 5.

(** [missedCount++] on a [uint16]. *)
Definition uint16_incr (n : Z) : Z := ((n + 1) mod 65536)%Z.

Inductive heartbeatRespStatus : Type :=
| skip
| notYetResponded
| respondedOk
| respondedNotOk.

#[export] Instance heartbeatRespStatus_eq_dec : EqDecision heartbeatRespStatus.
Proof. solve_decision. Defined.

Abbreviation sup_loc := positive.

(** A [common.Supervisable] held in the children map: another supervisor of
    this store, or a component outside of it. *)
Inductive Supervisable : Type :=
| SupervisorChild (p : sup_loc)
| ExternalChild.

(** The fields of the struct that carry state.  [heartbeat_ticker] is [None]
    for the nil pointer and otherwise tells whether the ticker still runs;
    [finch_closed] tells whether [finch] has been closed; a channel of
    [resp_waiter_chs] has capacity one and is its buffered value, if any;
    [failure_handler_calls] records the invocations of
    [failure_handler.OnError] with their argument, oldest first. *)
Record GenericSupervisor : Type := {
  id : string;
  children : gmap string Supervisable;
  heartbeat_timeout : Z;
  heartbeat_interval : Z;
  missed_heartbeat_threshold : Z;
  (* key - child Id; value - number of consecutive heart beat misses *)
  childrenBeatMissedMap : gmap string Z;
  heartbeat_ticker : option bool;
  failure_handler_calls : list (gmap string error);
  finch_closed : bool;
  resp_waiter_chs : list (option bool);
  parent_supervisor : option sup_loc;
}.

Abbreviation Store := (gmap sup_loc GenericSupervisor).

Definition nil_dereference {A} : outcome A :=
  Panic "invalid memory address or nil pointer dereference".

Definition with_children (s : GenericSupervisor) (c : gmap string Supervisable)
  : GenericSupervisor :=
  {| id := id s; children := c; heartbeat_timeout := heartbeat_timeout s;
     heartbeat_interval := heartbeat_interval s;
     missed_heartbeat_threshold := missed_heartbeat_threshold s;
     childrenBeatMissedMap := childrenBeatMissedMap s;
     heartbeat_ticker := heartbeat_ticker s;
     failure_handler_calls := failure_handler_calls s;
     finch_closed := finch_closed s; resp_waiter_chs := resp_waiter_chs s;
     parent_supervisor := parent_supervisor s |}.

Definition with_heartbeat_timeout (s : GenericSupervisor) (d : Z) : GenericSupervisor :=
  {| id := id s; children := children s; heartbeat_timeout := d;
     heartbeat_interval := heartbeat_interval s;
     missed_heartbeat_threshold := missed_heartbeat_threshold s;
     childrenBeatMissedMap := childrenBeatMissedMap s;
     heartbeat_ticker := heartbeat_ticker s;
     failure_handler_calls := failure_handler_calls s;
     finch_closed := finch_closed s; resp_waiter_chs := resp_waiter_chs s;
     parent_supervisor := parent_supervisor s |}.

Definition with_heartbeat_interval (s : GenericSupervisor) (d : Z) : GenericSupervisor :=
  {| id := id s; children := children s; heartbeat_timeout := heartbeat_timeout s;
     heartbeat_interval := d;
     missed_heartbeat_threshold := missed_heartbeat_threshold s;
     childrenBeatMissedMap := childrenBeatMissedMap s;
     heartbeat_ticker := heartbeat_ticker s;
     failure_handler_calls := failure_handler_calls s;
     finch_closed := finch_closed s; resp_waiter_chs := resp_waiter_chs s;
     parent_supervisor := parent_supervisor s |}.

Definition with_childrenBeatMissedMap (s : GenericSupervisor) (m : gmap string Z)
  : GenericSupervisor :=
  {| id := id s; children := children s; heartbeat_timeout := heartbeat_timeout s;
     heartbeat_interval := heartbeat_interval s;
     missed_heartbeat_threshold := missed_heartbeat_threshold s;
     childrenBeatMissedMap := m;
     heartbeat_ticker := heartbeat_ticker s;
     failure_handler_calls := failure_handler_calls s;
     finch_closed := finch_closed s; resp_waiter_chs := resp_waiter_chs s;
     parent_supervisor := parent_supervisor s |}.

Definition with_heartbeat_ticker (s : GenericSupervisor) (t : option bool)
  : GenericSupervisor :=
  {| id := id s; children := children s; heartbeat_timeout := heartbeat_timeout s;
     heartbeat_interval := heartbeat_interval s;
     missed_heartbeat_threshold := missed_heartbeat_threshold s;
     childrenBeatMissedMap := childrenBeatMissedMap s;
     heartbeat_ticker := t;
     failure_handler_calls := failure_handler_calls s;
     finch_closed := finch_closed s; resp_waiter_chs := resp_waiter_chs s;
     parent_supervisor := parent_supervisor s |}.

Definition with_failure_handler_calls (s : GenericSupervisor) (l : list (gmap string error))
  : GenericSupervisor :=
  {| id := id s; children := children s; heartbeat_timeout := heartbeat_timeout s;
     heartbeat_interval := heartbeat_interval s;
     missed_heartbeat_threshold := missed_heartbeat_threshold s;
     childrenBeatMissedMap := childrenBeatMissedMap s;
     heartbeat_ticker := heartbeat_ticker s;
     failure_handler_calls := l;
     finch_closed := finch_closed s; resp_waiter_chs := resp_waiter_chs s;
     parent_supervisor := parent_supervisor s |}.

Definition with_finch_closed (s : GenericSupervisor) (b : bool) : GenericSupervisor :=
  {| id := id s; children := children s; heartbeat_timeout := heartbeat_timeout s;
     heartbeat_interval := heartbeat_interval s;
     missed_heartbeat_threshold := missed_heartbeat_threshold s;
     childrenBeatMissedMap := childrenBeatMissedMap s;
     heartbeat_ticker := heartbeat_ticker s;
     failure_handler_calls := failure_handler_calls s;
     finch_closed := b; resp_waiter_chs := resp_waiter_chs s;
     parent_supervisor := parent_supervisor s |}.

Definition with_resp_waiter_chs (s : GenericSupervisor) (chs : list (option bool))
  : GenericSupervisor :=
  {| id := id s; children := children s; heartbeat_timeout := heartbeat_timeout s;
     heartbeat_interval := heartbeat_interval s;
     missed_heartbeat_threshold := missed_heartbeat_threshold s;
     childrenBeatMissedMap := childrenBeatMissedMap s;
     heartbeat_ticker := heartbeat_ticker s;
     failure_handler_calls := failure_handler_calls s;
     finch_closed := finch_closed s; resp_waiter_chs := chs;
     parent_supervisor := parent_supervisor s |}.

(** In the four functions below the receiver is a location of the store; a
    location that holds nothing stands for the nil pointer. *)
Definition AddChild (store : Store) (supervisor : sup_loc) (childId : string)
    (child : Supervisable) : outcome (option error * Store) :=
  match store !! supervisor with
  | None => nil_dereference
  | Some s =>
      Done (None, <[supervisor := with_children s (<[childId := child]> (children s))]> store)
  end.

Definition RemoveChild (store : Store) (supervisor : option sup_loc) (childId : string)
  : outcome (option error * Store) :=
  match supervisor with
  | None => nil_dereference
  | Some p =>
      match store !! p with
      | None => nil_dereference
      | Some s =>
          (* TODO should we return error when childId does not exist? *)
          Done (None, <[p := with_children s (delete childId (children s))]> store)
      end
  end.

Definition Child (store : Store) (supervisor : sup_loc) (childId : string)
  : outcome (option Supervisable * option error) :=
  match store !! supervisor with
  | None => nil_dereference
  | Some s =>
      match children s !! childId with
      | Some child => Done (Some child, None)
      | None =>
          Done (None, Some (ErrorString ("Cannot find child " +:+ childId
                                           +:+ " of supervisor " +:+ id s +:+ newline)))
      end
  end.

Definition NewGenericSupervisor (store : Store) (id : string)
    (parent_supervisor : option sup_loc) : outcome (sup_loc * Store) :=
  let supervisor :=
    {| id := id;
       children := ∅;
       heartbeat_timeout := default_heartbeat_timeout;
       heartbeat_interval := default_heartbeat_interval;
       missed_heartbeat_threshold := default_missed_heartbeat_threshold;
       childrenBeatMissedMap := ∅;
       heartbeat_ticker := None;
       failure_handler_calls := [];
       finch_closed := false;
       resp_waiter_chs := [];
       parent_supervisor := parent_supervisor |} in
  let p := fresh (dom store) in
  let store := <[p := supervisor]> store in
  match parent_supervisor with
  | Some parent =>
      match AddChild store parent id (SupervisorChild p) with
      | Panic msg => Panic msg
      | Done (_, store) => Done (p, store)
      end
  | None => Done (p, store)
  end.

(** A non-blocking send of [true] on every waiter channel. *)
Definition notifyWaitersToFinish (s : GenericSupervisor) : GenericSupervisor :=
  with_resp_waiter_chs s
    ((λ ctrl_ch, match ctrl_ch with
                 | None => Some true
                 | Some b => Some b
                 end) <$> resp_waiter_chs s).

Section Settings.

(** [utils.ValidateSettings] applied to [supervisor_setting_defs]; it is
    declared in package [utils], outside the sources at hand. *)
Context (ValidateSettings : gmap string any -> option error).

(** A setting is read with a type assertion to [time.Duration], which panics
    on any other dynamic type.  Only the interval and the timeout are read. *)
Definition Init (s : GenericSupervisor) (settings : gmap string any)
  : outcome (option error * GenericSupervisor) :=
  (* initialize settings *)
  match ValidateSettings settings with
  | Some err => Done (Some err, s)
  | None =>
      let interval : outcome GenericSupervisor :=
        match settings !! HEARTBEAT_INTERVAL with
        | Some (ADuration val) => Done (with_heartbeat_interval s val)
        | Some _ => Panic "interface conversion: interface {} is not time.Duration"
        | None => Done s
        end in
      match interval with
      | Panic msg => Panic msg
      | Done s =>
          match settings !! HEARTBEAT_TIMEOUT with
          | Some (ADuration val) => Done (None, with_heartbeat_timeout s val)
          | Some _ => Panic "interface conversion: interface {} is not time.Duration"
          | None => Done (None, s)
          end
      end
  end.

(** [time.NewTicker] panics on a non-positive interval.  The goroutine
    [supervising] it spawns is the sequence of rounds of [tick] below. *)
Definition Start (store : Store) (supervisor : sup_loc) (settings : gmap string any)
  : outcome (option error * Store) :=
  match store !! supervisor with
  | None => nil_dereference
  | Some s =>
      match Init s settings with
      | Panic msg => Panic msg
      | Done (Some err, s) => Done (Some err, <[supervisor := s]> store)
      | Done (None, s) =>
          (* start heartbeat ticker *)
          if decide (heartbeat_interval s ≤ 0)%Z then
            Panic "non-positive interval for NewTicker"
          else
            Done (None, <[supervisor := with_heartbeat_ticker s (Some true)]> store)
      end
  end.

End Settings.

(** [Stop_server_err] is what [Stop_server] of the embedded server returns. *)
Definition Stop (store : Store) (supervisor : sup_loc) (Stop_server_err : option error)
  : outcome (option error * Store) :=
  match store !! supervisor with
  | None => nil_dereference
  | Some s =>
      (* make waiting for response routines finish to avoid receiving spurious
         timeout errors *)
      let s := notifyWaitersToFinish s in
      (* stop gen_server *)
      let err := Stop_server_err in
      (* stop supervising routine *)
      if finch_closed s then Panic "close of closed channel"
      else
        let s := with_finch_closed s true in
        match heartbeat_ticker s with
        | None => nil_dereference
        | Some _ =>
            let s := with_heartbeat_ticker s (Some false) in
            let store := <[supervisor := s]> store in
            match RemoveChild store (parent_supervisor s) (id s) with
            | Panic msg => Panic msg
            | Done (_, store) => Done (err, store)
            end
        end
  end.

Definition ReportFailure (s : GenericSupervisor) (errors : gmap string error)
  : GenericSupervisor :=
  (* report the failure to decision maker *)
  let s :=
    match heartbeat_ticker s with
    | Some _ => with_heartbeat_ticker s (Some false)
    | None => s
    end in
  let s := notifyWaitersToFinish s in
  with_failure_handler_calls s (failure_handler_calls s ++ [errors]).

(** One iteration of the loop of [processReport]: the accumulator is the
    missed-beat map and the map of broken children. *)
Definition processReport_step (threshold : Z) (childId : string)
    (status : heartbeatRespStatus) (acc : gmap string Z * gmap string error)
  : gmap string Z * gmap string error :=
  let '(missedMap, brokenChildren) := acc in
  if decide (status = respondedNotOk ∨ status = notYetResponded) then
    (* missedCount would be zero when child is not yet in the map, which would be
       the correct value *)
    let missedCount := default 0%Z (missedMap !! childId) in
    let missedCount := uint16_incr missedCount in
    let missedMap := <[childId := missedCount]> missedMap in
    if decide (missedCount > threshold)%Z then
      (* report the child as broken if it exceeded the beat_missed_threshold *)
      (missedMap, <[childId := ErrorString "Not responding"]> brokenChildren)
    else (missedMap, brokenChildren)
  else
    (* reset missed count to 0 when child responds *)
    (<[childId := 0%Z]> missedMap, brokenChildren).

Definition processReport (s : GenericSupervisor)
    (heartbeat_report : gmap string heartbeatRespStatus) : GenericSupervisor :=
  let '(missedMap, brokenChildren) :=
    map_fold (processReport_step (missed_heartbeat_threshold s))
      (childrenBeatMissedMap s, ∅) heartbeat_report in
  let s := with_childrenBeatMissedMap s missedMap in
  if decide (0 < size brokenChildren) then ReportFailure s brokenChildren else s.

(** What the children do in one round: whether [HeartBeat_async] returns an
    error, and whether the reply arrives before [heartbeat_timeout]. *)
Record Round : Type := {
  HeartBeat_async_fails : string -> bool;
  responds_in_time : string -> bool;
}.

(** The report [sendHeartBeats] hands to [waitForResponse]. *)
Definition sendHeartBeats_report (s : GenericSupervisor) (r : Round)
  : gmap string heartbeatRespStatus :=
  map_imap (λ childId _,
      Some (if HeartBeat_async_fails r childId then skip else notYetResponded))
    (children s).

(** The report [waitForResponse] hands to [processReport] when it is not told
    to finish: a child counted as [notYetResponded] whose reply arrives in
    time becomes [respondedOk]. *)
Definition waitForResponse_report (r : Round)
    (heartbeat_report : gmap string heartbeatRespStatus)
  : gmap string heartbeatRespStatus :=
  map_imap (λ childId status,
      Some (if decide (status = notYetResponded) then
              if responds_in_time r childId then respondedOk else status
            else status))
    heartbeat_report.

(** One heartbeat round, started by a tick of the ticker: nothing happens once
    the ticker is stopped or [finch] is closed, and a supervisor without
    children sends nothing.  A new waiter channel is appended per round. *)
Definition tick (s : GenericSupervisor) (r : Round) : GenericSupervisor :=
  if finch_closed s then s
  else match heartbeat_ticker s with
       | Some true =>
           if decide (0 < size (children s)) then
             let heartbeat_report := sendHeartBeats_report s r in
             let s := with_resp_waiter_chs s (resp_waiter_chs s ++ [None]) in
             processReport s (waitForResponse_report r heartbeat_report)
           else s
       | _ => s
       end.

Definition ticks (s : GenericSupervisor) (rs : list Round) : GenericSupervisor :=
  foldl tick s rs.

(** The child [c] accepts the heartbeat request of the round and does not
    answer before the timeout. *)
Definition never_responds (c : string) (r : Round) : Prop :=
  HeartBeat_async_fails r c = false ∧ responds_in_time r c = false.

(** The supervisor runs, watches the single child [c], which has missed [j]
    beats in a row without exceeding the threshold, and has reported no
    failure. *)
Definition watching (c : string) (j : nat) (s : GenericSupervisor) : Prop :=
  (∃ ch, children s = {[c := ch]}) ∧
  finch_closed s = false ∧
  heartbeat_ticker s = Some true ∧
  default 0%Z (childrenBeatMissedMap s !! c) = Z.of_nat j ∧
  (Z.of_nat j ≤ missed_heartbeat_threshold s)%Z ∧
  failure_handler_calls s = [].

(** A heartbeat counts as missed for these two statuses only. *)
Definition missed (status : heartbeatRespStatus) : bool :=
  bool_decide (status = respondedNotOk ∨ status = notYetResponded).

(** The status of a child at the end of a round. *)
Definition round_status (r : Round) (childId : string) : heartbeatRespStatus :=
  if HeartBeat_async_fails r childId then skip
  else if responds_in_time r childId then respondedOk else notYetResponded.

(** The child causes no missed beat in the round: its heartbeat could not be
    sent, or its reply came in time. *)
Definition not_missing (r : Round) (childId : string) : Prop :=
  HeartBeat_async_fails r childId = true ∨ responds_in_time r childId = true.

End supervisor.

(** ** Concrete collaborators and states

    The instances at which the general statements are exercised. *)
Module fixtures.
Import metadata_svc.

(** Modelled from the spec: the store of section 4.1 as a map from key to
    value and revision, with insert-if-absent and compare-and-swap on the
    revision; the catalog is a prefix of the key and plays no part. *)
Definition kv_store : MetadataSvc (gmap string (list byte * nat)) :=
  {| Get := λ m key,
       match m !! key with
       | Some (value, rev) => (value, Some rev, None)
       | None => ([], None, Some MetadataNotFoundErr)
       end;
     AddWithCatalog := λ m _ key value,
       match m !! key with
       | Some _ => (m, Some (ErrorString "already-exists"))
       | None => (<[key := (value, 1)]> m, None)
       end;
     Set_ := λ m key value rev,
       match m !! key with
       | Some (_, r) =>
           if decide (rev = Some r) then (<[key := (value, S r)]> m, None)
           else (m, Some (ErrorString "revision-mismatch"))
       | None => (m, Some MetadataNotFoundErr)
       end;
     DelWithCatalog := λ m _ key rev,
       match m !! key with
       | Some (_, r) =>
           if decide (rev = Some r) then (delete key m, None)
           else (m, Some (ErrorString "revision-mismatch"))
       | None => (m, Some MetadataNotFoundErr)
       end |}.

(** The same store behind a connection that is lost after a write: writes go
    through, reads fail. *)
Definition kv_store_unreadable : MetadataSvc (gmap string (list byte * nat)) :=
  {| Get := λ _ _, ([], None, Some (ErrorString "storage-error"));
     AddWithCatalog := AddWithCatalog kv_store;
     Set_ := Set_ kv_store;
     DelWithCatalog := DelWithCatalog kv_store |}.

(** The spec of scenario 1: source "A", target cluster U, target "B". *)
Definition spec_A_U_B : ReplicationSpecification :=
  {| Id := ReplicationId "A" "U" "B";
     SourceBucketName := "A"; SourceBucketUUID := "X";
     TargetClusterUUID := "U";
     TargetBucketName := "B"; TargetBucketUUID := "Y";
     Settings := ∅; Revision_ := Some 1 |}.

Definition ref_r : RemoteClusterReference :=
  {| Uuid := "U"; Name := "r";
     MyConnectionStr := ("remote:8091", None);
     MyCredentials := ("Administrator", "password", None) |}.

(** A healthy world: both buckets live under the captured UUIDs, the remote
    cluster is known and compatible. *)
Definition env_ok : Env :=
  {| xdcr_comp_topology_svc_MyConnectionStr := ("local:8091", None);
     xdcr_comp_topology_svc_MyClusterUuid := ("L", None);
     utils_LocalBucketUUID := λ _ _, ("X", None);
     utils_RemoteBucketUUID := λ _ _ _ _, ("Y", None);
     remote_cluster_svc_RemoteClusterByRefName := λ _ _, (Some ref_r, None);
     remote_cluster_svc_RemoteClusterByUuid := λ _ _, (Some ref_r, None);
     remote_cluster_svc_GetRemoteClusterNameFromClusterUuid := λ _, "r";
     cluster_info_svc_IsClusterCompatible := λ _ _, (true, None);
     json_Marshal := λ _, ([], None);
     json_Unmarshal := λ _, (spec_A_U_B, None);
     GetKeyFromPath := λ path, path |}.

Definition with_LocalBucketUUID (env : Env) (f : string -> string -> string * option error)
  : Env :=
  {| xdcr_comp_topology_svc_MyConnectionStr := xdcr_comp_topology_svc_MyConnectionStr env;
     xdcr_comp_topology_svc_MyClusterUuid := xdcr_comp_topology_svc_MyClusterUuid env;
     utils_LocalBucketUUID := f;
     utils_RemoteBucketUUID := utils_RemoteBucketUUID env;
     remote_cluster_svc_RemoteClusterByRefName := remote_cluster_svc_RemoteClusterByRefName env;
     remote_cluster_svc_RemoteClusterByUuid := remote_cluster_svc_RemoteClusterByUuid env;
     remote_cluster_svc_GetRemoteClusterNameFromClusterUuid :=
       remote_cluster_svc_GetRemoteClusterNameFromClusterUuid env;
     cluster_info_svc_IsClusterCompatible := cluster_info_svc_IsClusterCompatible env;
     json_Marshal := json_Marshal env;
     json_Unmarshal := json_Unmarshal env;
     GetKeyFromPath := GetKeyFromPath env |}.

Definition with_RemoteBucketUUID (env : Env)
    (f : string -> string -> string -> string -> string * option error) : Env :=
  {| xdcr_comp_topology_svc_MyConnectionStr := xdcr_comp_topology_svc_MyConnectionStr env;
     xdcr_comp_topology_svc_MyClusterUuid := xdcr_comp_topology_svc_MyClusterUuid env;
     utils_LocalBucketUUID := utils_LocalBucketUUID env;
     utils_RemoteBucketUUID := f;
     remote_cluster_svc_RemoteClusterByRefName := remote_cluster_svc_RemoteClusterByRefName env;
     remote_cluster_svc_RemoteClusterByUuid := remote_cluster_svc_RemoteClusterByUuid env;
     remote_cluster_svc_GetRemoteClusterNameFromClusterUuid :=
       remote_cluster_svc_GetRemoteClusterNameFromClusterUuid env;
     cluster_info_svc_IsClusterCompatible := cluster_info_svc_IsClusterCompatible env;
     json_Marshal := json_Marshal env;
     json_Unmarshal := json_Unmarshal env;
     GetKeyFromPath := GetKeyFromPath env |}.

(** The local source bucket cannot be probed: a failure that is not
    bucket-not-found, and no UUID. *)
Definition env_local_probe_down : Env :=
  with_LocalBucketUUID env_ok (λ _ _, (EmptyString, Some (ErrorString "unreachable"))).

(** The target bucket was deleted and recreated: it lives under UUID "Z". *)
Definition env_target_recreated : Env :=
  with_RemoteBucketUUID env_ok (λ _ _ _ _, ("Z", None)).

(** ... and, on top of that, the remote cluster service cannot be reached:
    the lookup of the reference fails with an error that is not not-found. *)
Definition env_reference_lookup_down : Env :=
  {| xdcr_comp_topology_svc_MyConnectionStr :=
       xdcr_comp_topology_svc_MyConnectionStr env_target_recreated;
     xdcr_comp_topology_svc_MyClusterUuid :=
       xdcr_comp_topology_svc_MyClusterUuid env_target_recreated;
     utils_LocalBucketUUID := utils_LocalBucketUUID env_target_recreated;
     utils_RemoteBucketUUID := utils_RemoteBucketUUID env_target_recreated;
     remote_cluster_svc_RemoteClusterByRefName :=
       remote_cluster_svc_RemoteClusterByRefName env_target_recreated;
     remote_cluster_svc_RemoteClusterByUuid := λ _ _, (None, Some (ErrorString "unreachable"));
     remote_cluster_svc_GetRemoteClusterNameFromClusterUuid :=
       remote_cluster_svc_GetRemoteClusterNameFromClusterUuid env_target_recreated;
     cluster_info_svc_IsClusterCompatible :=
       cluster_info_svc_IsClusterCompatible env_target_recreated;
     json_Marshal := json_Marshal env_target_recreated;
     json_Unmarshal := json_Unmarshal env_target_recreated;
     GetKeyFromPath := GetKeyFromPath env_target_recreated |}.

(** A world in which the remote reference "r" is the local cluster itself and
    advertises a version below 2.2. *)
Definition env_loopback_old : Env :=
  {| xdcr_comp_topology_svc_MyConnectionStr := ("local:8091", None);
     xdcr_comp_topology_svc_MyClusterUuid := ("U", None);
     utils_LocalBucketUUID := λ _ _, ("X", None);
     utils_RemoteBucketUUID := λ _ _ _ _, ("X", None);
     remote_cluster_svc_RemoteClusterByRefName := λ _ _, (Some ref_r, None);
     remote_cluster_svc_RemoteClusterByUuid := λ _ _, (Some ref_r, None);
     remote_cluster_svc_GetRemoteClusterNameFromClusterUuid := λ _, "r";
     cluster_info_svc_IsClusterCompatible := λ _ _, (false, None);
     json_Marshal := λ _, ([], None);
     json_Unmarshal := λ _, (spec_A_U_B, None);
     GetKeyFromPath := λ path, path |}.

(** A service that has cached nothing yet, over an empty store. *)
Definition svc_empty : ReplicationSpecService (gmap string (list byte * nat)) :=
  {| metadata_store := ∅; uilog_svc := Some []; cache := Some ∅; heap := ∅ |}.

(** The state of scenario 1 after [AddReplicationSpec]: the spec is persisted
    under its catalog key with revision 1 and cached under its id, with no
    derived object. *)
Definition svc_added : ReplicationSpecService (gmap string (list byte * nat)) :=
  match AddReplicationSpec env_ok kv_store svc_empty (with_Revision spec_A_U_B None) with
  | Done (_, service) => service
  | Panic _ => svc_empty
  end.

(** The state of scenario 2 after the delete has reached the cache through
    the change notification: a pipeline handle is attached to the spec, then
    the catalog key is deleted and the callback runs with a nil value. *)
Definition svc_soft_removed : ReplicationSpecService (gmap string (list byte * nat)) :=
  match SetDerivedObj svc_added (Id spec_A_U_B) (Some 7) with
  | Done (_, service) =>
      let m := (DelWithCatalog kv_store (metadata_store service) ReplicationSpecsCatalogKey
                  (getKeyFromReplicationId (Id spec_A_U_B)) (Some 1)).1 in
      match ReplicationSpecServiceCallback env_ok (with_store service m)
              (getKeyFromReplicationId (Id spec_A_U_B)) None None with
      | Done (_, _, _, _, service) => service
      | Panic _ => svc_empty
      end
  | Panic _ => svc_empty
  end.

(** Scenario 1 after [DelReplicationSpec]. *)
Definition svc_deleted : ReplicationSpecService (gmap string (list byte * nat)) :=
  match DelReplicationSpec env_ok kv_store svc_added (Id spec_A_U_B) with
  | Done (_, _, service) => service
  | Panic _ => svc_empty
  end.

(** ... followed by [SetDerivedObj] with a nil object. *)
Definition svc_deleted_detached : ReplicationSpecService (gmap string (list byte * nat)) :=
  match SetDerivedObj svc_deleted (Id spec_A_U_B) None with
  | Done (_, service) => service
  | Panic _ => svc_empty
  end.

(** The state of scenario 1 after the deletion callback instead. *)
Definition svc_callback_deleted : ReplicationSpecService (gmap string (list byte * nat)) :=
  match ReplicationSpecServiceCallback env_ok svc_added
          (getKeyFromReplicationId (Id spec_A_U_B)) None None with
  | Done (_, _, _, _, service) => service
  | Panic _ => svc_empty
  end.

(** No validation of the supervisor settings rejects anything. *)
Definition ValidateSettings_ok (settings : gmap string any) : option error := None.

(** A supervisor without a parent that watches one pipeline, as
    [NewGenericSupervisor] and [AddChild] build it. *)
Definition store_one_child : supervisor.Store :=
  match supervisor.NewGenericSupervisor ∅ "PipelineMasterSupervisor" None with
  | Done (p, store) =>
      match supervisor.AddChild store p "pipeline" supervisor.ExternalChild with
      | Done (_, store) => store
      | Panic _ => ∅
      end
  | Panic _ => ∅
  end.

Definition threshold_setting (k : Z) : gmap string any :=
  {[ supervisor.MISSED_HEARTBEAT_THRESHOLD := AUint16 k ]}.

(** The same supervisor after [Start] with the given settings. *)
Definition store_started (settings : gmap string any) : supervisor.Store :=
  match supervisor.Start ValidateSettings_ok store_one_child 1%positive settings with
  | Done (_, store) => store
  | Panic _ => ∅
  end.

(** A round in which no child answers. *)
Definition silent_round : supervisor.Round :=
  {| supervisor.HeartBeat_async_fails := λ _, false;
     supervisor.responds_in_time := λ _, false |}.

(** A parent supervisor at location 1 and its child supervisor at location
    2, both started. *)
Definition store_parent_child : supervisor.Store :=
  match supervisor.NewGenericSupervisor ∅ "PipelineMasterSupervisor" None with
  | Done (parent, store) =>
      match supervisor.NewGenericSupervisor store "PipelineSupervisor_1" (Some parent) with
      | Done (child, store) =>
          match supervisor.Start ValidateSettings_ok store parent ∅ with
          | Done (_, store) =>
              match supervisor.Start ValidateSettings_ok store child ∅ with
              | Done (_, store) => store
              | Panic _ => ∅
              end
          | Panic _ => ∅
          end
      | Panic _ => ∅
      end
  | Panic _ => ∅
  end.

(** The catalog of scenario 1 as [GetAllMetadataFromCatalog] enumerates it. *)
Definition entry_A_U_B : MetadataEntry :=
  {| Key := getKeyFromReplicationId (Id spec_A_U_B); Value := Some []; Rev := Some 1 |}.

Definition catalog_one (m : gmap string (list byte * nat)) (catalog : string)
  : list MetadataEntry * option error := ([entry_A_U_B], None).

(** An enumeration whose first entry carries a nil value. *)
Definition entry_nil : MetadataEntry :=
  {| Key := getKeyFromReplicationId "C_U_D"; Value := None; Rev := Some 4 |}.

Definition catalog_nil_first (m : gmap string (list byte * nat)) (catalog : string)
  : list MetadataEntry * option error := ([entry_nil; entry_A_U_B], None).

(** Scenario 1 after the notification of the creation of a second spec,
    under the id "C_U_D". *)
Definition svc_notified : ReplicationSpecService (gmap string (list byte * nat)) :=
  match ReplicationSpecServiceCallback env_ok svc_added
          (getKeyFromReplicationId "C_U_D") (Some []) (Some 1) with
  | Done (_, _, _, _, service) => service
  | Panic _ => svc_empty
  end.

(** The service constructed over that enumeration. *)
Definition svc_no_cache : ReplicationSpecService (gmap string (list byte * nat)) :=
  match NewReplicationSpecService env_ok catalog_nil_first (Some []) ∅ with
  | Done (Some service, _) => service
  | _ => svc_empty
  end.

(** Scenario 1 when another writer has moved the catalog entry to revision 2
    in the meantime: the cached revision 1 is stale. *)
Definition svc_stale : ReplicationSpecService (gmap string (list byte * nat)) :=
  with_store svc_added {[ getKeyFromReplicationId (Id spec_A_U_B) := ([], 2) ]}.

(** A lone parent supervisor at location 1. *)
Definition store_parent : supervisor.Store :=
  match supervisor.NewGenericSupervisor ∅ "PipelineMasterSupervisor" None with
  | Done (_, store) => store
  | Panic _ => ∅
  end.

(** ... which is this record. *)
Definition sup_parent : supervisor.GenericSupervisor :=
  {| supervisor.id := "PipelineMasterSupervisor"; supervisor.children := ∅;
     supervisor.heartbeat_timeout := supervisor.default_heartbeat_timeout;
     supervisor.heartbeat_interval := supervisor.default_heartbeat_interval;
     supervisor.missed_heartbeat_threshold := supervisor.default_missed_heartbeat_threshold;
     supervisor.childrenBeatMissedMap := ∅; supervisor.heartbeat_ticker := None;
     supervisor.failure_handler_calls := []; supervisor.finch_closed := false;
     supervisor.resp_waiter_chs := []; supervisor.parent_supervisor := None |}.

(** ... the store after a child supervisor has been constructed under it, at
    location 2, and the store after that child has been started. *)
Definition store_child_new : supervisor.Store :=
  match supervisor.NewGenericSupervisor store_parent "PipelineSupervisor_1"
          (Some 1%positive) with
  | Done (_, store) => store
  | Panic _ => ∅
  end.

Definition store_child_started : supervisor.Store :=
  match supervisor.Start ValidateSettings_ok store_child_new 2%positive ∅ with
  | Done (_, store) => store
  | Panic _ => ∅
  end.

(** ... and after the child has been stopped. *)
Definition store_child_stopped : supervisor.Store :=
  match supervisor.Stop store_child_started 2%positive None with
  | Done (_, store) => store
  | Panic _ => ∅
  end.

(** A round in which every child answers in time. *)
Definition healthy_round : supervisor.Round :=
  {| supervisor.HeartBeat_async_fails := λ _, false;
     supervisor.responds_in_time := λ _, true |}.

(** The supervisor of [store_one_child], started with default settings. *)
Definition sup_started : supervisor.GenericSupervisor :=
  match store_started ∅ !! 1%positive with
  | Some s => s
  | None =>
      {| supervisor.id := EmptyString; supervisor.children := ∅;
         supervisor.heartbeat_timeout := 0; supervisor.heartbeat_interval := 0;
         supervisor.missed_heartbeat_threshold := 0;
         supervisor.childrenBeatMissedMap := ∅; supervisor.heartbeat_ticker := None;
         supervisor.failure_handler_calls := []; supervisor.finch_closed := false;
         supervisor.resp_waiter_chs := []; supervisor.parent_supervisor := None |}
  end.

End fixtures.

(** * Properties of the replication-spec service *)

Import metadata_svc.

Definition xmem_check_applies (settings : gmap string any) : Prop :=
  settings !! ReplicationType = None ∨
  settings !! ReplicationType = Some (AString ReplicationTypeXmem).

(** What the error map [m] and the returned reference [r] of a validation
    tell, check by check. *)
Definition validation_report (env : Env) {M : Type} (service : ReplicationSpecService M)
    (src tcl tgt : string) (settings : gmap string any)
    (r : option RemoteClusterReference) (m : gmap string error) : Prop :=
  let connStr := (xdcr_comp_topology_svc_MyConnectionStr env).1 in
  let lookup := remote_cluster_svc_RemoteClusterByRefName env tcl false in
  (is_Some (m !! base.FromBucket) ↔
     (utils_LocalBucketUUID env connStr src).2 = Some NonExistentBucketError) ∧
  match r with
  | Some ref =>
      lookup = (Some ref, None) ∧
      (is_Some (m !! base.ToBucket) ↔
         (utils_RemoteBucketUUID env (MyConnectionStr ref).1 (MyCredentials ref).1.1
            (MyCredentials ref).1.2 tgt).2 = Some NonExistentBucketError) ∧
      (is_Some (m !! base.PlaceHolderFieldKey) ↔
         ∃ s, ReplicationSpec service (ReplicationId src (Uuid ref) tgt) = Done (s, None)) ∧
      (is_Some (m !! base.ToCluster) ↔
         xmem_check_applies settings ∧
         ((cluster_info_svc_IsClusterCompatible env ref [2; 2]%Z).2 ≠ None ∨
          (cluster_info_svc_IsClusterCompatible env ref [2; 2]%Z).1 = false))
  | None =>
      m !! base.ToBucket = None ∧
      ((∃ e, lookup.2 = Some e ∧
             m !! base.ToCluster = Some (EnhancedError "cannot find remote cluster" e) ∧
             m !! base.PlaceHolderFieldKey = None)
       ∨ (∃ ref, lookup = (Some ref, None) ∧ src = tgt ∧
                 (xdcr_comp_topology_svc_MyClusterUuid env).1 = Uuid ref ∧
                 m !! base.PlaceHolderFieldKey =
                   Some (ErrorString
                           "Replication from a bucket to the same bucket is not allowed") ∧
                 m !! base.ToCluster = None)
       ∨ (∃ ref e, lookup = (Some ref, None) ∧ (MyConnectionStr ref).2 = Some e ∧
                   m !! base.ToCluster =
                     Some (EnhancedError
                             "invalid remote cluster, MyConnectionStr() failed." e) ∧
                   m !! base.PlaceHolderFieldKey = None)
       ∨ (∃ ref e, lookup = (Some ref, None) ∧ (MyCredentials ref).2 = Some e ∧
                   m !! base.ToCluster =
                     Some (EnhancedError
                             "invalid remote cluster, MyCredentials() failed." e) ∧
                   m !! base.PlaceHolderFieldKey = None))
  end.

(** Where a validation ends, read off its inputs, in the order of the
    code: at the lookup of the reference when it fails; at the same-bucket
    test when source and target are the same bucket of the same cluster; at
    the connection string or at the credentials of the reference when they
    fail; at its end otherwise.  An early end returns no reference, empty
    UUIDs and, next to the source-bucket error, only the error that ended
    it; a validation that runs to its end returns the reference and the two
    probed UUIDs. *)
Definition validation_exit (env : Env) (src tcl tgt : string)
    (su tu : string) (r : option RemoteClusterReference) (m : gmap string error) : Prop :=
  let connStr := (xdcr_comp_topology_svc_MyConnectionStr env).1 in
  let lookup := remote_cluster_svc_RemoteClusterByRefName env tcl false in
  let same_bucket ref :=
    src = tgt ∧ (xdcr_comp_topology_svc_MyClusterUuid env).1 = Uuid ref in
  let ends_early key e :=
    su = EmptyString ∧ tu = EmptyString ∧ r = None ∧ m !! key = Some e ∧
    ∀ k, k ≠ key → k ≠ base.FromBucket → m !! k = None in
  (∀ e, lookup.2 = Some e →
     ends_early base.ToCluster (EnhancedError "cannot find remote cluster" e)) ∧
  (∀ ref, lookup = (Some ref, None) →
     (same_bucket ref →
        ends_early base.PlaceHolderFieldKey
          (ErrorString "Replication from a bucket to the same bucket is not allowed")) ∧
     (¬ same_bucket ref →
        (∀ e, (MyConnectionStr ref).2 = Some e →
           ends_early base.ToCluster
             (EnhancedError "invalid remote cluster, MyConnectionStr() failed." e)) ∧
        ((MyConnectionStr ref).2 = None →
           (∀ e, (MyCredentials ref).2 = Some e →
              ends_early base.ToCluster
                (EnhancedError "invalid remote cluster, MyCredentials() failed." e)) ∧
           ((MyCredentials ref).2 = None →
              r = Some ref ∧
              su = (utils_LocalBucketUUID env connStr src).1 ∧
              tu = (utils_RemoteBucketUUID env (MyConnectionStr ref).1
                      (MyCredentials ref).1.1 (MyCredentials ref).1.2 tgt).1)))).

Lemma is_Some_Some_iff {A} (x : A) (P : Prop) : P → (is_Some (Some x) ↔ P).
Proof. intros HP. split; [done|by eexists]. Qed.

Lemma is_Some_None_iff {A} (P : Prop) : ¬ P → (is_Some (@None A) ↔ P).
Proof. intros HP. split; [by intros [? [=]]|done]. Qed.

(** One side condition of an entry of the error map. *)
Ltac check_side :=
  simpl;
  first
    [ done
    | by eexists
    | by intros [? [=]]
    | by (split; [first [by left | right; congruence]
                 | first [by left | by right]])
    | by (intros [[?|?] [?|?]]; simplify_eq/=; congruence) ].

Ltac check_iff :=
  first
    [ reflexivity
    | apply is_Some_Some_iff; check_side
    | apply is_Some_None_iff; check_side ].

(** The lookups of concrete keys in the error map, by computation. *)
Ltac compute_lookups :=
  repeat match goal with
    | |- context [?m !! ?k] =>
        let v := eval vm_compute in (m !! k) in progress change (m !! k) with v
    end.

(** A return before the end of the validation. *)
Ltac early_exit :=
  repeat case_decide; compute_lookups;
  (split; [check_iff|]); (split; [done|]).

Section ServiceFacts.

Context (env : Env) {M : Type} (msvc : MetadataSvc M).
Implicit Types (service : ReplicationSpecService M) (c : MetadataCache) (h : Heap).

(** ** Reading and writing through the cache *)

Lemma getCache_Some service c :
  cache service = Some c → getCache service = (Some c, None).
Proof. unfold getCache. by intros ->. Qed.

Lemma ReplicationSpec_cached service c id p :
  cache service = Some c → c !! id = Some (VSpecVal p) →
  ReplicationSpec service id =
    match spec (deref (heap service) p) with
    | None => not_found
    | Some s => Done (Some s, None)
    end.
Proof.
  intros Hc Hid. unfold ReplicationSpec, cache_Get.
  by rewrite (getCache_Some _ _ Hc), Hid.
Qed.

Lemma GetDerviedObj_cached service c id p :
  cache service = Some c → c !! id = Some (VSpecVal p) →
  GetDerviedObj service id = Done (derivedObj (deref (heap service) p), None).
Proof.
  intros Hc Hid. unfold GetDerviedObj, cache_Get.
  by rewrite (getCache_Some _ _ Hc), Hid.
Qed.

Lemma writeUiLog_cache service sp action reason :
  cache (writeUiLog env service sp action reason) = cache service.
Proof. unfold writeUiLog. by destruct (uilog_svc service). Qed.

Lemma writeUiLog_heap service sp action reason :
  heap (writeUiLog env service sp action reason) = heap service.
Proof. unfold writeUiLog. by destruct (uilog_svc service). Qed.

Lemma writeUiLog_store service sp action reason :
  metadata_store (writeUiLog env service sp action reason) = metadata_store service.
Proof. unfold writeUiLog. by destruct (uilog_svc service). Qed.

Lemma ReplicationSpec_writeUiLog service sp action reason id :
  ReplicationSpec (writeUiLog env service sp action reason) id = ReplicationSpec service id.
Proof.
  unfold ReplicationSpec, getCache.
  by rewrite writeUiLog_cache, writeUiLog_heap.
Qed.

Lemma deref_set_spec_eq h p s :
  deref (set_spec h p s) p = {| spec := s; derivedObj := derivedObj (deref h p) |}.
Proof. unfold deref at 1, set_spec. by rewrite lookup_insert_eq. Qed.

Lemma deref_set_spec_ne h p q s : p ≠ q → deref (set_spec h p s) q = deref h q.
Proof. intros. unfold deref, set_spec. by rewrite lookup_insert_ne. Qed.

Lemma deref_set_derivedObj_eq h p d :
  deref (set_derivedObj h p d) p = {| spec := spec (deref h p); derivedObj := d |}.
Proof. unfold deref at 1, set_derivedObj. by rewrite lookup_insert_eq. Qed.

Lemma fresh_unallocated h : h !! fresh (dom h) = None.
Proof. apply not_elem_of_dom, is_fresh. Qed.

Lemma cacheSpec_cached c h id p s :
  c !! id = Some (VSpecVal p) →
  cacheSpec c h id s = Done (<[id := VSpecVal p]> c, set_spec h p s).
Proof. intros Hid. unfold cacheSpec, cache_Get, cache_Upsert. by rewrite Hid. Qed.

Lemma cacheSpec_absent c h id s :
  c !! id = None →
  cacheSpec c h id s =
    Done (<[id := VSpecVal (fresh (dom h))]> c,
          <[fresh (dom h) := {| spec := s; derivedObj := None |}]> h).
Proof. intros Hid. unfold cacheSpec, cache_Get, cache_Upsert, alloc. by rewrite Hid. Qed.

Lemma SetDerivedObj_cached service c id p d :
  cache service = Some c → c !! id = Some (VSpecVal p) →
  SetDerivedObj service id d =
    Done (None,
          with_cache service
            (match spec (deref (heap service) p), d with
             | None, None => delete id c
             | _, _ => <[id := VSpecVal p]> c
             end)
            (set_derivedObj (heap service) p d)).
Proof.
  intros Hc Hid. unfold SetDerivedObj, cache_Get, cache_Delete, cache_Upsert.
  rewrite (getCache_Some _ _ Hc), Hid, deref_set_derivedObj_eq.
  by destruct (spec (deref (heap service) p)), d.
Qed.

(** ** Catalog keys *)

Lemma substring_all s : String.substring 0 (String.length s) s = s.
Proof. induction s; simpl; congruence. Qed.

Lemma prefix_append p s : String.prefix p (String.append p s) = true.
Proof.
  induction p as [|a p IH]; simpl; [by destruct s|].
  by destruct (ascii_dec a a).
Qed.

Lemma substring_append p s :
  String.substring (String.length p)
    (String.length (String.append p s) - String.length p) (String.append p s) = s.
Proof.
  induction p as [|a p IH]; simpl; [|done].
  rewrite Nat.sub_0_r. apply substring_all.
Qed.

Lemma getReplicationIdFromKey_getKey id :
  getReplicationIdFromKey (getKeyFromReplicationId id) = Done id.
Proof.
  unfold getReplicationIdFromKey, getKeyFromReplicationId.
  change (ReplicationSpecsCatalogKey +:+ base.KeyPartsDelimiter +:+ id)
    with (String.append (ReplicationSpecsCatalogKey +:+ base.KeyPartsDelimiter) id).
  by rewrite prefix_append, substring_append.
Qed.

(** ** Delete and soft removal *)

(** C1. The claim is that a successful [delReplicationSpec(id)] returns the
    deleted spec and soft-removes it in the cache, so that the next
    [replicationSpec(id)] reports not-found.  The code returns the spec but
    looks the cache up under the catalog key of [id], not under [id]: unless
    that other slot happens to hold the very same pointer, the entry of [id]
    keeps its spec and the next [replicationSpec(id)] still returns it. *)
Theorem DelReplicationSpec_leaves_spec_cached service c id p sp m' :
  cache service = Some c →
  c !! id = Some (VSpecVal p) →
  spec (deref (heap service) p) = Some sp →
  DelWithCatalog msvc (metadata_store service) ReplicationSpecsCatalogKey
    (getKeyFromReplicationId id) (Revision_ sp) = (m', None) →
  c !! getKeyFromReplicationId id ≠ Some (VSpecVal p) →
  ∃ service',
    DelReplicationSpec env msvc service id = Done (Some sp, None, service') ∧
    metadata_store service' = m' ∧
    ReplicationSpec service' id = Done (Some sp, None).
Proof.
  intros Hc Hid Hsp Hdel Hkey.
  unfold DelReplicationSpec, delReplicationSpec_internal.
  rewrite (ReplicationSpec_cached _ _ _ _ Hc Hid), Hsp, Hdel. simpl.
  unfold getCache. simpl. rewrite Hc. unfold cache_Get.
  destruct (c !! getKeyFromReplicationId id) as [[|q|]|] eqn:Hk;
    (eexists; split; [reflexivity|]);
    (split; [by rewrite writeUiLog_store|]);
    rewrite ReplicationSpec_writeUiLog;
    (erewrite ReplicationSpec_cached; [|reflexivity|exact Hid]); simpl;
    rewrite ?deref_set_spec_ne by congruence; by rewrite Hsp.
Qed.

(** C2, as amended.  For an id cached with a pointer, [setDerivedObj(id, d)]
    leaves the cache without an entry for the id exactly when the spec field
    is absent and [d] is none; and clearing the spec field, the soft delete
    the deletion callback performs through [cacheSpec], keeps the entry and
    its derived-object field whether or not a derived object is attached. *)
Theorem soft_removed_entry_dropped_by_detach_only service c id p :
  cache service = Some c →
  c !! id = Some (VSpecVal p) →
  (∀ d, ∃ service' c',
      SetDerivedObj service id d = Done (None, service') ∧
      cache service' = Some c' ∧
      (c' !! id = None ↔ spec (deref (heap service) p) = None ∧ d = None)) ∧
  (∃ c' h',
      cacheSpec c (heap service) id None = Done (c', h') ∧
      c' !! id = Some (VSpecVal p) ∧
      spec (deref h' p) = None ∧
      derivedObj (deref h' p) = derivedObj (deref (heap service) p)).
Proof.
  intros Hc Hid. split.
  - intros d. rewrite (SetDerivedObj_cached _ _ _ _ _ Hc Hid).
    eexists _, _. split; [reflexivity|]. split; [reflexivity|].
    destruct (spec (deref (heap service) p)), d;
      rewrite ?lookup_insert_eq, ?lookup_delete_eq; split; (done || by intros []).
  - rewrite (cacheSpec_cached _ _ _ _ _ Hid).
    eexists _, _. split; [reflexivity|].
    by rewrite lookup_insert_eq, deref_set_spec_eq.
Qed.

(** C3. For a cache entry in the soft-removed state (spec absent, derived
    object present), [replicationSpec(id)] reports not-found while
    [getDerivedObj(id)] returns the attached object; and every read path
    returns a spec only from an entry whose spec field is present: the single
    lookup, the enumeration of all specs, of all ids, and of the ids of a
    source bucket. *)
Theorem soft_removed_entry_reads service c id p d :
  cache service = Some c →
  c !! id = Some (VSpecVal p) →
  deref (heap service) p = {| spec := None; derivedObj := Some d |} →
  ReplicationSpec service id = not_found ∧
  GetDerviedObj service id = Done (Some d, None) ∧
  (∀ id' s, ReplicationSpec service id' = Done (Some s, None) →
     ∃ q, c !! id' = Some (VSpecVal q) ∧ spec (deref (heap service) q) = Some s) ∧
  (∀ specs, AllReplicationSpecs service = Done (Some specs, None) →
     specs !! id = None ∧
     ∀ id' s, specs !! id' = Some s →
       ∃ q, c !! id' = Some (VSpecVal q) ∧ spec (deref (heap service) q) = Some s) ∧
  (∀ ids, AllReplicationSpecIds service = Done (Some ids, None) → id ∉ ids) ∧
  (∀ bucket ids,
     AllReplicationSpecIdsForBucket service bucket = Done (Some ids, None) → id ∉ ids).
Proof.
  intros Hc Hid Hcell.
  assert (Hall : ∀ specs, AllReplicationSpecs service = Done (Some specs, None) →
     specs !! id = None ∧
     ∀ id' s, specs !! id' = Some s →
       ∃ q, c !! id' = Some (VSpecVal q) ∧ spec (deref (heap service) q) = Some s).
  { intros specs. unfold AllReplicationSpecs, cache_GetMap.
    rewrite (getCache_Some _ _ Hc). case_bool_decide; [|done].
    intros [= <-]. split.
    - by rewrite lookup_omap, Hid; simpl; rewrite Hcell.
    - intros id' s. rewrite lookup_omap.
      destruct (c !! id') as [[|q|]|]; simpl; try done. eauto. }
  assert (Hids : ∀ ids, AllReplicationSpecIds service = Done (Some ids, None) → id ∉ ids).
  { intros ids. unfold AllReplicationSpecIds.
    destruct (AllReplicationSpecs service) as [[[specs|] [e|]]|] eqn:Hs; try done.
    - intros [= <-]. destruct (Hall _ eq_refl) as [Hnone _].
      intros [[k v] [-> Hin]]%list_elem_of_fmap. simpl in *.
      apply elem_of_map_to_list in Hin. congruence.
    - intros [= <-]. apply not_elem_of_nil. }
  split_and!; try done.
  - rewrite (ReplicationSpec_cached _ _ _ _ Hc Hid). by rewrite Hcell.
  - rewrite (GetDerviedObj_cached _ _ _ _ Hc Hid). by rewrite Hcell.
  - intros id' s. unfold ReplicationSpec, cache_Get.
    rewrite (getCache_Some _ _ Hc).
    destruct (c !! id') as [[|q|]|]; simpl; try done.
    destruct (spec (deref (heap service) q)) eqn:Hq; simpl; [|done].
    intros [= <-]. eauto.
  - intros bucket ids. unfold AllReplicationSpecIdsForBucket.
    destruct (AllReplicationSpecIds service) as [[[all|] [e|]]|] eqn:Hs; try done.
    + intros [= <-]. intros [_ Hin]%list_elem_of_filter. by apply (Hids _ eq_refl).
    + intros [= <-]. apply not_elem_of_nil.
Qed.

(** C10. For an id without a cache entry, the callback invoked with a nil
    value for the catalog key of that id changes the cache: it inserts an
    entry pointing to a newly allocated struct whose spec and derived object
    are both absent.  The struct is allocated by the call: its location held
    nothing before and holds the struct afterwards, and nothing else of the
    heap changes.  Afterwards [getDerivedObj(id)] succeeds with an absent
    object and [replicationSpec(id)] reports not-found. *)
Theorem callback_delete_of_unknown_id_inserts_entry service c id path rev :
  cache service = Some c →
  c !! id = None →
  GetKeyFromPath env path = getKeyFromReplicationId id →
  ∃ service' c' p,
    ReplicationSpecServiceCallback env service path None rev
      = Done (id, None, None, None, service') ∧
    cache service' = Some c' ∧
    c' ≠ c ∧
    c' = <[id := VSpecVal p]> c ∧
    heap service !! p = None ∧
    heap service' !! p = Some {| spec := None; derivedObj := None |} ∧
    heap service' = <[p := {| spec := None; derivedObj := None |}]> (heap service) ∧
    heap service' ≠ heap service ∧
    deref (heap service') p = {| spec := None; derivedObj := None |} ∧
    GetDerviedObj service' id = Done (None, None) ∧
    ReplicationSpec service' id = not_found.
Proof.
  intros Hc Hid Hpath. unfold ReplicationSpecServiceCallback.
  rewrite Hpath. rewrite getReplicationIdFromKey_getKey. rewrite (getCache_Some _ _ Hc).
  unfold constructReplicationSpec.
  rewrite (cacheSpec_absent _ _ _ _ Hid).
  eexists _, _, _. split; [reflexivity|]. simpl.
  assert (Hcell : deref (<[fresh (dom (heap service)) :=
                            {| spec := None; derivedObj := None |}]> (heap service))
                    (fresh (dom (heap service)))
                  = {| spec := None; derivedObj := None |}).
  { unfold deref. by rewrite lookup_insert_eq. }
  split_and!; try done.
  - intros Heq. apply (f_equal (λ m, m !! id)) in Heq.
    rewrite lookup_insert_eq, Hid in Heq. done.
  - apply fresh_unallocated.
  - apply lookup_insert_eq.
  - intros Heq. apply (f_equal (λ h, h !! fresh (dom (heap service)))) in Heq.
    rewrite lookup_insert_eq, fresh_unallocated in Heq. done.
  - erewrite GetDerviedObj_cached; [|reflexivity|apply lookup_insert_eq].
    simpl. by rewrite Hcell.
  - erewrite ReplicationSpec_cached; [|reflexivity|apply lookup_insert_eq].
    simpl. by rewrite Hcell.
Qed.

(** ** Validation of an existing spec and garbage collection *)

Lemma ValidateExisting_source_mismatch sp connStr :
  (xdcr_comp_topology_svc_MyConnectionStr env).1 = connStr →
  connStr ≠ EmptyString →
  SourceBucketUUID sp ≠ EmptyString →
  SourceBucketUUID sp ≠ (utils_LocalBucketUUID env connStr (SourceBucketName sp)).1 →
  ∃ detail,
    ValidateExistingReplicationSpec env sp
      = Done (Some InvalidReplicationSpecError, Some detail).
Proof.
  intros Hconn Hne Hs Hu. unfold ValidateExistingReplicationSpec.
  destruct (xdcr_comp_topology_svc_MyConnectionStr env) as [cs e0]. simpl in Hconn. subst cs.
  rewrite decide_False by done.
  destruct (utils_LocalBucketUUID env connStr (SourceBucketName sp)) as [su es].
  simpl in Hu. case_decide; [eauto|]. case_decide; [eauto|]. tauto.
Qed.

Lemma ValidateExisting_target_mismatch sp connStr ref :
  (xdcr_comp_topology_svc_MyConnectionStr env).1 = connStr →
  connStr ≠ EmptyString →
  TargetBucketUUID sp ≠ EmptyString →
  remote_cluster_svc_RemoteClusterByUuid env (TargetClusterUUID sp) false
    = (Some ref, None) →
  TargetBucketUUID sp ≠
    (utils_RemoteBucketUUID env (MyConnectionStr ref).1
       (MyCredentials ref).1.1 (MyCredentials ref).1.2 (TargetBucketName sp)).1 →
  ∃ detail,
    ValidateExistingReplicationSpec env sp
      = Done (Some InvalidReplicationSpecError, Some detail).
Proof.
  intros Hconn Hne Ht Hr Hu. unfold ValidateExistingReplicationSpec.
  destruct (xdcr_comp_topology_svc_MyConnectionStr env) as [cs e0]. simpl in Hconn. subst cs.
  rewrite decide_False by done.
  destruct (utils_LocalBucketUUID env connStr (SourceBucketName sp)) as [su es].
  case_decide; [eauto|]. case_decide; [eauto|].
  rewrite Hr.
  destruct (MyConnectionStr ref) as [rc [e1|]]; [eauto|].
  destruct (MyCredentials ref) as [[ru rp] [e2|]]; [eauto|].
  simpl in Hu.
  destruct (utils_RemoteBucketUUID env rc ru rp (TargetBucketName sp)) as [tu et].
  simpl in Hu.
  case_decide; [eauto|]. case_decide; [eauto|]. tauto.
Qed.

(** When the lookup of the cluster reference fails with an error other than
    not-found and the source bucket passes its checks, that error is the
    class error, with no detail: the target bucket is not looked at. *)
Lemma ValidateExisting_lookup_error sp connStr oref e :
  (xdcr_comp_topology_svc_MyConnectionStr env).1 = connStr →
  connStr ≠ EmptyString →
  (utils_LocalBucketUUID env connStr (SourceBucketName sp)).2 ≠ Some NonExistentBucketError →
  (SourceBucketUUID sp = EmptyString ∨
   SourceBucketUUID sp = (utils_LocalBucketUUID env connStr (SourceBucketName sp)).1) →
  remote_cluster_svc_RemoteClusterByUuid env (TargetClusterUUID sp) false = (oref, Some e) →
  e ≠ MetadataNotFoundErr →
  ValidateExistingReplicationSpec env sp = Done (Some e, None).
Proof.
  intros Hconn Hne Hes Hsu Hr Hnf. unfold ValidateExistingReplicationSpec.
  destruct (xdcr_comp_topology_svc_MyConnectionStr env) as [cs e0]. simpl in Hconn. subst cs.
  rewrite decide_False by done.
  destruct (utils_LocalBucketUUID env connStr (SourceBucketName sp)) as [su es].
  simpl in Hes, Hsu.
  rewrite decide_False by done.
  rewrite decide_False by (intros [? ?]; destruct Hsu; congruence).
  rewrite Hr. by destruct e.
Qed.

(** C6, as amended.  A spec whose captured source bucket UUID is non-empty
    and differs from the UUID the local probe returns for the bucket of that
    name is classified with the invalid-spec sentinel, and so is a spec whose
    captured target bucket UUID is non-empty and differs from the UUID the
    remote probe returns for it through the spec's cluster reference,
    provided the lookup of that reference succeeds; this holds whatever else
    the probes report, in particular when the probe finds a bucket of that
    name.  When the lookup of the reference fails with an error other than
    not-found and the source bucket passes its checks, the class error is
    the error of the lookup instead, whatever the target bucket UUID is. *)
Theorem ValidateExisting_uuid_mismatch_is_invalid sp connStr :
  (xdcr_comp_topology_svc_MyConnectionStr env).1 = connStr →
  connStr ≠ EmptyString →
  ((SourceBucketUUID sp ≠ EmptyString ∧
    SourceBucketUUID sp ≠ (utils_LocalBucketUUID env connStr (SourceBucketName sp)).1)
   ∨ (TargetBucketUUID sp ≠ EmptyString ∧
      ∃ ref, remote_cluster_svc_RemoteClusterByUuid env (TargetClusterUUID sp) false
               = (Some ref, None) ∧
             TargetBucketUUID sp ≠
               (utils_RemoteBucketUUID env (MyConnectionStr ref).1
                  (MyCredentials ref).1.1 (MyCredentials ref).1.2
                  (TargetBucketName sp)).1) →
   ∃ detail,
     ValidateExistingReplicationSpec env sp
       = Done (Some InvalidReplicationSpecError, Some detail)) ∧
  (∀ oref e,
     remote_cluster_svc_RemoteClusterByUuid env (TargetClusterUUID sp) false
       = (oref, Some e) →
     e ≠ MetadataNotFoundErr →
     (utils_LocalBucketUUID env connStr (SourceBucketName sp)).2
       ≠ Some NonExistentBucketError →
     (SourceBucketUUID sp = EmptyString ∨
      SourceBucketUUID sp = (utils_LocalBucketUUID env connStr (SourceBucketName sp)).1) →
     ValidateExistingReplicationSpec env sp = Done (Some e, None)).
Proof.
  intros Hconn Hne. split.
  - intros [[Hs Hu]|(Ht & ref & Hr & Hu)].
    + by apply (ValidateExisting_source_mismatch sp connStr).
    + by apply (ValidateExisting_target_mismatch sp connStr ref).
  - intros oref e Hr Hnf Hes Hsu.
    by apply (ValidateExisting_lookup_error sp connStr oref e).
Qed.

(** [ValidateAndGC] touches nothing unless the class error is the sentinel. *)
Lemma ValidateAndGC_not_invalid service sp e d :
  ValidateExistingReplicationSpec env sp = Done (e, d) →
  e ≠ Some InvalidReplicationSpecError →
  ValidateAndGC env msvc service sp = Done service.
Proof. intros Hv He. unfold ValidateAndGC. rewrite Hv. by rewrite decide_False. Qed.

(** C4. The claim is that a transient failure of a probe never deletes the
    spec.  In the code a failure of the local bucket probe other than
    bucket-not-found is not looked at: the UUID returned along with it is
    compared with the captured one, so a spec with a captured source UUID is
    classified invalid-spec and [ValidateAndGC] issues the catalog delete
    for a cached spec. *)
Theorem ValidateAndGC_deletes_on_source_probe_failure service sp c p cached connStr u e :
  (xdcr_comp_topology_svc_MyConnectionStr env).1 = connStr →
  connStr ≠ EmptyString →
  utils_LocalBucketUUID env connStr (SourceBucketName sp) = (u, Some e) →
  e ≠ NonExistentBucketError →
  SourceBucketUUID sp ≠ EmptyString →
  SourceBucketUUID sp ≠ u →
  cache service = Some c →
  c !! Id sp = Some (VSpecVal p) →
  spec (deref (heap service) p) = Some cached →
  (∃ detail,
     ValidateExistingReplicationSpec env sp
       = Done (Some InvalidReplicationSpecError, Some detail)) ∧
  ∃ service',
    ValidateAndGC env msvc service sp = Done service' ∧
    metadata_store service' =
      (DelWithCatalog msvc (metadata_store service) ReplicationSpecsCatalogKey
         (getKeyFromReplicationId (Id sp)) (Revision_ cached)).1.
Proof.
  intros Hconn Hne Hl He Hs Hu Hc Hid Hcell.
  assert (Hv : ∃ detail, ValidateExistingReplicationSpec env sp
                 = Done (Some InvalidReplicationSpecError, Some detail)).
  { apply (ValidateExisting_source_mismatch sp connStr Hconn Hne Hs). by rewrite Hl. }
  split; [done|]. destruct Hv as [detail Hv].
  unfold ValidateAndGC. rewrite Hv, decide_True by done.
  unfold delReplicationSpec_internal.
  rewrite (ReplicationSpec_cached _ _ _ _ Hc Hid), Hcell.
  destruct (DelWithCatalog _ _ _ _ _) as [m' [e'|]]; simpl; [eauto|].
  unfold getCache; simpl. rewrite Hc.
  destruct (cache_Get c _) as [v ok].
  eexists. split; [reflexivity|]. by rewrite writeUiLog_store.
Qed.

(** ** Update *)

(** C7. The claim is that [setReplicationSpec] fails, without caching the
    spec, when the re-read after the catalog write fails.  In the code the
    error of the re-read is overwritten before it is looked at: the call
    succeeds and the spec is cached with whatever revision the failed read
    returned. *)
Theorem SetReplicationSpec_ignores_reread_error service sp c value m' v rev e :
  json_Marshal env sp = (value, None) →
  Set_ msvc (metadata_store service) (getKeyFromReplicationId (Id sp)) value (Revision_ sp)
    = (m', None) →
  Get msvc m' (getKeyFromReplicationId (Id sp)) = (v, rev, Some e) →
  cache service = Some c →
  c !! Id sp ≠ Some VOther →
  ∃ service',
    SetReplicationSpec env msvc service sp = Done (None, service') ∧
    ReplicationSpec service' (Id sp) = Done (Some (with_Revision sp rev), None).
Proof.
  intros Hj Hset Hget Hc Hother. unfold SetReplicationSpec.
  rewrite Hj, Hset. simpl. rewrite Hget.
  unfold getCache; simpl. rewrite Hc.
  destruct (c !! Id sp) as [[|q|]|] eqn:Hid; [| |done|].
  - unfold cacheSpec, cache_Get, cache_Upsert, alloc. rewrite Hid.
    eexists. split; [reflexivity|].
    erewrite ReplicationSpec_cached; [|reflexivity|apply lookup_insert_eq].
    simpl. unfold deref. by rewrite lookup_insert_eq.
  - rewrite (cacheSpec_cached _ _ _ _ _ Hid).
    eexists. split; [reflexivity|].
    erewrite ReplicationSpec_cached; [|reflexivity|apply lookup_insert_eq].
    simpl. by rewrite deref_set_spec_eq.
  - rewrite (cacheSpec_absent _ _ _ _ Hid).
    eexists. split; [reflexivity|].
    erewrite ReplicationSpec_cached; [|reflexivity|apply lookup_insert_eq].
    simpl. unfold deref. by rewrite lookup_insert_eq.
Qed.

(** The sibling [AddReplicationSpec] does check the re-read: it fails and
    caches nothing. *)
Lemma AddReplicationSpec_checks_reread_error service sp value m' v rev e :
  json_Marshal env sp = (value, None) →
  AddWithCatalog msvc (metadata_store service) ReplicationSpecsCatalogKey
    (getKeyFromReplicationId (Id sp)) value = (m', None) →
  Get msvc m' (getKeyFromReplicationId (Id sp)) = (v, rev, Some e) →
  ∃ err, AddReplicationSpec env msvc service sp = Done (Some err, with_store service m').
Proof.
  intros Hj Hadd Hget. unfold AddReplicationSpec.
  rewrite Hj, Hadd. simpl. rewrite Hget. eauto.
Qed.

(** ** Validation of a new spec *)

Lemma ValidateNewReplicationSpec_report service src tcl tgt settings :
  match ValidateNewReplicationSpec env service src tcl tgt settings with
  | Done (_, _, r, m) => validation_report env service src tcl tgt settings r m
  | Panic _ => True
  end.
Proof.
  unfold ValidateNewReplicationSpec, validation_report, xmem_check_applies.
  unfold base.FromBucket, base.ToCluster, base.ToBucket, base.PlaceHolderFieldKey.
  destruct (xdcr_comp_topology_svc_MyConnectionStr env) as [cs e0]; simpl.
  case_decide; [done|].
  destruct (utils_LocalBucketUUID env cs src) as [lu es]; simpl.
  destruct (remote_cluster_svc_RemoteClusterByRefName env tcl false) as [oref [e1|]]; simpl.
  { early_exit; left; by eexists. }
  destruct (xdcr_comp_topology_svc_MyClusterUuid env) as [lcu e2]; simpl.
  destruct (decide (src = tgt)) as [Hsame|Hdiff];
    [destruct e2 as [e2|]; [done|]; destruct oref as [ref|]; [|done];
     case_bool_decide; [early_exit; right; left; by eexists|]
    |destruct oref as [ref|]; [|done]].
  all: destruct (MyConnectionStr ref) as [rc [e3|]] eqn:Hcs; simpl;
    [early_exit; right; right; left; do 2 eexists;
     (split; [reflexivity|]); (split; [by rewrite Hcs|]); by split|].
  all: destruct (MyCredentials ref) as [[ru rp] [e4|]] eqn:Hcr; simpl;
    [early_exit; right; right; right; do 2 eexists;
     (split; [reflexivity|]); (split; [by rewrite Hcr|]); by split|].
  all: destruct (utils_RemoteBucketUUID env rc ru rp tgt) as [tu' et] eqn:Hrb; simpl.
  all: destruct (ReplicationSpec service _) as [[s0 err]|] eqn:Hrs; [|done].
  all: destruct (settings !! ReplicationType) as [rt|] eqn:Hst; [case_bool_decide|]; simpl.
  all: destruct (cluster_info_svc_IsClusterCompatible env ref [2; 2]%Z) as [b [e5|]] eqn:Hcc;
    try destruct b; simpl; destruct err; repeat case_decide; subst;
    rewrite ?Hcs, ?Hcr; simpl; rewrite ?Hrb, ?Hrs, ?Hcc, ?Hst; simpl;
    compute_lookups.
  all: by repeat (split; [check_iff|]); check_iff.
Qed.

(** An early return with the one error [e] under [key] next to the possible
    source-bucket error. *)
Lemma early_return_map (key : string) (e : error) (P : Prop) `{Decision P} (e0 : error) :
  key ≠ base.FromBucket →
  let m : gmap string error :=
    <[key := e]> (if decide P then <[base.FromBucket := e0]> ∅ else ∅) in
  m !! key = Some e ∧ ∀ k, k ≠ key → k ≠ base.FromBucket → m !! k = None.
Proof.
  intros Hkey. simpl. split; [apply lookup_insert_eq|].
  intros k Hk Hfrom. rewrite lookup_insert_ne by done.
  case_decide; [by rewrite lookup_insert_ne|done].
Qed.

(** The shape of every early return. *)
Ltac ends_early :=
  split_and!; try done; by apply early_return_map.

Lemma ValidateNewReplicationSpec_exits service src tcl tgt settings :
  match ValidateNewReplicationSpec env service src tcl tgt settings with
  | Done (su, tu, r, m) => validation_exit env src tcl tgt su tu r m
  | Panic _ => True
  end.
Proof.
  unfold ValidateNewReplicationSpec, validation_exit.
  destruct (xdcr_comp_topology_svc_MyConnectionStr env) as [cs e0]; simpl.
  case_decide; [done|].
  destruct (utils_LocalBucketUUID env cs src) as [lu es]; simpl.
  destruct (remote_cluster_svc_RemoteClusterByRefName env tcl false) as [oref [e1|]]; simpl.
  { split; [|by intros ? [=]]. intros e [= <-]. ends_early. }
  destruct (xdcr_comp_topology_svc_MyClusterUuid env) as [lcu e2]; simpl.
  destruct (decide (src = tgt)) as [Hsame|Hdiff].
  - destruct e2 as [e2|]; [done|]. destruct oref as [ref|]; [|done].
    case_bool_decide as Hu.
    { split; [by intros ? [=]|]. intros ? [= <-]. split; [intros _; ends_early|].
      intros Hno. by destruct Hno. }
    assert (Hno : ¬ (src = tgt ∧ lcu = Uuid ref)) by (by intros [_ ?]).
    destruct (MyConnectionStr ref) as [rc [e3|]] eqn:Hcs; simpl.
    { split; [by intros ? [=]|]. intros ? [= <-]. rewrite Hcs. simpl.
      split; [done|]. intros _. split; [|by intros [=]]. intros e [= <-]. ends_early. }
    destruct (MyCredentials ref) as [[ru rp] [e4|]] eqn:Hcr; simpl.
    { split; [by intros ? [=]|]. intros ? [= <-]. rewrite Hcs, Hcr. simpl.
      split; [done|]. intros _. split; [by intros ? [=]|]. intros _.
      split; [|by intros [=]]. intros e [= <-]. ends_early. }
    destruct (utils_RemoteBucketUUID env rc ru rp tgt) as [tu' et] eqn:Hrb; simpl.
    destruct (ReplicationSpec service _) as [[s0 err]|]; [|done].
    split; [by intros ? [=]|]. intros ? [= <-]. rewrite Hcs, Hcr. simpl.
    split; [done|]. intros _. split; [by intros ? [=]|]. intros _.
    split; [by intros ? [=]|]. intros _. by rewrite Hrb.
  - destruct oref as [ref|]; [|done].
    assert (Hno : ¬ (src = tgt ∧ lcu = Uuid ref)) by (by intros [? _]).
    destruct (MyConnectionStr ref) as [rc [e3|]] eqn:Hcs; simpl.
    { split; [by intros ? [=]|]. intros ? [= <-]. rewrite Hcs. simpl.
      split; [done|]. intros _. split; [|by intros [=]]. intros e [= <-]. ends_early. }
    destruct (MyCredentials ref) as [[ru rp] [e4|]] eqn:Hcr; simpl.
    { split; [by intros ? [=]|]. intros ? [= <-]. rewrite Hcs, Hcr. simpl.
      split; [done|]. intros _. split; [by intros ? [=]|]. intros _.
      split; [|by intros [=]]. intros e [= <-]. ends_early. }
    destruct (utils_RemoteBucketUUID env rc ru rp tgt) as [tu' et] eqn:Hrb; simpl.
    destruct (ReplicationSpec service _) as [[s0 err]|]; [|done].
    split; [by intros ? [=]|]. intros ? [= <-]. rewrite Hcs, Hcr. simpl.
    split; [done|]. intros _. split; [by intros ? [=]|]. intros _.
    split; [by intros ? [=]|]. intros _. by rewrite Hrb.
Qed.

(** C5, as amended.  The source-bucket check is always performed and
    reported.  When validation runs to its end (a reference is returned),
    the target-bucket check, the duplicate check and, where the replication
    type is absent or memcached-style, the version check are all performed
    and their errors are reported together.  Validation ends early, with no
    reference, no target-bucket error and only the error that ended it next
    to the source-bucket one, in four cases and in this order: the target
    cluster reference is not found; source and target are the same bucket of
    the same cluster; the reference yields no connection string; it yields
    no credentials.  Each of the four does end the validation, and in every
    other case the validation runs to its end and returns the reference and
    the two probed UUIDs. *)
Theorem ValidateNewReplicationSpec_error_map service src tcl tgt settings su tu r m :
  ValidateNewReplicationSpec env service src tcl tgt settings = Done (su, tu, r, m) →
  validation_report env service src tcl tgt settings r m ∧
  validation_exit env src tcl tgt su tu r m.
Proof.
  intros H.
  pose proof (ValidateNewReplicationSpec_report service src tcl tgt settings) as Hr.
  pose proof (ValidateNewReplicationSpec_exits service src tcl tgt settings) as He.
  rewrite H in Hr, He. by split.
Qed.

End ServiceFacts.

(** * Properties of the generic supervisor *)

Section SupervisorFacts.
Import supervisor.

Context (ValidateSettings : gmap string any -> option error).

(** [Init] writes the interval and the timeout and nothing else. *)
Lemma Init_fields s settings e s' :
  Init ValidateSettings s settings = Done (e, s') →
  missed_heartbeat_threshold s' = missed_heartbeat_threshold s ∧
  children s' = children s ∧
  childrenBeatMissedMap s' = childrenBeatMissedMap s ∧
  failure_handler_calls s' = failure_handler_calls s ∧
  finch_closed s' = finch_closed s ∧
  parent_supervisor s' = parent_supervisor s ∧
  id s' = id s.
Proof.
  unfold Init. destruct (ValidateSettings settings); [by intros [= <- <-]|].
  destruct (settings !! HEARTBEAT_INTERVAL) as [[]|];
    destruct (settings !! HEARTBEAT_TIMEOUT) as [[]|]; try done;
    by intros [= <- <-].
Qed.

Lemma report_never_responds c ch s r :
  children s = {[c := ch]} → never_responds c r →
  waitForResponse_report r (sendHeartBeats_report s r) = {[c := notYetResponded]}.
Proof.
  intros Hch [Hsend Hresp]. unfold sendHeartBeats_report, waitForResponse_report.
  rewrite Hch, <-!insert_empty.
  rewrite (map_imap_insert_Some _ _ _ _ notYetResponded) by (by rewrite Hsend).
  rewrite map_imap_empty.
  rewrite (map_imap_insert_Some _ _ _ _ notYetResponded).
  - by rewrite map_imap_empty.
  - rewrite decide_True by done. by rewrite Hresp.
Qed.

(** One more missed beat: the counter goes up by one, and the failure is
    reported, and the ticker stopped, exactly when the new count exceeds the
    threshold. *)
Lemma tick_never_responds c j s r :
  watching c j s → never_responds c r → (Z.of_nat j + 1 < 65536)%Z →
  ((Z.of_nat (S j) ≤ missed_heartbeat_threshold s)%Z → watching c (S j) (tick s r)) ∧
  ((Z.of_nat (S j) > missed_heartbeat_threshold s)%Z →
     failure_handler_calls (tick s r) = [ {[c := ErrorString "Not responding"]} ] ∧
     heartbeat_ticker (tick s r) = Some false) ∧
  missed_heartbeat_threshold (tick s r) = missed_heartbeat_threshold s.
Proof.
  intros ([ch Hch] & Hfin & Htick & Hcount & Hle & Hcalls) Hr Hj.
  unfold tick. rewrite Hfin, Htick, Hch, map_size_singleton.
  destruct (decide (0 < 1)) as [_|]; [|lia].
  erewrite report_never_responds by done.
  unfold processReport. rewrite map_fold_singleton. simpl.
  rewrite Hcount.
  assert (Hincr : uint16_incr (Z.of_nat j) = Z.of_nat (S j)).
  { unfold uint16_incr. rewrite Z.mod_small by lia. lia. }
  rewrite Hincr.
  destruct (decide (Z.of_nat (S j) > missed_heartbeat_threshold s)%Z) as [Hgt|Hngt]; simpl.
  - rewrite <-insert_empty, map_size_insert_None, map_size_empty by done.
    destruct (decide (0 < 1)) as [_|]; [|lia].
    unfold ReportFailure; simpl. rewrite Htick; simpl. rewrite Hcalls.
    split_and!; [lia|done|done].
  - rewrite map_size_empty. destruct (decide (0 < 0)) as [|_]; [lia|].
    split_and!; [|lia|done].
    intros ?. unfold watching; simpl. rewrite lookup_insert_eq. eauto 10.
Qed.

Lemma tick_stopped s r : heartbeat_ticker s = Some false → tick s r = s.
Proof. intros H. unfold tick. rewrite H. by destruct (finch_closed s). Qed.

Lemma ticks_stopped s rs : heartbeat_ticker s = Some false → ticks s rs = s.
Proof.
  unfold ticks. induction rs as [|r rs IH]; simpl; [done|].
  intros H. rewrite tick_stopped by done. auto.
Qed.

(** Over rounds in which the child never responds, the failure handler is
    invoked once, in the round in which the count of missed beats first
    exceeds the threshold field. *)
Lemma ticks_never_responds c rs : ∀ j s,
  watching c j s → Forall (never_responds c) rs →
  (missed_heartbeat_threshold s < 65535)%Z →
  failure_handler_calls (ticks s rs) =
    if decide (Z.of_nat (j + List.length rs) ≤ missed_heartbeat_threshold s)%Z
    then [] else [ {[c := ErrorString "Not responding"]} ].
Proof.
  induction rs as [|r rs IH]; intros j s Hw Hrs HT.
  - destruct Hw as (_ & _ & _ & _ & Hle & Hcalls). simpl. rewrite Hcalls.
    replace (j + 0) with j by lia. by rewrite decide_True.
  - apply Forall_cons in Hrs as [Hr Hrs].
    assert (Hj : (Z.of_nat j + 1 < 65536)%Z).
    { destruct Hw as (_ & _ & _ & _ & Hle & _). lia. }
    destruct (tick_never_responds c j s r Hw Hr Hj) as (Hok & Hfail & HT').
    change (ticks s (r :: rs)) with (ticks (tick s r) rs).
    destruct (decide (Z.of_nat (S j) ≤ missed_heartbeat_threshold s)%Z) as [Hle|Hgt].
    + rewrite (IH (S j) (tick s r)); [|auto|done|by rewrite HT'].
      rewrite HT'. simpl List.length.
      replace (S j + List.length rs) with (j + S (List.length rs)) by lia. done.
    + destruct Hfail as [Hcalls Hstop]; [lia|].
      rewrite ticks_stopped by done. rewrite Hcalls.
      rewrite decide_False; [done|]. simpl List.length. lia.
Qed.

(** C8. The claim bounds the round of the failure report by the
    [missed_heartbeat_threshold] of the settings.  [Init] never reads that
    setting: a supervisor built by [NewGenericSupervisor], watching one child
    that never responds and started with any value [k] of the setting, keeps
    the default threshold 5 and invokes the failure handler in round 6,
    neither earlier nor later, whatever [k] is. *)
Theorem missed_heartbeat_threshold_setting_not_read store p s0 c ch settings k store' :
  store !! p = Some s0 →
  children s0 = {[c := ch]} →
  childrenBeatMissedMap s0 = ∅ →
  missed_heartbeat_threshold s0 = default_missed_heartbeat_threshold →
  failure_handler_calls s0 = [] →
  finch_closed s0 = false →
  settings !! MISSED_HEARTBEAT_THRESHOLD = Some (AUint16 k) →
  Start ValidateSettings store p settings = Done (None, store') →
  ∃ s, store' !! p = Some s ∧
       missed_heartbeat_threshold s = 5%Z ∧
       ∀ rs, Forall (never_responds c) rs →
         failure_handler_calls (ticks s rs) =
           if decide (List.length rs ≤ 5)%nat then []
           else [ {[c := ErrorString "Not responding"]} ].
Proof.
  intros Hp Hch Hmiss HT Hcalls Hfin _ Hstart.
  unfold Start in Hstart. rewrite Hp in Hstart.
  destruct (Init ValidateSettings s0 settings) as [[[e|] s]|] eqn:Hinit; try done.
  case_decide; [done|]. injection Hstart as <-.
  apply Init_fields in Hinit as (HT' & Hch' & Hmiss' & Hcalls' & Hfin' & _).
  eexists. split; [apply lookup_insert_eq|].
  split; [simpl; by rewrite HT', HT|].
  intros rs Hrs.
  rewrite (ticks_never_responds c rs 0).
  - simpl. rewrite HT', HT. unfold default_missed_heartbeat_threshold.
    repeat case_decide; (done || lia).
  - unfold watching; simpl.
    rewrite Hch', Hch, Hfin', Hfin, Hmiss', Hmiss, Hcalls', Hcalls, HT', HT.
    split_and!; eauto. done.
  - done.
  - simpl. rewrite HT', HT. done.
Qed.

End SupervisorFacts.

Section StopFacts.
Import supervisor.

(** C9. The claim is that [stop()] returns without crashing also for a
    supervisor constructed with no parent.  The code calls [RemoveChild] on
    the parent pointer without testing it: for every supervisor of the store
    without a parent, [Stop] panics, at the latest when it dereferences the
    nil parent. *)
Theorem Stop_without_parent_panics (store : Store) p s Stop_server_err :
  store !! p = Some s →
  parent_supervisor s = None →
  ∃ msg, Stop store p Stop_server_err = Panic msg.
Proof.
  intros Hp Hparent. unfold Stop. rewrite Hp. simpl.
  destruct (finch_closed s); [eauto|].
  destruct (heartbeat_ticker s); simpl; [|unfold nil_dereference; eauto].
  rewrite Hparent. unfold RemoveChild, nil_dereference. eauto.
Qed.

(** With a parent present, a started supervisor stops and is removed from
    its parent's children. *)
Lemma Stop_with_parent (store : Store) p s q sq b Stop_server_err :
  store !! p = Some s →
  finch_closed s = false →
  heartbeat_ticker s = Some b →
  parent_supervisor s = Some q →
  p ≠ q →
  store !! q = Some sq →
  ∃ store' sq',
    Stop store p Stop_server_err = Done (Stop_server_err, store') ∧
    store' !! q = Some sq' ∧
    children sq' !! id s = None.
Proof.
  intros Hp Hfin Htick Hparent Hne Hq. unfold Stop. rewrite Hp. simpl.
  rewrite Hfin, Htick. simpl. rewrite Hparent. unfold RemoveChild.
  rewrite lookup_insert_ne, Hq by done.
  eexists _, _. split; [reflexivity|].
  rewrite lookup_insert_eq. split; [reflexivity|]. simpl.
  apply lookup_delete_eq.
Qed.

End StopFacts.

(** * The statements at concrete inputs *)

Section Instances.
Import fixtures.

(** The fixtures are what the operations produce. *)
Example svc_added_by_AddReplicationSpec :
  AddReplicationSpec env_ok kv_store svc_empty (with_Revision spec_A_U_B None)
    = Done (None, svc_added) ∧
  ReplicationSpec svc_added (Id spec_A_U_B) = Done (Some spec_A_U_B, None).
Proof. split; vm_compute; reflexivity. Qed.

Example svc_soft_removed_cell :
  cache svc_soft_removed = Some {[ Id spec_A_U_B := VSpecVal 1%positive ]} ∧
  deref (heap svc_soft_removed) 1%positive = {| spec := None; derivedObj := Some 7 |}.
Proof. split; vm_compute; reflexivity. Qed.

(** Scenario 1 on the code: the delete succeeds and empties the catalog, and
    the spec is still served from the cache. *)
Lemma DelReplicationSpec_leaves_spec_cached_witness :
  ∃ service',
    DelReplicationSpec env_ok kv_store svc_added (Id spec_A_U_B)
      = Done (Some spec_A_U_B, None, service') ∧
    metadata_store service' = ∅ ∧
    ReplicationSpec service' (Id spec_A_U_B) = Done (Some spec_A_U_B, None).
Proof.
  apply (DelReplicationSpec_leaves_spec_cached env_ok kv_store svc_added
           {[ Id spec_A_U_B := VSpecVal 1%positive ]}
           (Id spec_A_U_B) 1%positive spec_A_U_B ∅).
  - vm_compute; reflexivity.
  - vm_compute; reflexivity.
  - vm_compute; reflexivity.
  - vm_compute; reflexivity.
  - vm_compute. discriminate.
Defined.

(** C2, refuted as stated.  After a successful delete of a spec without a
    derived object, [setDerivedObj(id, none)] leaves the entry in the cache;
    and the soft delete of the deletion callback keeps the entry of that spec
    although no derived object is attached, with both fields absent. *)
Lemma SetDerivedObj_after_delete_keeps_entry :
  (DelReplicationSpec env_ok kv_store svc_added (Id spec_A_U_B)
     = Done (Some spec_A_U_B, None, svc_deleted) ∧
   SetDerivedObj svc_deleted (Id spec_A_U_B) None = Done (None, svc_deleted_detached) ∧
   cache svc_deleted_detached = Some {[ Id spec_A_U_B := VSpecVal 1%positive ]}) ∧
  (GetDerviedObj svc_added (Id spec_A_U_B) = Done (None, None) ∧
   ReplicationSpecServiceCallback env_ok svc_added
     (getKeyFromReplicationId (Id spec_A_U_B)) None None
     = Done (Id spec_A_U_B, None, None, None, svc_callback_deleted) ∧
   cache svc_callback_deleted = Some {[ Id spec_A_U_B := VSpecVal 1%positive ]} ∧
   deref (heap svc_callback_deleted) 1%positive = {| spec := None; derivedObj := None |}).
Proof. repeat split; vm_compute; reflexivity. Qed.

Lemma soft_removed_entry_dropped_by_detach_only_witness :
  (∀ d, ∃ service' c',
      SetDerivedObj svc_soft_removed (Id spec_A_U_B) d = Done (None, service') ∧
      cache service' = Some c' ∧
      (c' !! Id spec_A_U_B = None ↔
         spec (deref (heap svc_soft_removed) 1%positive) = None ∧ d = None)) ∧
  (∃ c' h',
      cacheSpec {[ Id spec_A_U_B := VSpecVal 1%positive ]} (heap svc_soft_removed)
        (Id spec_A_U_B) None = Done (c', h') ∧
      c' !! Id spec_A_U_B = Some (VSpecVal 1%positive) ∧
      spec (deref h' 1%positive) = None ∧
      derivedObj (deref h' 1%positive) = derivedObj (deref (heap svc_soft_removed) 1%positive)).
Proof.
  apply (soft_removed_entry_dropped_by_detach_only svc_soft_removed
           {[ Id spec_A_U_B := VSpecVal 1%positive ]} (Id spec_A_U_B) 1%positive).
  - vm_compute; reflexivity.
  - vm_compute; reflexivity.
Defined.

(** Scenario 2: the handle is still served after the soft removal, and
    detaching it makes the entry vanish. *)
Example scenario_2_detach :
  GetDerviedObj svc_soft_removed (Id spec_A_U_B) = Done (Some 7, None) ∧
  ∃ service',
    SetDerivedObj svc_soft_removed (Id spec_A_U_B) None = Done (None, service') ∧
    cache service' = Some ∅.
Proof.
  split; [vm_compute; reflexivity|].
  eexists. split; [vm_compute; reflexivity|].
  vm_compute; reflexivity.
Qed.

Lemma soft_removed_entry_reads_witness :
  ReplicationSpec svc_soft_removed (Id spec_A_U_B) = not_found ∧
  GetDerviedObj svc_soft_removed (Id spec_A_U_B) = Done (Some 7, None) ∧
  (∀ id' s, ReplicationSpec svc_soft_removed id' = Done (Some s, None) →
     ∃ q, ({[ Id spec_A_U_B := VSpecVal 1%positive ]} : MetadataCache) !! id'
            = Some (VSpecVal q) ∧
          spec (deref (heap svc_soft_removed) q) = Some s) ∧
  (∀ specs, AllReplicationSpecs svc_soft_removed = Done (Some specs, None) →
     specs !! Id spec_A_U_B = None ∧
     ∀ id' s, specs !! id' = Some s →
       ∃ q, ({[ Id spec_A_U_B := VSpecVal 1%positive ]} : MetadataCache) !! id'
              = Some (VSpecVal q) ∧
            spec (deref (heap svc_soft_removed) q) = Some s) ∧
  (∀ ids, AllReplicationSpecIds svc_soft_removed = Done (Some ids, None) →
     Id spec_A_U_B ∉ ids) ∧
  (∀ bucket ids,
     AllReplicationSpecIdsForBucket svc_soft_removed bucket = Done (Some ids, None) →
     Id spec_A_U_B ∉ ids).
Proof.
  apply (soft_removed_entry_reads svc_soft_removed
           {[ Id spec_A_U_B := VSpecVal 1%positive ]} (Id spec_A_U_B) 1%positive 7).
  - vm_compute; reflexivity.
  - vm_compute; reflexivity.
  - vm_compute; reflexivity.
Defined.

(** The local probe is down and the spec is cached and persisted: the spec is
    classified invalid and its catalog key is deleted. *)
Lemma ValidateAndGC_deletes_on_source_probe_failure_witness :
  ((∃ detail,
      ValidateExistingReplicationSpec env_local_probe_down spec_A_U_B
        = Done (Some InvalidReplicationSpecError, Some detail)) ∧
   ∃ service',
     ValidateAndGC env_local_probe_down kv_store svc_added spec_A_U_B = Done service' ∧
     metadata_store service' =
       (DelWithCatalog kv_store (metadata_store svc_added) ReplicationSpecsCatalogKey
          (getKeyFromReplicationId (Id spec_A_U_B)) (Revision_ spec_A_U_B)).1) ∧
  metadata_store svc_added !! getKeyFromReplicationId (Id spec_A_U_B) = Some ([], 1) ∧
  (DelWithCatalog kv_store (metadata_store svc_added) ReplicationSpecsCatalogKey
     (getKeyFromReplicationId (Id spec_A_U_B)) (Revision_ spec_A_U_B)).1 = ∅.
Proof.
  split; [|split; vm_compute; reflexivity].
  apply (ValidateAndGC_deletes_on_source_probe_failure env_local_probe_down kv_store
           svc_added spec_A_U_B {[ Id spec_A_U_B := VSpecVal 1%positive ]}
           1%positive spec_A_U_B "local:8091" EmptyString (ErrorString "unreachable")).
  - vm_compute; reflexivity.
  - vm_compute. discriminate.
  - vm_compute; reflexivity.
  - discriminate.
  - vm_compute. discriminate.
  - vm_compute. discriminate.
  - vm_compute; reflexivity.
  - vm_compute; reflexivity.
  - vm_compute; reflexivity.
Defined.

(** Scenario 5: the target bucket was recreated under another UUID. *)
Lemma ValidateExisting_uuid_mismatch_is_invalid_witness :
  ∃ detail,
    ValidateExistingReplicationSpec env_target_recreated spec_A_U_B
      = Done (Some InvalidReplicationSpecError, Some detail).
Proof.
  destruct (ValidateExisting_uuid_mismatch_is_invalid env_target_recreated spec_A_U_B
              "local:8091") as [Hinvalid _].
  - vm_compute; reflexivity.
  - vm_compute. discriminate.
  - apply Hinvalid.
    right. split; [vm_compute; discriminate|].
    exists ref_r. split; [vm_compute; reflexivity|vm_compute; discriminate].
Defined.

(** C6, refuted as stated.  The target bucket "B" of the spec was recreated:
    the spec captured the UUID "Y" and every remote probe for "B" answers
    "Z", the bucket of that name existing.  The lookup of the cluster
    reference fails with a transient error, and the validation returns that
    error as the class error, not the invalid-spec sentinel. *)
Lemma ValidateExisting_lookup_error_hides_target_mismatch :
  TargetBucketUUID spec_A_U_B = "Y" ∧
  (∀ connStr userName password,
     utils_RemoteBucketUUID env_reference_lookup_down connStr userName password
       (TargetBucketName spec_A_U_B) = ("Z", None)) ∧
  remote_cluster_svc_RemoteClusterByUuid env_reference_lookup_down
    (TargetClusterUUID spec_A_U_B) false = (None, Some (ErrorString "unreachable")) ∧
  ValidateExistingReplicationSpec env_reference_lookup_down spec_A_U_B
    = Done (Some (ErrorString "unreachable"), None) ∧
  Some (ErrorString "unreachable") ≠ Some InvalidReplicationSpecError.
Proof.
  split; [reflexivity|]. split; [reflexivity|]. split; [reflexivity|].
  split; [vm_compute; reflexivity|discriminate].
Qed.

(** In the healthy world the same spec is valid. *)
Example ValidateExisting_healthy :
  ValidateExistingReplicationSpec env_ok spec_A_U_B = Done (None, None).
Proof. vm_compute; reflexivity. Qed.

(** The write goes through and the re-read fails: the update reports success
    and the cache serves the spec with a nil revision. *)
Lemma SetReplicationSpec_ignores_reread_error_witness :
  ∃ service',
    SetReplicationSpec env_ok kv_store_unreadable svc_added spec_A_U_B
      = Done (None, service') ∧
    ReplicationSpec service' (Id spec_A_U_B)
      = Done (Some (with_Revision spec_A_U_B None), None).
Proof.
  apply (SetReplicationSpec_ignores_reread_error env_ok kv_store_unreadable svc_added
           spec_A_U_B {[ Id spec_A_U_B := VSpecVal 1%positive ]} []
           {[ getKeyFromReplicationId (Id spec_A_U_B) := ([], 2) ]} [] None
           (ErrorString "storage-error")).
  - vm_compute; reflexivity.
  - vm_compute; reflexivity.
  - vm_compute; reflexivity.
  - vm_compute; reflexivity.
  - vm_compute. discriminate.
Defined.

(** C5, refuted as stated.  Source and target are the same bucket of the
    same cluster: the target cluster reference is found, the version check
    applies and would report that the cluster is older than 2.2, and yet the
    validation returns with the same-bucket error only. *)
Lemma ValidateNew_same_bucket_skips_version_check :
  remote_cluster_svc_RemoteClusterByRefName env_loopback_old "r" false = (Some ref_r, None) ∧
  xmem_check_applies ∅ ∧
  cluster_info_svc_IsClusterCompatible env_loopback_old ref_r [2; 2]%Z = (false, None) ∧
  ValidateNewReplicationSpec env_loopback_old svc_empty "A" "r" "A" ∅
    = Done (EmptyString, EmptyString, None,
            {[ base.PlaceHolderFieldKey :=
                 ErrorString "Replication from a bucket to the same bucket is not allowed" ]}) ∧
  ({[ base.PlaceHolderFieldKey :=
        ErrorString "Replication from a bucket to the same bucket is not allowed" ]}
     : gmap string error) !! base.ToCluster = None.
Proof.
  split; [reflexivity|]. split; [by left|]. split; [reflexivity|].
  split; vm_compute; reflexivity.
Qed.

(** Scenario 3: validating the triple of a cached spec runs to the end and
    reports the duplicate under the catch-all key. *)
Lemma ValidateNewReplicationSpec_error_map_witness :
  ValidateNewReplicationSpec env_ok svc_added "A" "r" "B" ∅
    = Done ("X", "Y", Some ref_r,
            {[ base.PlaceHolderFieldKey :=
                 ErrorString ReplicationSpecAlreadyExistErrorMessage ]}) ∧
  validation_report env_ok svc_added "A" "r" "B" ∅ (Some ref_r)
    {[ base.PlaceHolderFieldKey := ErrorString ReplicationSpecAlreadyExistErrorMessage ]} ∧
  validation_exit env_ok "A" "r" "B" "X" "Y" (Some ref_r)
    {[ base.PlaceHolderFieldKey := ErrorString ReplicationSpecAlreadyExistErrorMessage ]}.
Proof.
  split; [vm_compute; reflexivity|].
  apply (ValidateNewReplicationSpec_error_map env_ok svc_added "A" "r" "B" ∅ "X" "Y").
  vm_compute; reflexivity.
Defined.

(** A deletion notification for an id the cache has never seen. *)
Lemma callback_delete_of_unknown_id_inserts_entry_witness :
  ∃ service' c' p,
    ReplicationSpecServiceCallback env_ok svc_empty
      (getKeyFromReplicationId "A_U_B") None None
      = Done ("A_U_B", None, None, None, service') ∧
    cache service' = Some c' ∧
    c' ≠ ∅ ∧
    c' = <["A_U_B" := VSpecVal p]> ∅ ∧
    heap svc_empty !! p = None ∧
    heap service' !! p = Some {| spec := None; derivedObj := None |} ∧
    heap service' = <[p := {| spec := None; derivedObj := None |}]> (heap svc_empty) ∧
    heap service' ≠ heap svc_empty ∧
    deref (heap service') p = {| spec := None; derivedObj := None |} ∧
    GetDerviedObj service' "A_U_B" = Done (None, None) ∧
    ReplicationSpec service' "A_U_B" = not_found.
Proof.
  apply (callback_delete_of_unknown_id_inserts_entry env_ok svc_empty ∅ "A_U_B"
           (getKeyFromReplicationId "A_U_B") None).
  - reflexivity.
  - reflexivity.
  - reflexivity.
Defined.

(** The supervisor of the fixtures is what the constructor and [Start]
    build. *)
Example store_started_by_Start :
  supervisor.Start ValidateSettings_ok store_one_child 1%positive (threshold_setting 3)
    = Done (None, store_started (threshold_setting 3)).
Proof. vm_compute; reflexivity. Qed.

Lemma missed_heartbeat_threshold_setting_not_read_witness :
  ∃ s, store_started (threshold_setting 3) !! 1%positive = Some s ∧
       supervisor.missed_heartbeat_threshold s = 5%Z ∧
       ∀ rs, Forall (supervisor.never_responds "pipeline") rs →
         supervisor.failure_handler_calls (supervisor.ticks s rs) =
           if decide (List.length rs ≤ 5)%nat then []
           else [ {[ "pipeline" := ErrorString "Not responding" ]} ].
Proof.
  eapply (missed_heartbeat_threshold_setting_not_read ValidateSettings_ok store_one_child
            1%positive _ "pipeline" supervisor.ExternalChild (threshold_setting 3) 3%Z).
  - vm_compute; reflexivity.
  - vm_compute; reflexivity.
  - vm_compute; reflexivity.
  - vm_compute; reflexivity.
  - vm_compute; reflexivity.
  - vm_compute; reflexivity.
  - vm_compute; reflexivity.
  - vm_compute; reflexivity.
Defined.

(** Scenario 6 on the code, threshold 3: no report within the four rounds
    the threshold allows, the report comes in round 6. *)
Example threshold_3_reported_in_round_6 :
  ∃ s, store_started (threshold_setting 3) !! 1%positive = Some s ∧
       supervisor.failure_handler_calls (supervisor.ticks s (replicate 4 silent_round)) = [] ∧
       supervisor.failure_handler_calls (supervisor.ticks s (replicate 5 silent_round)) = [] ∧
       supervisor.failure_handler_calls (supervisor.ticks s (replicate 6 silent_round))
         = [ {[ "pipeline" := ErrorString "Not responding" ]} ].
Proof.
  eexists. split; [vm_compute; reflexivity|].
  split; [vm_compute; reflexivity|].
  split; [vm_compute; reflexivity|].
  vm_compute; reflexivity.
Qed.

(** Threshold 10: the report comes in round 6, before ten rounds. *)
Example threshold_10_reported_in_round_6 :
  ∃ s, store_started (threshold_setting 10) !! 1%positive = Some s ∧
       supervisor.failure_handler_calls (supervisor.ticks s (replicate 6 silent_round))
         = [ {[ "pipeline" := ErrorString "Not responding" ]} ].
Proof.
  eexists. split; [vm_compute; reflexivity|].
  vm_compute; reflexivity.
Qed.

(** A started supervisor without a parent. *)
Lemma Stop_without_parent_panics_witness :
  ∃ msg, supervisor.Stop (store_started ∅) 1%positive None = Panic msg.
Proof.
  eapply (Stop_without_parent_panics (store_started ∅) 1%positive _ None).
  - vm_compute; reflexivity.
  - vm_compute; reflexivity.
Defined.

(** With a parent, the child stops and leaves the parent's children. *)
Example Stop_child_of_parent :
  ∃ store' parent,
    supervisor.Stop store_parent_child 2%positive None = Done (None, store') ∧
    store' !! 1%positive = Some parent ∧
    supervisor.children parent = ∅.
Proof.
  eexists _, _. split; [vm_compute; reflexivity|].
  split; [vm_compute; reflexivity|].
  vm_compute; reflexivity.
Qed.

End Instances.

(** * Further properties of the replication-spec service *)

Section ServiceMore.

Context (env : Env) {M : Type} (msvc : MetadataSvc M).
Implicit Types (service : ReplicationSpecService M) (c : MetadataCache) (h : Heap).

(** ** Helpers *)

(** [cacheSpec] does not panic unless the slot holds a foreign value; it
    writes the spec field of the struct of the slot, or of a new struct. *)
Lemma cacheSpec_result c h id s :
  c !! id ≠ Some VOther →
  ∃ p, cacheSpec c h id s
         = Done (<[id := VSpecVal p]> c,
                 <[p := {| spec := s; derivedObj := derived_at c h id |}]> h).
Proof.
  intros Hother. unfold derived_at. destruct (c !! id) as [[|q|]|] eqn:Hid; [| |done|].
  - exists (fresh (dom h)). unfold cacheSpec, cache_Get, cache_Upsert, alloc. by rewrite Hid.
  - exists q. by rewrite (cacheSpec_cached _ _ _ _ _ Hid).
  - exists (fresh (dom h)). by rewrite (cacheSpec_absent _ _ _ _ Hid).
Qed.

Lemma ReplicationSpec_spec_at service c id :
  cache service = Some c →
  c !! id ≠ Some VOther →
  ReplicationSpec service id =
    match spec_at c (heap service) id with
    | Some sp => Done (Some sp, None)
    | None => Done (None, Some not_found_error)
    end.
Proof.
  intros Hc Hother. unfold ReplicationSpec, cache_Get, spec_at.
  rewrite (getCache_Some _ _ Hc). by destruct (c !! id) as [[|q|]|].
Qed.

Lemma GetDerviedObj_derived_at service c id p :
  cache service = Some c →
  c !! id = Some (VSpecVal p) →
  GetDerviedObj service id = Done (derived_at c (heap service) id, None).
Proof.
  intros Hc Hid. rewrite (GetDerviedObj_cached _ _ _ _ Hc Hid).
  unfold derived_at. by rewrite Hid.
Qed.

Lemma cache_wf_empty : cache_wf ∅ (∅ : Heap).
Proof. split; intros *; by rewrite lookup_empty. Qed.

Lemma cache_wf_not_other c h id : cache_wf c h → c !! id ≠ Some VOther.
Proof. intros [Hptr _] Hid. by destruct (Hptr _ _ Hid) as (p & ? & _). Qed.

Lemma cache_wf_heap_insert c h p v :
  cache_wf c h → cache_wf c (<[p := v]> h).
Proof.
  intros [Hptr Hinj]. split; [|done].
  intros id w Hid. destruct (Hptr _ _ Hid) as (q & -> & Hq).
  exists q. split; [done|]. rewrite lookup_insert. case_decide; [by eexists|done].
Qed.

Lemma cacheSpec_wf c h id s c' h' :
  cache_wf c h → cacheSpec c h id s = Done (c', h') → cache_wf c' h'.
Proof.
  intros Hwf. pose proof Hwf as [Hptr Hinj].
  destruct (c !! id) as [v|] eqn:Hid.
  - destruct (Hptr _ _ Hid) as (p & -> & Hp).
    rewrite (cacheSpec_cached _ _ _ _ _ Hid). intros [= <- <-].
    rewrite insert_id by done. by apply cache_wf_heap_insert.
  - rewrite (cacheSpec_absent _ _ _ _ Hid). intros [= <- <-].
    pose proof (fresh_unallocated h) as Hfresh.
    split.
    + intros id' w. rewrite lookup_insert. case_decide.
      * intros [= <-]. eexists. split; [done|]. rewrite lookup_insert_eq. by eexists.
      * intros Hid'. destruct (Hptr _ _ Hid') as (q & -> & Hq).
        exists q. split; [done|]. rewrite lookup_insert. case_decide; [by eexists|done].
    + intros id1 id2 p. rewrite !lookup_insert.
      repeat case_decide; simplify_eq; try done.
      * intros [= <-] Hid2. destruct (Hptr _ _ Hid2) as (q & [= <-] & [? Hq]). congruence.
      * intros Hid1 [= <-]. destruct (Hptr _ _ Hid1) as (q & [= <-] & [? Hq]). congruence.
      * apply Hinj.
Qed.

(** Under the invariant a write to the slot of [id] is not seen through any
    other slot. *)
Lemma cacheSpec_frame c h id s c' h' id' :
  cache_wf c h → cacheSpec c h id s = Done (c', h') → id' ≠ id →
  c' !! id' = c !! id' ∧
  ∀ q, c !! id' = Some (VSpecVal q) → deref h' q = deref h q.
Proof.
  intros [Hptr Hinj] Hcs Hne.
  destruct (c !! id) as [v|] eqn:Hid.
  - destruct (Hptr _ _ Hid) as (p & -> & Hp).
    rewrite (cacheSpec_cached _ _ _ _ _ Hid) in Hcs. injection Hcs as <- <-.
    split; [by rewrite lookup_insert_ne|].
    intros q Hq. apply deref_set_spec_ne. intros ->. by specialize (Hinj _ _ _ Hid Hq).
  - rewrite (cacheSpec_absent _ _ _ _ Hid) in Hcs. injection Hcs as <- <-.
    split; [by rewrite lookup_insert_ne|].
    intros q Hq. destruct (Hptr _ _ Hq) as (? & [= <-] & [? Hq']).
    unfold deref. rewrite lookup_insert_ne; [done|].
    intros <-. pose proof (fresh_unallocated h). congruence.
Qed.

Lemma cacheSpec_spec_at c h id s c' h' id' :
  cache_wf c h → cacheSpec c h id s = Done (c', h') →
  spec_at c' h' id' = (if decide (id' = id) then s else spec_at c h id') ∧
  derived_at c' h' id' = derived_at c h id'.
Proof.
  intros Hwf Hcs. unfold spec_at, derived_at. case_decide as Heq.
  - subst id'. pose proof Hwf as [Hptr Hinj].
    destruct (c !! id) as [v|] eqn:Hid.
    + destruct (Hptr _ _ Hid) as (p & -> & Hp).
      rewrite (cacheSpec_cached _ _ _ _ _ Hid) in Hcs. injection Hcs as <- <-.
      by rewrite lookup_insert_eq, deref_set_spec_eq.
    + rewrite (cacheSpec_absent _ _ _ _ Hid) in Hcs. injection Hcs as <- <-.
      rewrite lookup_insert_eq. unfold deref. by rewrite lookup_insert_eq.
  - destruct (cacheSpec_frame _ _ _ _ _ _ id' Hwf Hcs Heq) as [-> Hcell].
    destruct (c !! id') as [[|q|]|]; try done. by rewrite (Hcell q eq_refl).
Qed.

Lemma service_wf_writeUiLog service sp action reason :
  service_wf service → service_wf (writeUiLog env service sp action reason).
Proof.
  intros (c & Hc & Hwf). exists c.
  by rewrite writeUiLog_cache, writeUiLog_heap.
Qed.

(** Two states that agree on the slot of an identifier and on the struct it
    points to answer the two lookups alike. *)
Lemma reads_agree service service' c c' id' :
  cache service = Some c → cache service' = Some c' →
  c' !! id' = c !! id' →
  (∀ q, c !! id' = Some (VSpecVal q) → deref (heap service') q = deref (heap service) q) →
  ReplicationSpec service' id' = ReplicationSpec service id' ∧
  GetDerviedObj service' id' = GetDerviedObj service id'.
Proof.
  intros Hc Hc' Hid Hcell.
  unfold ReplicationSpec, GetDerviedObj, cache_Get.
  rewrite (getCache_Some _ _ Hc), (getCache_Some _ _ Hc'), Hid.
  destruct (c !! id') as [[|q|]|]; simpl; try done.
  by rewrite (Hcell q eq_refl).
Qed.

Lemma ReplicationSpec_unserved service c id :
  cache service = Some c →
  (c !! id = None ∨
   ∃ p, c !! id = Some (VSpecVal p) ∧ spec (deref (heap service) p) = None) →
  ReplicationSpec service id = Done (None, Some not_found_error).
Proof.
  intros Hc [Hid|(p & Hid & Hsp)].
  - unfold ReplicationSpec, cache_Get. by rewrite (getCache_Some _ _ Hc), Hid.
  - by rewrite (ReplicationSpec_cached _ _ _ _ Hc Hid), Hsp.
Qed.

Lemma prefix_split p : ∀ key,
  String.prefix p key = true →
  key = String.append p
          (String.substring (String.length p) (String.length key - String.length p) key).
Proof.
  induction p as [|a p IH]; intros key.
  - intros _. simpl. by rewrite Nat.sub_0_r, substring_all.
  - destruct key as [|b key]; simpl; [done|].
    destruct (ascii_dec a b) as [->|]; [|done].
    intros H. rewrite (IH key H) at 1. reflexivity.
Qed.

(** ** Writes *)

(** X1. A successful [AddReplicationSpec] makes the spec readable at once,
    with the revision the store returned on the re-read. *)
Theorem AddReplicationSpec_read_your_writes service sp c value m' v rev :
  json_Marshal env sp = (value, None) →
  AddWithCatalog msvc (metadata_store service) ReplicationSpecsCatalogKey
    (getKeyFromReplicationId (Id sp)) value = (m', None) →
  Get msvc m' (getKeyFromReplicationId (Id sp)) = (v, rev, None) →
  cache service = Some c →
  c !! Id sp ≠ Some VOther →
  ∃ service',
    AddReplicationSpec env msvc service sp = Done (None, service') ∧
    metadata_store service' = m' ∧
    ReplicationSpec service' (Id sp) = Done (Some (with_Revision sp rev), None).
Proof.
  intros Hj Hadd Hget Hc Hother. unfold AddReplicationSpec.
  rewrite Hj, Hadd. simpl. rewrite Hget.
  unfold getCache; simpl. rewrite Hc.
  destruct (cacheSpec_result c (heap service) (Id sp) (Some (with_Revision sp rev)) Hother)
    as (p & ->).
  eexists. split; [reflexivity|]. split; [by rewrite writeUiLog_store|].
  rewrite ReplicationSpec_writeUiLog.
  erewrite ReplicationSpec_cached; [|reflexivity|apply lookup_insert_eq].
  simpl. unfold deref. by rewrite lookup_insert_eq.
Qed.

(** X2. When [AddReplicationSpec] or [SetReplicationSpec] returns an error,
    the cache, the structs it points to and the UI log are as before. *)
Theorem failed_write_keeps_cache service sp err service' :
  (AddReplicationSpec env msvc service sp = Done (Some err, service') ∨
   SetReplicationSpec env msvc service sp = Done (Some err, service')) →
  cache service' = cache service ∧ heap service' = heap service ∧
  uilog_svc service' = uilog_svc service.
Proof.
  unfold AddReplicationSpec, SetReplicationSpec.
  destruct (json_Marshal env sp) as [value [e|]].
  { by intros [[= <- <-]|[= <- <-]]. }
  intros [H|H]; revert H.
  - destruct (AddWithCatalog _ _ _ _ _) as [m1 [e1|]]; simpl; [by intros [= <- <-]|].
    destruct (Get msvc m1 _) as [[v1 r1] [g1|]]; simpl; [by intros [= <- <-]|].
    unfold getCache; simpl. destruct (cache service) as [c|]; simpl; [|done].
    by destruct (cacheSpec _ _ _ _) as [[??]|].
  - destruct (Set_ _ _ _ _ _) as [m2 [e2|]]; simpl; [by intros [= <- <-]|].
    destruct (Get msvc m2 _) as [[v2 r2] g2]; simpl.
    unfold getCache; simpl. destruct (cache service) as [c|]; simpl; [|done].
    by destruct (cacheSpec _ _ _ _) as [[??]|].
Qed.

(** ** Derived objects *)

(** X3. [SetDerivedObj] on a cached identifier succeeds; [GetDerviedObj]
    then returns the object just set, except that detaching (nil) from an
    entry without a spec removes the entry, after which the lookup reports
    not-found.  The spec served for the identifier and the store are
    untouched. *)
Theorem SetDerivedObj_GetDerviedObj_round_trip service c id p d :
  cache service = Some c →
  c !! id = Some (VSpecVal p) →
  ∃ service',
    SetDerivedObj service id d = Done (None, service') ∧
    GetDerviedObj service' id =
      match spec (deref (heap service) p), d with
      | None, None => Done (None, Some not_found_error)
      | _, _ => Done (d, None)
      end ∧
    ReplicationSpec service' id = ReplicationSpec service id ∧
    metadata_store service' = metadata_store service.
Proof.
  intros Hc Hid. rewrite (SetDerivedObj_cached _ _ _ _ _ Hc Hid).
  eexists. split; [reflexivity|].
  rewrite (ReplicationSpec_cached _ _ _ _ Hc Hid).
  destruct (spec (deref (heap service) p)) as [sp|] eqn:Hsp, d as [d|].
  1-3: split_and!; [| |done];
    [erewrite GetDerviedObj_cached; [|reflexivity|apply lookup_insert_eq];
     simpl; by rewrite deref_set_derivedObj_eq
    |erewrite ReplicationSpec_cached; [|reflexivity|apply lookup_insert_eq];
     simpl; by rewrite deref_set_derivedObj_eq, Hsp].
  split_and!; [| |done].
  - unfold GetDerviedObj, getCache, cache_Get; simpl. by rewrite lookup_delete_eq.
  - unfold ReplicationSpec, getCache, cache_Get; simpl. by rewrite lookup_delete_eq.
Qed.

(** X4. For an identifier that is not cached, or whose entry is
    soft-removed, [ReplicationSpec] and [DelReplicationSpec] report
    not-found, and the delete changes nothing: the catalog is not called.
    For an identifier that is not cached, [SetDerivedObj] and
    [GetDerviedObj] report not-found as well and change nothing. *)
Theorem unserved_id_not_found service c id :
  cache service = Some c →
  (c !! id = None ∨
   ∃ p, c !! id = Some (VSpecVal p) ∧ spec (deref (heap service) p) = None) →
  ReplicationSpec service id = Done (None, Some not_found_error) ∧
  DelReplicationSpec env msvc service id = Done (None, Some not_found_error, service) ∧
  (c !! id = None →
     ∀ d, SetDerivedObj service id d = Done (Some not_found_error, service) ∧
          GetDerviedObj service id = Done (None, Some not_found_error)).
Proof.
  intros Hc Hid.
  pose proof (ReplicationSpec_unserved service c id Hc Hid) as Hr.
  split; [done|]. split.
  - unfold DelReplicationSpec, delReplicationSpec_internal. by rewrite Hr.
  - intros Hnone d. unfold SetDerivedObj, GetDerviedObj, cache_Get.
    by rewrite (getCache_Some _ _ Hc), Hnone.
Qed.

(** X5. When the catalog refuses the delete (for instance on a revision
    mismatch), [DelReplicationSpec] returns the catalog's error and the spec
    is still served. *)
Theorem DelReplicationSpec_catalog_failure service c id p sp m' e :
  cache service = Some c →
  c !! id = Some (VSpecVal p) →
  spec (deref (heap service) p) = Some sp →
  DelWithCatalog msvc (metadata_store service) ReplicationSpecsCatalogKey
    (getKeyFromReplicationId id) (Revision_ sp) = (m', Some e) →
  DelReplicationSpec env msvc service id = Done (None, Some e, with_store service m') ∧
  ReplicationSpec (with_store service m') id = Done (Some sp, None).
Proof.
  intros Hc Hid Hsp Hdel. unfold DelReplicationSpec, delReplicationSpec_internal.
  rewrite (ReplicationSpec_cached _ _ _ _ Hc Hid), Hsp, Hdel. split; [done|].
  erewrite ReplicationSpec_cached; [|exact Hc|exact Hid]. simpl. by rewrite Hsp.
Qed.

(** ** The change notification *)

(** X6. A change notification whose value decodes (to a spec, or to nothing
    for a nil value) sets the spec field of the entry of the identifier named
    by the path, creating the entry if needed: afterwards [ReplicationSpec]
    serves the decoded spec under that identifier, or reports not-found for
    a nil value, and the derived object of the entry is the one it had. *)
Theorem callback_sets_spec_keeps_derived service c id path value rev o :
  constructReplicationSpec env value rev = (o, None) →
  GetKeyFromPath env path = getKeyFromReplicationId id →
  cache service = Some c →
  c !! id ≠ Some VOther →
  ∃ service',
    ReplicationSpecServiceCallback env service path value rev
      = Done (id, None, o, None, service') ∧
    ReplicationSpec service' id =
      match o with
      | Some sp => Done (Some sp, None)
      | None => Done (None, Some not_found_error)
      end ∧
    GetDerviedObj service' id = Done (derived_at c (heap service) id, None).
Proof.
  intros Hcons Hpath Hc Hother. unfold ReplicationSpecServiceCallback.
  rewrite Hcons, Hpath, getReplicationIdFromKey_getKey, (getCache_Some _ _ Hc).
  destruct (cacheSpec_result c (heap service) id o Hother) as (p & Hcs).
  rewrite Hcs. eexists; split; [reflexivity|]. split.
  - erewrite ReplicationSpec_cached; [|reflexivity|apply lookup_insert_eq].
    simpl. unfold deref. rewrite lookup_insert_eq. by destruct o.
  - erewrite GetDerviedObj_cached; [|reflexivity|apply lookup_insert_eq].
    simpl. unfold deref at 1. by rewrite lookup_insert_eq.
Qed.

(** X7. The catalog key and the replication id convert into each other:
    the id of the key of an id is that id, a key that yields an id is the
    key of that id, and exactly the keys without the catalog prefix panic. *)
Theorem catalog_key_round_trip :
  (∀ id, getReplicationIdFromKey (getKeyFromReplicationId id) = Done id) ∧
  (∀ key id, getReplicationIdFromKey key = Done id → key = getKeyFromReplicationId id) ∧
  (∀ key, (∃ msg, getReplicationIdFromKey key = Panic msg) ↔
          String.prefix (getKeyFromReplicationId EmptyString) key = false).
Proof.
  split_and!.
  - apply getReplicationIdFromKey_getKey.
  - intros key id. unfold getReplicationIdFromKey, getKeyFromReplicationId.
    change (ReplicationSpecsCatalogKey +:+ base.KeyPartsDelimiter +:+ id)
      with (String.append (ReplicationSpecsCatalogKey +:+ base.KeyPartsDelimiter) id).
    destruct (String.prefix _ key) eqn:Hp; simpl; [|done].
    intros [= <-]. by apply prefix_split.
  - intros key. unfold getReplicationIdFromKey.
    change (getKeyFromReplicationId EmptyString)
      with (ReplicationSpecsCatalogKey +:+ base.KeyPartsDelimiter).
    destruct (String.prefix _ key); simpl; split; try done; eauto.
    by intros [? ?].
Qed.

(** ** The invariant of the cache *)

(** X8. The invariant of the cache (every slot holds a pointer to an
    allocated struct, no two identifiers share a struct) is kept by every
    operation that writes the cache, and on a state that satisfies it the
    add, the update, the delete and the attach return without a panic. *)
Theorem service_wf_preserved service :
  service_wf service →
  (∀ sp, ∃ e service', AddReplicationSpec env msvc service sp = Done (e, service') ∧
                       service_wf service') ∧
  (∀ sp, ∃ e service', SetReplicationSpec env msvc service sp = Done (e, service') ∧
                       service_wf service') ∧
  (∀ id, ∃ r e service', DelReplicationSpec env msvc service id = Done (r, e, service') ∧
                         service_wf service') ∧
  (∀ id d, ∃ e service', SetDerivedObj service id d = Done (e, service') ∧
                         service_wf service') ∧
  (∀ path value rev res service',
     ReplicationSpecServiceCallback env service path value rev = Done (res, service') →
     service_wf service').
Proof.
  intros (c & Hc & Hwf). split_and!.
  - intros sp. unfold AddReplicationSpec.
    destruct (json_Marshal env sp) as [value [e|]]; [by eexists _, _; split; [|exists c]|].
    destruct (AddWithCatalog _ _ _ _ _) as [m1 [e1|]]; simpl;
      [by eexists _, _; split; [|exists c]|].
    destruct (Get msvc m1 _) as [[v1 r1] [g1|]]; simpl;
      [by eexists _, _; split; [|exists c]|].
    unfold getCache; simpl. rewrite Hc.
    destruct (cacheSpec_result c (heap service) (Id sp) (Some (with_Revision sp r1))
                (cache_wf_not_other _ _ _ Hwf)) as (p & Hcs).
    pose proof (cacheSpec_wf _ _ _ _ _ _ Hwf Hcs) as Hwf'. rewrite Hcs.
    eexists _, _. split; [reflexivity|].
    apply service_wf_writeUiLog. by eexists.
  - intros sp. unfold SetReplicationSpec.
    destruct (json_Marshal env sp) as [value [e|]]; [by eexists _, _; split; [|exists c]|].
    destruct (Set_ _ _ _ _ _) as [m1 [e1|]]; simpl;
      [by eexists _, _; split; [|exists c]|].
    destruct (Get msvc m1 _) as [[v1 r1] g1]; simpl.
    unfold getCache; simpl. rewrite Hc.
    destruct (cacheSpec_result c (heap service) (Id sp) (Some (with_Revision sp r1))
                (cache_wf_not_other _ _ _ Hwf)) as (p & Hcs).
    pose proof (cacheSpec_wf _ _ _ _ _ _ Hwf Hcs) as Hwf'. rewrite Hcs.
    eexists _, _. split; [reflexivity|]. by eexists.
  - intros id. unfold DelReplicationSpec, delReplicationSpec_internal.
    unfold ReplicationSpec, cache_Get. rewrite (getCache_Some _ _ Hc).
    destruct (c !! id) as [v|] eqn:Hid; simpl;
      [|by eexists _, _, _; split; [|exists c]].
    destruct Hwf as [Hptr Hinj]. destruct (Hptr _ _ Hid) as (p & -> & Hp).
    destruct (spec (deref (heap service) p)) as [sp|]; simpl;
      [|by eexists _, _, _; split; [|exists c]].
    destruct (DelWithCatalog _ _ _ _ _) as [m1 [e1|]]; simpl;
      [by eexists _, _, _; split; [|exists c]|].
    unfold getCache; simpl. rewrite Hc.
    destruct (c !! getKeyFromReplicationId id) as [[|q|]|]; simpl;
      (eexists _, _, _; split; [reflexivity|]);
      apply service_wf_writeUiLog; exists c; (split; [done|]); simpl; try done.
    by apply cache_wf_heap_insert.
  - intros id d. unfold SetDerivedObj, cache_Get. rewrite (getCache_Some _ _ Hc).
    destruct (c !! id) as [v|] eqn:Hid; simpl;
      [|by eexists _, _; split; [|exists c]].
    pose proof Hwf as [Hptr Hinj]. destruct (Hptr _ _ Hid) as (p & -> & Hp).
    rewrite deref_set_derivedObj_eq.
    assert (Hwf' : cache_wf c (set_derivedObj (heap service) p d))
      by by apply cache_wf_heap_insert.
    destruct (spec (deref (heap service) p)), d;
      (eexists _, _; split; [reflexivity|]); eexists; (split; [reflexivity|]); simpl.
    1-3: unfold cache_Upsert; by rewrite insert_id.
    unfold cache_Delete. destruct Hwf' as [Hptr' Hinj']. split.
    + intros id' w [_ Hid']%lookup_delete_Some. eauto.
    + intros id1 id2 q [_ H1]%lookup_delete_Some [_ H2]%lookup_delete_Some. eauto.
  - intros path value rev res service'. unfold ReplicationSpecServiceCallback.
    destruct (constructReplicationSpec env value rev) as [o [e|]];
      [intros [= <- <-]; by exists c|].
    destruct (getReplicationIdFromKey _) as [repId|]; [|done].
    rewrite (getCache_Some _ _ Hc).
    destruct (cacheSpec c (heap service) repId o) as [[c' h']|] eqn:Hcs; [|done].
    intros [= <- <-]. exists c'. split; [done|]. by apply (cacheSpec_wf _ _ _ _ _ _ Hwf Hcs).
Qed.

(** X9. Under the invariant, an add or update of a spec, an attach or
    detach of a derived object and a change notification for one identifier
    leave what [ReplicationSpec] and [GetDerviedObj] return for every other
    identifier unchanged. *)
Theorem other_ids_untouched service id' :
  service_wf service →
  (∀ sp e service',
     AddReplicationSpec env msvc service sp = Done (e, service') ∨
     SetReplicationSpec env msvc service sp = Done (e, service') →
     id' ≠ Id sp →
     ReplicationSpec service' id' = ReplicationSpec service id' ∧
     GetDerviedObj service' id' = GetDerviedObj service id') ∧
  (∀ id d e service',
     SetDerivedObj service id d = Done (e, service') →
     id' ≠ id →
     ReplicationSpec service' id' = ReplicationSpec service id' ∧
     GetDerviedObj service' id' = GetDerviedObj service id') ∧
  (∀ path value rev id d o e service',
     ReplicationSpecServiceCallback env service path value rev
       = Done (id, d, o, e, service') →
     e = None →
     id' ≠ id →
     ReplicationSpec service' id' = ReplicationSpec service id' ∧
     GetDerviedObj service' id' = GetDerviedObj service id').
Proof.
  intros (c & Hc & Hwf).
  assert (Hsame : ∀ service', cache service' = cache service →
            heap service' = heap service →
            ReplicationSpec service' id' = ReplicationSpec service id' ∧
            GetDerviedObj service' id' = GetDerviedObj service id').
  { intros service' Hc' Hh'. apply (reads_agree _ _ c c); congruence. }
  split_and!.
  - intros sp e service' H Hne.
    unfold AddReplicationSpec, SetReplicationSpec in H.
    destruct (json_Marshal env sp) as [value [e0|]].
    { destruct H as [[= <- <-]|[= <- <-]]; by apply Hsame. }
    destruct H as [H|H]; revert H.
    + destruct (AddWithCatalog _ _ _ _ _) as [m1 [e1|]]; simpl;
        [intros [= <- <-]; by apply Hsame|].
      destruct (Get msvc m1 _) as [[v1 r1] [g1|]]; simpl;
        [intros [= <- <-]; by apply Hsame|].
      unfold getCache; simpl. rewrite Hc.
      destruct (cacheSpec _ _ _ _) as [[c' h']|] eqn:Hcs; [|done].
      intros [= <- <-].
      destruct (cacheSpec_frame _ _ _ _ _ _ id' Hwf Hcs Hne) as [Hid Hcell].
      apply (reads_agree _ _ c c'); try done.
      * by rewrite writeUiLog_cache.
      * intros q Hq. rewrite writeUiLog_heap. by apply Hcell.
    + destruct (Set_ _ _ _ _ _) as [m1 [e1|]]; simpl;
        [intros [= <- <-]; by apply Hsame|].
      destruct (Get msvc m1 _) as [[v1 r1] g1]; simpl.
      unfold getCache; simpl. rewrite Hc.
      destruct (cacheSpec _ _ _ _) as [[c' h']|] eqn:Hcs; [|done].
      intros [= <- <-].
      destruct (cacheSpec_frame _ _ _ _ _ _ id' Hwf Hcs Hne) as [Hid Hcell].
      by apply (reads_agree _ _ c c').
  - intros id d e service' H Hne. revert H.
    unfold SetDerivedObj, cache_Get. rewrite (getCache_Some _ _ Hc).
    destruct (c !! id) as [v|] eqn:Hid; simpl; [|intros [= <- <-]; by apply Hsame].
    pose proof Hwf as [Hptr Hinj]. destruct (Hptr _ _ Hid) as (p & -> & Hp).
    assert (Hcell : ∀ q, c !! id' = Some (VSpecVal q) →
              deref (set_derivedObj (heap service) p d) q = deref (heap service) q).
    { intros q Hq. unfold deref, set_derivedObj. rewrite lookup_insert_ne; [done|].
      intros ->. by specialize (Hinj _ _ _ Hid Hq). }
    destruct (deref (set_derivedObj (heap service) p d) p) as [[?|] [?|]];
      intros [= <- <-];
      (eapply (reads_agree _ _ c); [done|reflexivity| |done]);
      unfold cache_Upsert, cache_Delete;
      by rewrite ?lookup_insert_ne, ?lookup_delete_ne.
  - intros path value rev id d o e service' H -> Hne. revert H.
    unfold ReplicationSpecServiceCallback.
    destruct (constructReplicationSpec env value rev) as [o' [e'|]]; [done|].
    destruct (getReplicationIdFromKey _) as [repId|]; [|done].
    rewrite (getCache_Some _ _ Hc).
    destruct (cacheSpec c (heap service) repId o') as [[c' h']|] eqn:Hcs; [|done].
    intros [= <- <- <- <-].
    destruct (cacheSpec_frame _ _ _ _ _ _ id' Hwf Hcs Hne) as [Hid Hcell].
    by apply (reads_agree _ _ c c').
Qed.

(** X10. Under the invariant the enumerations succeed and list exactly the
    specs that [ReplicationSpec] serves: the map of all specs holds a spec
    under an id if and only if the lookup of that id returns it, and the
    list of ids holds each such id once. *)
Theorem enumerations_list_served_specs service :
  service_wf service →
  ∃ specs ids,
    AllReplicationSpecs service = Done (Some specs, None) ∧
    AllReplicationSpecIds service = Done (Some ids, None) ∧
    NoDup ids ∧
    (∀ id sp, specs !! id = Some sp ↔ ReplicationSpec service id = Done (Some sp, None)) ∧
    (∀ id, id ∈ ids ↔ ∃ sp, ReplicationSpec service id = Done (Some sp, None)).
Proof.
  intros (c & Hc & [Hptr Hinj]).
  assert (Hall : map_Forall (λ _ val, is_SpecVal val = true) (cache_GetMap c)).
  { intros id v Hid. by destruct (Hptr _ _ Hid) as (p & -> & _). }
  unfold AllReplicationSpecIds, AllReplicationSpecs.
  rewrite (getCache_Some _ _ Hc). rewrite bool_decide_eq_true_2 by done.
  eexists _, _. split; [reflexivity|]. split; [reflexivity|].
  assert (Hlook : ∀ id sp,
    omap (λ val, match val with
                 | VSpecVal p => spec (deref (heap service) p)
                 | _ => None
                 end) (cache_GetMap c) !! id = Some sp
    ↔ ReplicationSpec service id = Done (Some sp, None)).
  { intros id sp. rewrite lookup_omap. unfold cache_GetMap, ReplicationSpec, cache_Get.
    rewrite (getCache_Some _ _ Hc).
    destruct (c !! id) as [[|q|]|]; simpl; try done.
    destruct (spec (deref (heap service) q)); simpl; split; intros H; by simplify_eq. }
  split_and!.
  - apply NoDup_fst_map_to_list.
  - done.
  - intros id. rewrite list_elem_of_fmap. split.
    + intros [[k sp] [-> Hin]]. apply elem_of_map_to_list in Hin.
      exists sp. by apply Hlook.
    + intros [sp Hsp]. exists (id, sp). split; [done|].
      apply elem_of_map_to_list. by apply Hlook.
Qed.

End ServiceMore.

(** * Construction of the service *)

Section InitFacts.

Context (env : Env) {M : Type} (msvc : MetadataSvc M).
Context (GetAll : M -> string -> list MetadataEntry * option error).
Implicit Types (service : ReplicationSpecService M) (c : MetadataCache) (h : Heap).

(** Over entries that all decode, the loop of [initCache] runs to its end;
    each identifier then holds the spec of the last entry that names it. *)
Lemma initCache_entries_decoded entries : ∀ specs c h,
  Forall2 (decodes env) entries specs →
  cache_wf c h →
  ∃ c' h',
    initCache_entries env c h entries = Done (Some c', None, h') ∧
    cache_wf c' h' ∧
    ∀ id, spec_at c' h' id =
            foldl (λ acc sp, if decide (id = Id sp) then Some sp else acc)
              (spec_at c h id) specs ∧
          derived_at c' h' id = derived_at c h id.
Proof.
  induction entries as [|e entries IH]; intros specs c h Hdec Hwf.
  - apply Forall2_nil_inv_l in Hdec as ->. by eexists _, _.
  - apply Forall2_cons_inv_l in Hdec as (sp & specs' & Hsp & Hdec & ->).
    simpl. unfold decodes in Hsp. rewrite Hsp.
    destruct (cacheSpec_result c h (Id sp) (Some sp) (cache_wf_not_other _ _ _ Hwf))
      as (p & Hcs).
    pose proof (cacheSpec_wf _ _ _ _ _ _ Hwf Hcs) as Hwf'.
    rewrite Hcs.
    destruct (IH specs' _ _ Hdec Hwf') as (c' & h' & Hinit & Hwf'' & Hview).
    exists c', h'. split; [done|]. split; [done|].
    intros id. destruct (Hview id) as [-> ->]. simpl.
    by destruct (cacheSpec_spec_at _ _ _ _ _ _ id Hwf Hcs) as [-> ->].
Qed.

Lemma foldl_last_spec id (specs : list ReplicationSpecification) : ∀ acc,
  id ∉ (Id <$> specs) →
  foldl (λ acc sp, if decide (id = Id sp) then Some sp else acc) acc specs = acc.
Proof.
  induction specs as [|sp specs IH]; intros acc Hnot; simpl; [done|].
  rewrite fmap_cons, not_elem_of_cons in Hnot. destruct Hnot as [Hne Hnot].
  rewrite decide_False by done. by apply IH.
Qed.

Lemma foldl_last_spec_NoDup (specs : list ReplicationSpecification) : ∀ acc sp,
  NoDup (Id <$> specs) → sp ∈ specs →
  foldl (λ acc sp', if decide (Id sp = Id sp') then Some sp' else acc) acc specs = Some sp.
Proof.
  induction specs as [|sp' specs IH]; intros acc sp Hnd Hin; [by apply elem_of_nil in Hin|].
  rewrite fmap_cons in Hnd. apply NoDup_cons in Hnd as [Hnot Hnd].
  apply elem_of_cons in Hin as [->|Hin]; simpl.
  - rewrite decide_True by done. by apply foldl_last_spec.
  - apply IH; [done|done].
Qed.

(** The loop stops at the first entry that yields no spec. *)
Lemma initCache_entries_stops pre : ∀ specs e post c h err,
  Forall2 (decodes env) pre specs →
  cache_wf c h →
  (constructReplicationSpec env (Value e) (Rev e)).1 = None →
  (constructReplicationSpec env (Value e) (Rev e)).2 = err →
  ∃ h', initCache_entries env c h (pre ++ e :: post)%list = Done (None, err, h').
Proof.
  induction pre as [|e0 pre IH]; intros specs e post c h err Hdec Hwf Hnone Herr.
  - simpl. destruct (constructReplicationSpec env (Value e) (Rev e)) as [[sp|] o];
      simpl in *; [done|]. subst err. destruct o; eauto.
  - apply Forall2_cons_inv_l in Hdec as (sp & specs' & Hsp & Hdec & ->).
    simpl. unfold decodes in Hsp. rewrite Hsp.
    destruct (cacheSpec_result c h (Id sp) (Some sp) (cache_wf_not_other _ _ _ Hwf))
      as (p & Hcs).
    pose proof (cacheSpec_wf _ _ _ _ _ _ Hwf Hcs) as Hwf'.
    rewrite Hcs. by eapply IH.
Qed.

(** X11. When the catalog lists entries that all decode, to specs with
    distinct ids, [NewReplicationSpecService] returns a service whose cache
    satisfies the invariant and serves exactly those specs: each of them
    under its id, not-found for every other id, and no derived object
    anywhere. *)
Theorem NewReplicationSpecService_loads_catalog uilog m entries specs :
  GetAll m ReplicationSpecsCatalogKey = (entries, None) →
  Forall2 (decodes env) entries specs →
  NoDup (Id <$> specs) →
  ∃ service,
    NewReplicationSpecService env GetAll uilog m = Done (Some service, None) ∧
    service_wf service ∧
    metadata_store service = m ∧
    (∀ sp, sp ∈ specs → ReplicationSpec service (Id sp) = Done (Some sp, None)) ∧
    (∀ id, id ∉ (Id <$> specs) →
           ReplicationSpec service id = Done (None, Some not_found_error)) ∧
    (∀ id, GetDerviedObj service id = Done (None, None) ∨
           GetDerviedObj service id = Done (None, Some not_found_error)).
Proof.
  intros Hget Hdec Hnd. unfold NewReplicationSpecService, initCache. simpl. rewrite Hget.
  destruct (initCache_entries_decoded entries specs ∅ ∅ Hdec cache_wf_empty)
    as (c' & h' & -> & Hwf & Hview).
  eexists. split; [reflexivity|]. split; [by eexists|]. split; [done|].
  assert (Hread : ∀ id, ReplicationSpec
            (with_cache {| metadata_store := m; uilog_svc := uilog;
                           cache := None; heap := ∅ |} c' h') id =
            match spec_at c' h' id with
            | Some sp => Done (Some sp, None)
            | None => Done (None, Some not_found_error)
            end).
  { intros id. apply ReplicationSpec_spec_at; [done|]. by apply (cache_wf_not_other _ h'). }
  split_and!.
  - intros sp Hin. rewrite Hread. destruct (Hview (Id sp)) as [-> _].
    by rewrite (foldl_last_spec_NoDup specs _ sp Hnd Hin).
  - intros id Hnot. rewrite Hread. destruct (Hview id) as [-> _].
    rewrite foldl_last_spec by done.
    unfold spec_at. by rewrite lookup_empty.
  - intros id. unfold GetDerviedObj, getCache, cache_Get. simpl.
    destruct (c' !! id) as [v|] eqn:Hid; [|by right].
    destruct Hwf as [Hptr _]. destruct (Hptr _ _ Hid) as (p & -> & _). simpl.
    left. destruct (Hview id) as [_ Hd]. unfold derived_at in Hd.
    rewrite Hid, lookup_empty in Hd. by rewrite Hd.
Qed.

(** X12. [initCache] stops at the first catalog entry that yields no spec.
    If that entry fails to decode, the construction fails with the decoding
    error.  Otherwise the entry has a nil value, and the construction
    returns a service with no error and no cache at all, the entries loaded
    before it being lost: every lookup then reports that the cache cannot
    be instantiated. *)
Theorem initCache_stops_at_first_bad_entry uilog m pre specs e post :
  GetAll m ReplicationSpecsCatalogKey = ((pre ++ e :: post)%list, None) →
  Forall2 (decodes env) pre specs →
  (constructReplicationSpec env (Value e) (Rev e)).1 = None →
  match (constructReplicationSpec env (Value e) (Rev e)).2 with
  | Some err => NewReplicationSpecService env GetAll uilog m = Done (None, Some err)
  | None =>
      Value e = None ∧
      ∃ service,
        NewReplicationSpecService env GetAll uilog m = Done (Some service, None) ∧
        cache service = None ∧
        ∀ id, ReplicationSpec service id
                = Done (None, Some (ErrorString "Can't instantiate cahe"))
  end.
Proof.
  intros Hget Hdec Hnone. unfold NewReplicationSpecService, initCache. simpl. rewrite Hget.
  destruct (initCache_entries_stops pre specs e post ∅ ∅ _ Hdec cache_wf_empty Hnone eq_refl)
    as (h' & ->).
  destruct (constructReplicationSpec env (Value e) (Rev e)) as [o [err|]] eqn:Hc;
    simpl in *; [done|].
  split.
  - unfold constructReplicationSpec in Hc. destruct (Value e) as [value|]; [|done].
    destruct (json_Unmarshal env value) as [sp [?|]]; simplify_eq/=.
  - eexists. split; [reflexivity|]. split; [done|]. done.
Qed.

End InitFacts.

(** * Validation of existing specs, and construction of new ones *)

Section ValidationMore.

Context (env : Env) {M : Type} (msvc : MetadataSvc M).
Implicit Types (service : ReplicationSpecService M) (c : MetadataCache) (h : Heap).

Lemma ValidateExisting_live sp :
  (xdcr_comp_topology_svc_MyConnectionStr env).1 ≠ EmptyString →
  spec_is_live env sp →
  ValidateExistingReplicationSpec env sp = Done (None, None).
Proof.
  intros Hne (Hes & Hsu & ref & Hr & Hcs & Hcr & Het & Htu).
  unfold ValidateExistingReplicationSpec.
  destruct (xdcr_comp_topology_svc_MyConnectionStr env) as [cs e0]. simpl in *.
  rewrite decide_False by done.
  destruct (utils_LocalBucketUUID env cs (SourceBucketName sp)) as [su es]; simpl in *.
  rewrite decide_False by done.
  rewrite decide_False by (intros [? ?]; destruct Hsu; congruence).
  rewrite Hr.
  destruct (MyConnectionStr ref) as [rc e2]; simpl in *; subst e2.
  destruct (MyCredentials ref) as [[ru rp] e3]; simpl in *; subst e3.
  destruct (utils_RemoteBucketUUID env rc ru rp (TargetBucketName sp)) as [tu et];
    simpl in *.
  rewrite decide_False by done.
  by rewrite decide_False by (intros [? ?]; destruct Htu; congruence).
Qed.

(** The UUIDs [ValidateNewReplicationSpec] returns are the ones its probes
    returned, and empty when validation ends early. *)
Lemma ValidateNew_uuids service src tcl tgt settings su tu r m :
  ValidateNewReplicationSpec env service src tcl tgt settings = Done (su, tu, r, m) →
  match r with
  | Some ref =>
      su = (utils_LocalBucketUUID env (xdcr_comp_topology_svc_MyConnectionStr env).1 src).1 ∧
      tu = (utils_RemoteBucketUUID env (MyConnectionStr ref).1 (MyCredentials ref).1.1
              (MyCredentials ref).1.2 tgt).1
  | None => su = EmptyString ∧ tu = EmptyString
  end.
Proof.
  unfold ValidateNewReplicationSpec.
  destruct (xdcr_comp_topology_svc_MyConnectionStr env) as [cs e0]; simpl.
  case_decide; [intros [=]|].
  destruct (utils_LocalBucketUUID env cs src) as [lu es]; simpl.
  destruct (remote_cluster_svc_RemoteClusterByRefName env tcl false) as [oref [e1|]]; simpl.
  { by intros [= <- <- <- <-]. }
  destruct (xdcr_comp_topology_svc_MyClusterUuid env) as [lcu e2]; simpl.
  destruct (decide (src = tgt)) as [Hsame|Hdiff];
    [destruct e2 as [e2|]; [intros [=]|]; destruct oref as [ref|]; [|intros [=]];
     case_bool_decide; [by intros [= <- <- <- <-]|]
    |destruct oref as [ref|]; [|intros [=]]].
  all: destruct (MyConnectionStr ref) as [rc [e3|]] eqn:Hcs; simpl;
    [by intros [= <- <- <- <-]|].
  all: destruct (MyCredentials ref) as [[ru rp] [e4|]] eqn:Hcr; simpl;
    [by intros [= <- <- <- <-]|].
  all: destruct (utils_RemoteBucketUUID env rc ru rp tgt) as [tu' et] eqn:Hrb; simpl.
  all: destruct (ReplicationSpec service _) as [[s0 err]|]; [|intros [=]].
  all: intros [= <- <- <- <-]; rewrite Hcs, Hcr; simpl; by rewrite Hrb.
Qed.

(** X13. With a local connection string, [ValidateExistingReplicationSpec]
    returns no error exactly when the spec is live: both buckets exist with
    the UUIDs the spec captured and the cluster reference is found and
    usable.  A detail error is only ever returned together with
    [InvalidReplicationSpecError]; the one way to get that error without a
    detail is for the reference lookup itself to return it. *)
Theorem ValidateExisting_valid_iff_live sp :
  (xdcr_comp_topology_svc_MyConnectionStr env).1 ≠ EmptyString →
  (ValidateExistingReplicationSpec env sp = Done (None, None) ↔ spec_is_live env sp) ∧
  (∀ e d, ValidateExistingReplicationSpec env sp = Done (e, d) →
          (is_Some d → e = Some InvalidReplicationSpecError) ∧
          (e = Some InvalidReplicationSpecError → d = None →
             (remote_cluster_svc_RemoteClusterByUuid env (TargetClusterUUID sp) false).2
               = Some InvalidReplicationSpecError)).
Proof.
  intros Hne. unfold ValidateExistingReplicationSpec, spec_is_live.
  destruct (xdcr_comp_topology_svc_MyConnectionStr env) as [cs e0]. simpl in *.
  rewrite decide_False by done.
  destruct (utils_LocalBucketUUID env cs (SourceBucketName sp)) as [su es]; simpl.
  case_decide as Hes.
  { split; [split; [done|by intros [? _]]|].
    intros e d [= <- <-]. split; [done|by intros]. }
  case_decide as Hsu.
  { split; [split; [done|]|].
    - intros (_ & [?|?] & _); destruct Hsu; congruence.
    - intros e d [= <- <-]. split; [done|by intros]. }
  destruct (remote_cluster_svc_RemoteClusterByUuid env (TargetClusterUUID sp) false)
    as [oref [e1|]]; simpl.
  { destruct (decide (e1 = MetadataNotFoundErr)) as [->|Hnf].
    - split; [split; [done|by intros (_ & _ & ? & [=] & _)]|].
      intros e d [= <- <-]. split; [done|by intros].
    - assert (match e1 with
              | MetadataNotFoundErr =>
                  Done (Some InvalidReplicationSpecError,
                        Some (ErrorString
                                ("spec " +:+ Id sp
                                 +:+ " refers to non-existent remote cluster reference "
                                 +:+ dquote +:+ TargetClusterUUID sp +:+ dquote)))
              | _ => Done (Some e1, None)
              end = Done (Some e1, @None error)) as -> by by destruct e1.
      split; [split; [done|by intros (_ & _ & ? & [=] & _)]|].
      intros e d [= <- <-]. split; [by intros [? [=]]|]. by intros [= ->]. }
  destruct oref as [ref|].
  2:{ split; [split; [done|by intros (_ & _ & ? & [=] & _)]|]. done. }
  destruct (MyConnectionStr ref) as [rc [e2|]] eqn:Hcs; simpl.
  { split; [split; [done|]|].
    - intros (_ & _ & ref' & [= <-] & Hc' & _). by rewrite Hcs in Hc'.
    - intros e d [= <- <-]. split; [done|by intros]. }
  destruct (MyCredentials ref) as [[ru rp] [e3|]] eqn:Hcr; simpl.
  { split; [split; [done|]|].
    - intros (_ & _ & ref' & [= <-] & _ & Hc' & _). by rewrite Hcr in Hc'.
    - intros e d [= <- <-]. split; [done|by intros]. }
  destruct (utils_RemoteBucketUUID env rc ru rp (TargetBucketName sp)) as [tu et] eqn:Hrb.
  case_decide as Het.
  { split; [split; [done|]|].
    - intros (_ & _ & ref' & [= <-] & _ & _ & Hc' & _).
      rewrite Hcs, Hcr in Hc'. simpl in Hc'. by rewrite Hrb in Hc'.
    - intros e d [= <- <-]. split; [done|by intros]. }
  case_decide as Htu.
  { split; [split; [done|]|].
    - intros (_ & _ & ref' & [= <-] & _ & _ & _ & Hc').
      rewrite Hcs, Hcr in Hc'. simpl in Hc'. rewrite Hrb in Hc'. simpl in Hc'.
      destruct Htu, Hc'; congruence.
    - intros e d [= <- <-]. split; [done|by intros]. }
  split.
  - split; [intros _|done].
    split; [done|]. split.
    { destruct (decide (SourceBucketUUID sp = EmptyString)); [by left|right].
      destruct (decide (SourceBucketUUID sp = su)); [done|]. by destruct Hsu. }
    exists ref. rewrite Hcs, Hcr. simpl. rewrite Hrb. simpl.
    split_and!; try done.
    destruct (decide (TargetBucketUUID sp = EmptyString)); [by left|right].
    destruct (decide (TargetBucketUUID sp = tu)); [done|]. by destruct Htu.
  - intros e d [= <- <-]. split; [by intros [? [=]]|done].
Qed.

(** X14. [ValidateAndGC] returns the service unchanged (nothing deleted,
    nothing logged) when the spec is live, when validation fails with an
    error other than [InvalidReplicationSpecError], and when the spec is
    invalid but is not served by the cache (never cached, or already
    soft-removed). *)
Theorem ValidateAndGC_noop service sp :
  (xdcr_comp_topology_svc_MyConnectionStr env).1 ≠ EmptyString →
  (spec_is_live env sp → ValidateAndGC env msvc service sp = Done service) ∧
  (∀ e, ValidateExistingReplicationSpec env sp = Done (Some e, None) →
        e ≠ InvalidReplicationSpecError →
        ValidateAndGC env msvc service sp = Done service) ∧
  (∀ c detail,
     ValidateExistingReplicationSpec env sp
       = Done (Some InvalidReplicationSpecError, Some detail) →
     cache service = Some c →
     (c !! Id sp = None ∨
      ∃ p, c !! Id sp = Some (VSpecVal p) ∧ spec (deref (heap service) p) = None) →
     ValidateAndGC env msvc service sp = Done service).
Proof.
  intros Hne. split_and!.
  - intros Hlive. apply (ValidateExisting_live sp Hne) in Hlive.
    by apply (ValidateAndGC_not_invalid env msvc service sp None None).
  - intros e Hv He.
    apply (ValidateAndGC_not_invalid env msvc service sp (Some e) None); [done|].
    by intros [= ->].
  - intros c detail Hv Hc Hid. unfold ValidateAndGC. rewrite Hv, decide_True by done.
    unfold delReplicationSpec_internal.
    by rewrite (ReplicationSpec_unserved service c (Id sp) Hc Hid).
Qed.

(** X15. A spec that [ConstructNewReplicationSpec] returns is the record
    [NewReplicationSpecification] builds from the three arguments and the
    two probed UUIDs: the source UUID is the one the local probe returned
    without an error, and the target UUID is the one the remote probe
    returned without an error through the reference the target cluster UUID
    resolves to, with the connection string and the credentials of that
    reference.  The spec passes [ValidateExistingReplicationSpec] in the
    same environment. *)
Theorem ConstructNew_then_ValidateExisting src u tgt sp :
  ConstructNewReplicationSpec env src u tgt = Done (Some sp, None) →
  sp = NewReplicationSpecification src (SourceBucketUUID sp) u tgt (TargetBucketUUID sp) ∧
  utils_LocalBucketUUID env (xdcr_comp_topology_svc_MyConnectionStr env).1 src
    = (SourceBucketUUID sp, None) ∧
  (∃ ref,
     remote_cluster_svc_RemoteClusterByUuid env u false = (Some ref, None) ∧
     (MyConnectionStr ref).2 = None ∧
     (MyCredentials ref).2 = None ∧
     utils_RemoteBucketUUID env (MyConnectionStr ref).1 (MyCredentials ref).1.1
       (MyCredentials ref).1.2 tgt = (TargetBucketUUID sp, None)) ∧
  ValidateExistingReplicationSpec env sp = Done (None, None).
Proof.
  unfold ConstructNewReplicationSpec, sourceBucketUUID, targetBucketUUID,
    ValidateExistingReplicationSpec.
  destruct (xdcr_comp_topology_svc_MyConnectionStr env) as [cs e0].
  case_decide; [intros [=]|].
  destruct (utils_LocalBucketUUID env cs src) as [su [es|]] eqn:Hl; simpl; [intros [=]|].
  destruct (remote_cluster_svc_RemoteClusterByUuid env u false) as [oref [e1|]] eqn:Hr;
    simpl; [by destruct oref; intros [=]|].
  destruct oref as [ref|]; simpl; [|intros [=]].
  destruct (MyConnectionStr ref) as [rc [e2|]] eqn:Hcs; simpl; [intros [=]|].
  destruct (MyCredentials ref) as [[ru rp] [e3|]] eqn:Hcr; simpl; [intros [=]|].
  destruct (utils_RemoteBucketUUID env rc ru rp tgt) as [tu [et|]] eqn:Hrb; simpl;
    [intros [=]|].
  intros [= <-]. simpl. split; [done|]. split; [done|].
  split.
  { exists ref. rewrite Hcs, Hcr. simpl. by rewrite Hrb. }
  rewrite Hl, Hr, Hcs, Hcr, Hrb.
  rewrite decide_False by done.
  rewrite decide_False by (intros [_ ?]; done).
  rewrite decide_False by done.
  rewrite decide_False by (intros [_ ?]; done). done.
Qed.

(** X16. When [ValidateNewReplicationSpec] returns an empty error map, it
    returns the reference the name resolves to and the UUIDs its two bucket
    probes returned; neither probe reported a missing bucket, no spec is
    served under the id of the new replication, and where the version check
    applies the target cluster passed it. *)
Theorem ValidateNew_empty_error_map service src tcl tgt settings su tu r :
  ValidateNewReplicationSpec env service src tcl tgt settings = Done (su, tu, r, ∅) →
  ∃ ref,
    r = Some ref ∧
    remote_cluster_svc_RemoteClusterByRefName env tcl false = (Some ref, None) ∧
    let source :=
      utils_LocalBucketUUID env (xdcr_comp_topology_svc_MyConnectionStr env).1 src in
    let target :=
      utils_RemoteBucketUUID env (MyConnectionStr ref).1 (MyCredentials ref).1.1
        (MyCredentials ref).1.2 tgt in
    su = source.1 ∧ source.2 ≠ Some NonExistentBucketError ∧
    tu = target.1 ∧ target.2 ≠ Some NonExistentBucketError ∧
    (∀ s, ReplicationSpec service (ReplicationId src (Uuid ref) tgt) ≠ Done (s, None)) ∧
    (xmem_check_applies settings →
       cluster_info_svc_IsClusterCompatible env ref [2; 2]%Z = (true, None)).
Proof.
  intros H. pose proof (ValidateNew_uuids _ _ _ _ _ _ _ _ _ H) as Hu.
  pose proof (ValidateNewReplicationSpec_report env service src tcl tgt settings) as Hrep.
  rewrite H in Hrep. clear H. unfold validation_report in Hrep.
  simpl in Hrep. destruct Hrep as [Hfrom H].
  destruct r as [ref|].
  - destruct H as (Hl & Hto & Hdup & Hcompat). destruct Hu as [-> ->].
    rewrite lookup_empty in *.
    exists ref. split; [done|]. split; [done|]. simpl.
    split_and!; try done.
    + intros Hx. apply Hfrom in Hx. by destruct Hx.
    + intros Hx. apply Hto in Hx. by destruct Hx.
    + intros s Hs. assert (is_Some (@None error)) as [? [=]]. apply Hdup. eauto.
    + intros Hx.
      destruct (cluster_info_svc_IsClusterCompatible env ref [2; 2]%Z) as [[] [e|]];
        try done; simpl in *.
      all: assert (is_Some (@None error)) as [? [=]]; apply Hcompat;
        (split; [done|]); eauto.
  - exfalso. destruct H as (_ & [H|[H|[H|H]]]).
    + destruct H as (e & _ & H & _). by rewrite lookup_empty in H.
    + destruct H as (ref & _ & _ & _ & H & _). by rewrite lookup_empty in H.
    + destruct H as (ref & e & _ & _ & H & _). by rewrite lookup_empty in H.
    + destruct H as (ref & e & _ & _ & H & _). by rewrite lookup_empty in H.
Qed.

(** X17. [IsReplicationValidationError] classifies the errors of the
    lookups: with an instantiated cache every error that [ReplicationSpec],
    [GetDerviedObj] and [SetDerivedObj] return is a validation error; with
    no cache the error they return is not one. *)
Theorem lookup_errors_are_validation_errors service id :
  (∀ c, cache service = Some c →
     (∀ r e, ReplicationSpec service id = Done (r, Some e) →
             IsReplicationValidationError (Some e) = true) ∧
     (∀ r e, GetDerviedObj service id = Done (r, Some e) →
             IsReplicationValidationError (Some e) = true) ∧
     (∀ d e service', SetDerivedObj service id d = Done (Some e, service') →
                      IsReplicationValidationError (Some e) = true)) ∧
  (cache service = None →
     ∃ e, IsReplicationValidationError (Some e) = false ∧
          ReplicationSpec service id = Done (None, Some e) ∧
          GetDerviedObj service id = Done (None, Some e) ∧
          ∀ d, SetDerivedObj service id d = Done (Some e, service)).
Proof.
  assert (Hnf : IsReplicationValidationError (Some not_found_error) = true)
    by (vm_compute; reflexivity).
  split.
  - intros c Hc. split_and!.
    + intros r e. unfold ReplicationSpec, cache_Get. rewrite (getCache_Some _ _ Hc).
      destruct (c !! id) as [[|q|]|]; simpl; try (by intros [= <- <-]); try done.
      destruct (spec (deref (heap service) q)); simpl; [done|by intros [= <- <-]].
    + intros r e. unfold GetDerviedObj, cache_Get. rewrite (getCache_Some _ _ Hc).
      destruct (c !! id) as [[|q|]|]; simpl; try (by intros [= <- <-]); done.
    + intros d e service'. unfold SetDerivedObj, cache_Get. rewrite (getCache_Some _ _ Hc).
      destruct (c !! id) as [[|q|]|]; simpl; try (by intros [= <- <-]); try done.
      by destruct (deref _ q) as [[?|] [?|]].
  - intros Hc. exists (ErrorString "Can't instantiate cahe").
    split; [vm_compute; reflexivity|].
    unfold ReplicationSpec, GetDerviedObj, SetDerivedObj, getCache. by rewrite Hc.
Qed.

(** X23. Garbage collection is the delete by id: for a spec that
    [ValidateExistingReplicationSpec] finds invalid, [ValidateAndGC] leaves
    the service as [DelReplicationSpec] of the id of the spec leaves it,
    whatever the detail error is.  The outcome of the delete is dropped, and
    the reason handed to the internal delete reaches neither the store nor
    the UI log. *)
Theorem ValidateAndGC_is_delete_by_id service sp detail :
  ValidateExistingReplicationSpec env sp
    = Done (Some InvalidReplicationSpecError, Some detail) →
  ValidateAndGC env msvc service sp =
    match DelReplicationSpec env msvc service (Id sp) with
    | Done (_, _, service') => Done service'
    | Panic msg => Panic msg
    end.
Proof.
  intros Hv. unfold ValidateAndGC. rewrite Hv, decide_True by done.
  reflexivity.
Qed.

(** X24. The UI log: [writeUiLog] appends one message to a sink that is
    present and does nothing without one.  A successful add writes the
    message of the creation of the spec, a successful delete the message of
    its removal, with an empty reason whatever reason was passed; an update,
    an attach or detach of a derived object and a change notification write
    nothing. *)
Theorem uilog_accounting service :
  (∀ sp action reason,
     match uilog_svc service with
     | Some log =>
         ∃ msg, uilog_svc (writeUiLog env service sp action reason)
                  = Some (log ++ [msg])%list
     | None => writeUiLog env service sp action reason = service
     end) ∧
  (∀ sp service',
     AddReplicationSpec env msvc service sp = Done (None, service') →
     uilog_svc service' = uilog_svc (writeUiLog env service sp "created" EmptyString)) ∧
  (∀ id reason sp service',
     delReplicationSpec_internal env msvc service id reason
       = Done (Some sp, None, service') →
     uilog_svc service' = uilog_svc (writeUiLog env service sp "removed" EmptyString)) ∧
  (∀ sp e service',
     SetReplicationSpec env msvc service sp = Done (e, service') →
     uilog_svc service' = uilog_svc service) ∧
  (∀ id d e service',
     SetDerivedObj service id d = Done (e, service') →
     uilog_svc service' = uilog_svc service) ∧
  (∀ path value rev res service',
     ReplicationSpecServiceCallback env service path value rev = Done (res, service') →
     uilog_svc service' = uilog_svc service).
Proof.
  split_and!.
  - intros sp action reason. unfold writeUiLog.
    destruct (uilog_svc service) as [log|]; [|done]. simpl. eauto.
  - intros sp service'. unfold AddReplicationSpec.
    destruct (json_Marshal env sp) as [value [e|]]; [done|].
    destruct (AddWithCatalog _ _ _ _ _) as [m1 [e1|]]; simpl; [done|].
    destruct (Get msvc m1 _) as [[v1 r1] [g1|]]; simpl; [done|].
    unfold getCache; simpl. destruct (cache service) as [c|]; simpl; [|done].
    destruct (cacheSpec _ _ _ _) as [[c' h']|]; [|done].
    intros [= <-]. unfold writeUiLog. simpl. by destruct (uilog_svc service).
  - intros id reason sp service'. unfold delReplicationSpec_internal.
    destruct (ReplicationSpec service id) as [[[sp0|] [e0|]]|]; try done.
    destruct (DelWithCatalog _ _ _ _ _) as [m1 [e1|]]; simpl; [done|].
    unfold getCache; simpl. destruct (cache service) as [c|]; simpl; [|done].
    destruct (cache_Get c _) as [val ok].
    intros [= <- <-]. unfold writeUiLog. simpl. by destruct (uilog_svc service).
  - intros sp e service'. unfold SetReplicationSpec.
    destruct (json_Marshal env sp) as [value [e0|]]; [by intros [= <- <-]|].
    destruct (Set_ _ _ _ _ _) as [m1 [e1|]]; simpl; [by intros [= <- <-]|].
    destruct (Get msvc m1 _) as [[v1 r1] g1]; simpl.
    unfold getCache; simpl. destruct (cache service) as [c|]; simpl; [|done].
    destruct (cacheSpec _ _ _ _) as [[c' h']|]; [|done].
    by intros [= <- <-].
  - intros id d e service'. unfold SetDerivedObj, getCache.
    destruct (cache service) as [c|]; simpl; [|by intros [= <- <-]].
    destruct (cache_Get c id) as [[|q|] []]; try done; try (by intros [= <- <-]).
    by destruct (deref _ q) as [[?|] [?|]]; intros [= <- <-].
  - intros path value rev res service'. unfold ReplicationSpecServiceCallback.
    destruct (constructReplicationSpec env value rev) as [o [e|]];
      [by intros [= <- <-]|].
    destruct (getReplicationIdFromKey _) as [repId|]; [|done].
    unfold getCache. destruct (cache service) as [c|]; simpl; [|by intros [= <- <-]].
    destruct (cacheSpec c (heap service) repId o) as [[c' h']|]; [|done].
    by intros [= <- <-].
Qed.

End ValidationMore.

(** * Further properties of the generic supervisor *)

Section SupervisorMore.
Import supervisor.

(** What the loop of [processReport] leaves in its two maps, child by child. *)
Lemma processReport_fold threshold (report : gmap string heartbeatRespStatus)
    (old : gmap string Z) :
  let '(missedMap, broken) :=
    map_fold (processReport_step threshold) (old, ∅) report in
  ∀ c,
    missedMap !! c =
      match report !! c with
      | None => old !! c
      | Some status =>
          Some (if missed status then uint16_incr (default 0%Z (old !! c)) else 0%Z)
      end ∧
    broken !! c =
      match report !! c with
      | None => None
      | Some status =>
          if missed status && bool_decide (uint16_incr (default 0%Z (old !! c)) > threshold)%Z
          then Some (ErrorString "Not responding") else None
      end.
Proof.
  apply (map_fold_weak_ind
    (λ acc (m : gmap string heartbeatRespStatus),
       let '(missedMap, broken) := acc in
       ∀ c,
         missedMap !! c =
           match m !! c with
           | None => old !! c
           | Some status =>
               Some (if missed status then uint16_incr (default 0%Z (old !! c)) else 0%Z)
           end ∧
         broken !! c =
           match m !! c with
           | None => None
           | Some status =>
               if missed status
                  && bool_decide (uint16_incr (default 0%Z (old !! c)) > threshold)%Z
               then Some (ErrorString "Not responding") else None
           end)).
  - intros c. by rewrite !lookup_empty.
  - intros i status m [mm br] Hi IH.
    destruct (IH i) as [Hmi Hbi]. rewrite Hi in Hmi, Hbi.
    unfold processReport_step, missed.
    destruct (decide (status = respondedNotOk ∨ status = notYetResponded)) as [Hm|Hm].
    + rewrite Hmi.
      destruct (decide (uint16_incr (default 0 (old !! i)) > threshold)%Z) as [Hgt|Hgt];
        intros c; (destruct (decide (c = i)) as [->|Hne];
          [|rewrite !lookup_insert_ne by done; apply IH]).
      * rewrite !lookup_insert_eq, bool_decide_eq_true_2 by done.
        by rewrite bool_decide_eq_true_2.
      * rewrite !lookup_insert_eq, bool_decide_eq_true_2 by done.
        rewrite Hbi. by rewrite bool_decide_eq_false_2.
    + intros c. destruct (decide (c = i)) as [->|Hne].
      * rewrite !lookup_insert_eq, bool_decide_eq_false_2 by done. by rewrite Hbi.
      * rewrite !lookup_insert_ne by done. apply IH.
Qed.

(** A report without a missed beat resets the counters of the children it
    names and changes nothing else. *)
Lemma processReport_quiet s (report : gmap string heartbeatRespStatus) :
  (∀ c status, report !! c = Some status → missed status = false) →
  processReport s report =
    with_childrenBeatMissedMap s (childrenBeatMissedMap (processReport s report)) ∧
  ∀ c, childrenBeatMissedMap (processReport s report) !! c =
         match report !! c with
         | None => childrenBeatMissedMap s !! c
         | Some _ => Some 0%Z
         end.
Proof.
  intros Hquiet. unfold processReport.
  pose proof (processReport_fold (missed_heartbeat_threshold s) report
                (childrenBeatMissedMap s)) as Hfold.
  destruct (map_fold _ _ report) as [mm br].
  assert (br = ∅) as ->.
  { apply map_empty. intros c. destruct (Hfold c) as [_ ->].
    destruct (report !! c) as [st|] eqn:Hst; [|done]. by rewrite (Hquiet _ _ Hst). }
  rewrite map_size_empty. destruct (decide (0 < 0)); [lia|]. simpl.
  split; [done|]. intros c. destruct (Hfold c) as [-> _].
  destruct (report !! c) as [st|] eqn:Hst; [|done]. by rewrite (Hquiet _ _ Hst).
Qed.

Lemma round_report s r c :
  waitForResponse_report r (sendHeartBeats_report s r) !! c
    = (λ _, round_status r c) <$> children s !! c.
Proof.
  unfold waitForResponse_report, sendHeartBeats_report, round_status.
  rewrite !map_lookup_imap.
  destruct (children s !! c); simpl; [|done].
  destruct (HeartBeat_async_fails r c); simpl; [done|].
  by destruct (responds_in_time r c).
Qed.

Lemma tick_children s r : children (tick s r) = children s.
Proof.
  unfold tick. destruct (finch_closed s); [done|].
  destruct (heartbeat_ticker s) as [[]|]; try done.
  case_decide; [|done]. unfold processReport.
  destruct (map_fold _ _ _) as [mm br].
  case_decide; [|done]. unfold ReportFailure. simpl.
  by destruct (heartbeat_ticker s).
Qed.

Lemma tick_not_missing s r :
  finch_closed s = false →
  heartbeat_ticker s = Some true →
  (∀ c, is_Some (children s !! c) → not_missing r c) →
  finch_closed (tick s r) = false ∧
  heartbeat_ticker (tick s r) = Some true ∧
  failure_handler_calls (tick s r) = failure_handler_calls s ∧
  (∀ c, is_Some (children s !! c) → childrenBeatMissedMap (tick s r) !! c = Some 0%Z).
Proof.
  intros Hfin Htick Hok. unfold tick. rewrite Hfin, Htick.
  case_decide as Hsize.
  2:{ split_and!; try done. intros c Hc.
      assert (size (children s) ≠ 0); [|lia]. apply map_size_ne_0_lookup. eauto. }
  set (s1 := with_resp_waiter_chs s (resp_waiter_chs s ++ [None])).
  set (report := waitForResponse_report r (sendHeartBeats_report s r)).
  assert (Hstatus : ∀ c st, report !! c = Some st → missed st = false).
  { intros c st. unfold report. rewrite round_report.
    destruct (children s !! c) eqn:Hc; simpl; [|done]. intros [= <-].
    unfold round_status. destruct (Hok c) as [->| Hr]; [by eexists|done|].
    destruct (HeartBeat_async_fails r c); [done|]. by rewrite Hr. }
  destruct (processReport_quiet s1 report Hstatus) as [Heq Hcount].
  rewrite Heq. split_and!; try done.
  intros c [ch Hc]. simpl. rewrite Hcount. unfold report.
  by rewrite round_report, Hc.
Qed.

(** X18. The registry of children: after [AddChild] the child is found
    under its id, after [RemoveChild] it is not (the lookup returns an
    error), and neither changes what [Child] returns for any other id. *)
Theorem children_registry (store : Store) p childId child :
  is_Some (store !! p) →
  (∃ store',
     AddChild store p childId child = Done (None, store') ∧
     Child store' p childId = Done (Some child, None) ∧
     ∀ other, other ≠ childId → Child store' p other = Child store p other) ∧
  (∃ store' err,
     RemoveChild store (Some p) childId = Done (None, store') ∧
     Child store' p childId = Done (None, Some err) ∧
     ∀ other, other ≠ childId → Child store' p other = Child store p other).
Proof.
  intros [s Hp]. split.
  - unfold AddChild. rewrite Hp. eexists. split; [reflexivity|].
    unfold Child. rewrite lookup_insert_eq, Hp. simpl. rewrite lookup_insert_eq.
    split; [done|]. intros other Hne. by rewrite lookup_insert_ne.
  - unfold RemoveChild. rewrite Hp. eexists _, _. split; [reflexivity|].
    unfold Child. rewrite lookup_insert_eq, Hp. simpl. rewrite lookup_delete_eq.
    split; [done|]. intros other Hne. by rewrite lookup_delete_ne.
Qed.

(** X19. A supervisor created under a parent is registered as a child of
    the parent under its own id, stays registered once started, and is
    removed from the parent's children by [Stop], which returns whatever
    the stop of the embedded server returned. *)
Theorem supervisor_lifecycle ValidateSettings (store : Store) q sq name settings store2 p
    Stop_server_err :
  store !! q = Some sq →
  (∃ store1, NewGenericSupervisor store name (Some q) = Done (p, store1) ∧
             Start ValidateSettings store1 p settings = Done (None, store2)) →
  store !! p = None ∧
  Child store2 q name = Done (Some (SupervisorChild p), None) ∧
  ∃ store3 sq3,
    Stop store2 p Stop_server_err = Done (Stop_server_err, store3) ∧
    store3 !! q = Some sq3 ∧
    children sq3 = delete name (children sq) ∧
    (∃ err, Child store3 q name = Done (None, Some err)).
Proof.
  intros Hq (store1 & Hnew & Hstart).
  unfold NewGenericSupervisor in Hnew.
  assert (Hfresh : store !! fresh (dom store) = None)
    by apply not_elem_of_dom, is_fresh.
  assert (Hne : fresh (dom store) ≠ q) by (intros Heq; rewrite Heq in Hfresh; congruence).
  unfold AddChild in Hnew. rewrite lookup_insert_ne, Hq in Hnew by done.
  injection Hnew as <- <-.
  split; [done|].
  unfold Start in Hstart. rewrite lookup_insert_ne, lookup_insert_eq in Hstart by done.
  destruct (Init _ _ _) as [[[e|] s]|] eqn:Hinit; try done.
  case_decide; [done|]. injection Hstart as <-.
  assert (Hs : id s = name ∧ parent_supervisor s = Some q ∧ finch_closed s = false).
  { revert Hinit. unfold Init. destruct (ValidateSettings settings); [done|].
    destruct (settings !! HEARTBEAT_INTERVAL) as [[]|];
      destruct (settings !! HEARTBEAT_TIMEOUT) as [[]|]; try done;
      by intros [= <-]. }
  destruct Hs as (Hid & Hparent & Hfin).
  split.
  { unfold Child. rewrite lookup_insert_ne, lookup_insert_eq by done. simpl.
    by rewrite lookup_insert_eq. }
  unfold Stop. rewrite lookup_insert_eq. simpl. rewrite Hfin. simpl.
  rewrite Hparent, Hid. unfold RemoveChild.
  rewrite lookup_insert_ne, lookup_insert_ne, lookup_insert_eq by done. simpl.
  eexists _, _. split; [reflexivity|].
  rewrite lookup_insert_eq. split; [reflexivity|]. simpl.
  split; [by rewrite delete_insert_eq|].
  unfold Child. rewrite lookup_insert_eq. simpl.
  rewrite lookup_delete_eq. eauto.
Qed.

(** X20. [processReport] child by child: a child of the report that missed
    the beat has its counter incremented (16-bit, from 0 if it had none),
    any other child of the report has it reset to 0, children outside the
    report keep theirs.  If no incremented counter exceeds the threshold the
    failure handler is not called and the ticker is untouched; otherwise it
    is called once, with exactly the children whose counter exceeds the
    threshold, and the ticker is stopped. *)
Theorem processReport_counters s (report : gmap string heartbeatRespStatus) :
  let s' := processReport s report in
  let incr c := uint16_incr (default 0%Z (childrenBeatMissedMap s !! c)) in
  let broken c status :=
    missed status && bool_decide (incr c > missed_heartbeat_threshold s)%Z in
  (∀ c, childrenBeatMissedMap s' !! c =
          match report !! c with
          | None => childrenBeatMissedMap s !! c
          | Some status => Some (if missed status then incr c else 0%Z)
          end) ∧
  ((∀ c status, report !! c = Some status → broken c status = false) →
     failure_handler_calls s' = failure_handler_calls s ∧
     heartbeat_ticker s' = heartbeat_ticker s) ∧
  (∀ c0 status0, report !! c0 = Some status0 → broken c0 status0 = true →
     ∃ errors,
       failure_handler_calls s' = (failure_handler_calls s ++ [errors])%list ∧
       (∀ c, is_Some (errors !! c) ↔
               ∃ status, report !! c = Some status ∧ broken c status = true) ∧
       heartbeat_ticker s' = (λ _, false) <$> heartbeat_ticker s).
Proof.
  simpl. unfold processReport.
  pose proof (processReport_fold (missed_heartbeat_threshold s) report
                (childrenBeatMissedMap s)) as Hfold.
  destruct (map_fold _ _ report) as [mm br].
  assert (Hbr : ∀ c, is_Some (br !! c) ↔
            ∃ status, report !! c = Some status ∧
              missed status
              && bool_decide (uint16_incr (default 0%Z (childrenBeatMissedMap s !! c))
                              > missed_heartbeat_threshold s)%Z = true).
  { intros c. destruct (Hfold c) as [_ ->].
    destruct (report !! c) as [st|]; [|split; [by intros [? [=]]|by intros (? & [=] & _)]].
    destruct (missed st && _) eqn:Hb.
    - split; [eauto|by eexists].
    - split; [by intros [? [=]]|]. intros (? & [= <-] & ?). congruence. }
  split_and!.
  - intros c. destruct (Hfold c) as [Hm _].
    destruct (decide (0 < size br));
      [unfold ReportFailure; simpl; destruct (heartbeat_ticker s)|]; simpl; apply Hm.
  - intros Hnone.
    assert (br = ∅) as ->.
    { apply map_empty. intros c. apply eq_None_not_Some. rewrite Hbr.
      intros (st & Hst & Hb). rewrite (Hnone _ _ Hst) in Hb. done. }
    rewrite map_size_empty. by destruct (decide (0 < 0)); [lia|].
  - intros c0 st0 Hst0 Hb0.
    assert (is_Some (br !! c0)) as [e0 He0] by (apply Hbr; eauto).
    assert (0 < size br).
    { assert (size br ≠ 0); [|lia]. apply map_size_ne_0_lookup. eauto. }
    rewrite decide_True by done.
    exists br. unfold ReportFailure. simpl.
    destruct (heartbeat_ticker s) eqn:Ht; simpl; rewrite ?Ht;
      (split; [reflexivity|]); (split; [exact Hbr|]); reflexivity.
Qed.

(** X21. While in every round each child either answers in time or could
    not be sent the heartbeat at all, a running supervisor never calls the
    failure handler and keeps its ticker and its children, and after the
    first round every child's missed-beat counter is 0, whatever it was
    before. *)
Theorem healthy_children_never_reported rs : ∀ s,
  finch_closed s = false →
  heartbeat_ticker s = Some true →
  Forall (λ r, ∀ c, is_Some (children s !! c) → not_missing r c) rs →
  failure_handler_calls (ticks s rs) = failure_handler_calls s ∧
  heartbeat_ticker (ticks s rs) = Some true ∧
  children (ticks s rs) = children s ∧
  (∀ c, is_Some (children s !! c) →
        childrenBeatMissedMap (ticks s rs) !! c =
          if decide (rs = []) then childrenBeatMissedMap s !! c else Some 0%Z).
Proof.
  induction rs as [|r rs IH]; intros s Hfin Htick Hall.
  { by split_and!. }
  apply Forall_cons in Hall as [Hr Hall].
  destruct (tick_not_missing s r Hfin Htick Hr) as (Hfin' & Htick' & Hcalls & Hzero).
  change (ticks s (r :: rs)) with (ticks (tick s r) rs).
  destruct (IH (tick s r) Hfin' Htick') as (Hc1 & Ht1 & Hch1 & Hm1).
  { by rewrite tick_children. }
  rewrite tick_children in *.
  split_and!; [congruence|done|done|].
  intros c Hc. rewrite (Hm1 c Hc). rewrite (decide_False (P := r :: rs = [])) by done.
  case_decide; [by apply Hzero|done].
Qed.

(** X22. [Stop] is not idempotent: whenever a first [Stop] of a supervisor
    returns, a second [Stop] of the same supervisor panics, on the close of
    the already closed finish channel. *)
Theorem Stop_twice_panics (store : Store) p e1 r store' e2 :
  Stop store p e1 = Done (r, store') →
  Stop store' p e2 = Panic "close of closed channel".
Proof.
  unfold Stop. destruct (store !! p) as [s|] eqn:Hp; [|done]. simpl.
  destruct (finch_closed s) eqn:Hfin; [done|].
  destruct (heartbeat_ticker s) eqn:Htick; simpl; [|done].
  unfold RemoveChild. destruct (parent_supervisor s) as [q|]; [|done].
  destruct (decide (q = p)) as [->|Hne].
  - rewrite lookup_insert_eq. intros [= <- <-]. rewrite lookup_insert_eq. by simpl.
  - rewrite lookup_insert_ne by done. destruct (store !! q); [|done].
    intros [= <- <-]. rewrite lookup_insert_ne, lookup_insert_eq by done. by simpl.
Qed.

End SupervisorMore.

(** * The further statements at concrete inputs *)

Section MoreInstances.
Import fixtures.

(** The cache of scenario 1 satisfies the invariant. *)
Example svc_added_wf : service_wf svc_added.
Proof.
  exists {[ Id spec_A_U_B := VSpecVal 1%positive ]}. split; [vm_compute; reflexivity|].
  split.
  - intros id v [<- <-]%lookup_singleton_Some. exists 1%positive. split; [done|].
    vm_compute. by eexists.
  - by intros id1 id2 p [<- _]%lookup_singleton_Some [<- _]%lookup_singleton_Some.
Qed.

(** The add of scenario 1, on an empty store. *)
Lemma AddReplicationSpec_read_your_writes_witness :
  ∃ service',
    AddReplicationSpec env_ok kv_store svc_empty (with_Revision spec_A_U_B None)
      = Done (None, service') ∧
    metadata_store service' = {[ getKeyFromReplicationId (Id spec_A_U_B) := ([], 1) ]} ∧
    ReplicationSpec service' (Id spec_A_U_B)
      = Done (Some (with_Revision (with_Revision spec_A_U_B None) (Some 1)), None).
Proof.
  apply (AddReplicationSpec_read_your_writes env_ok kv_store svc_empty
           (with_Revision spec_A_U_B None) ∅ []
           {[ getKeyFromReplicationId (Id spec_A_U_B) := ([], 1) ]} [] (Some 1)).
  - vm_compute; reflexivity.
  - vm_compute; reflexivity.
  - vm_compute; reflexivity.
  - vm_compute; reflexivity.
  - vm_compute. discriminate.
Defined.

(** An update with the stale revision 1 is refused by the store. *)
Lemma failed_write_keeps_cache_witness :
  cache (with_store svc_stale (metadata_store svc_stale)) = cache svc_stale ∧
  heap (with_store svc_stale (metadata_store svc_stale)) = heap svc_stale ∧
  uilog_svc (with_store svc_stale (metadata_store svc_stale)) = uilog_svc svc_stale.
Proof.
  apply (failed_write_keeps_cache env_ok kv_store svc_stale spec_A_U_B
           (ErrorString "revision-mismatch")
           (with_store svc_stale (metadata_store svc_stale))).
  right. vm_compute; reflexivity.
Defined.

Lemma SetDerivedObj_GetDerviedObj_round_trip_witness :
  ∃ service',
    SetDerivedObj svc_added (Id spec_A_U_B) (Some 7) = Done (None, service') ∧
    GetDerviedObj service' (Id spec_A_U_B) = Done (Some 7, None) ∧
    ReplicationSpec service' (Id spec_A_U_B) = ReplicationSpec svc_added (Id spec_A_U_B) ∧
    metadata_store service' = metadata_store svc_added.
Proof.
  apply (SetDerivedObj_GetDerviedObj_round_trip svc_added
           {[ Id spec_A_U_B := VSpecVal 1%positive ]} (Id spec_A_U_B) 1%positive (Some 7)).
  - vm_compute; reflexivity.
  - vm_compute; reflexivity.
Defined.

Lemma unserved_id_not_found_witness :
  ReplicationSpec svc_empty (Id spec_A_U_B) = Done (None, Some not_found_error) ∧
  DelReplicationSpec env_ok kv_store svc_empty (Id spec_A_U_B)
    = Done (None, Some not_found_error, svc_empty) ∧
  ((∅ : MetadataCache) !! Id spec_A_U_B = None →
     ∀ d, SetDerivedObj svc_empty (Id spec_A_U_B) d = Done (Some not_found_error, svc_empty) ∧
          GetDerviedObj svc_empty (Id spec_A_U_B) = Done (None, Some not_found_error)).
Proof.
  apply (unserved_id_not_found env_ok kv_store svc_empty ∅ (Id spec_A_U_B)).
  - vm_compute; reflexivity.
  - left. vm_compute; reflexivity.
Defined.

(** The catalog entry has moved to revision 2: the delete with the cached
    revision 1 is refused, and the spec is still served. *)
Lemma DelReplicationSpec_catalog_failure_witness :
  DelReplicationSpec env_ok kv_store svc_stale (Id spec_A_U_B)
    = Done (None, Some (ErrorString "revision-mismatch"),
            with_store svc_stale (metadata_store svc_stale)) ∧
  ReplicationSpec (with_store svc_stale (metadata_store svc_stale)) (Id spec_A_U_B)
    = Done (Some spec_A_U_B, None).
Proof.
  apply (DelReplicationSpec_catalog_failure env_ok kv_store svc_stale
           {[ Id spec_A_U_B := VSpecVal 1%positive ]} (Id spec_A_U_B) 1%positive
           spec_A_U_B (metadata_store svc_stale) (ErrorString "revision-mismatch")).
  - vm_compute; reflexivity.
  - vm_compute; reflexivity.
  - vm_compute; reflexivity.
  - vm_compute; reflexivity.
Defined.

(** A notification of the creation of the spec reaches an empty cache. *)
Lemma callback_sets_spec_keeps_derived_witness :
  ∃ service',
    ReplicationSpecServiceCallback env_ok svc_empty
      (getKeyFromReplicationId (Id spec_A_U_B)) (Some []) (Some 1)
      = Done (Id spec_A_U_B, None, Some spec_A_U_B, None, service') ∧
    ReplicationSpec service' (Id spec_A_U_B) = Done (Some spec_A_U_B, None) ∧
    GetDerviedObj service' (Id spec_A_U_B)
      = Done (derived_at ∅ (heap svc_empty) (Id spec_A_U_B), None).
Proof.
  apply (callback_sets_spec_keeps_derived env_ok svc_empty ∅ (Id spec_A_U_B)
           (getKeyFromReplicationId (Id spec_A_U_B)) (Some []) (Some 1) (Some spec_A_U_B)).
  - vm_compute; reflexivity.
  - vm_compute; reflexivity.
  - vm_compute; reflexivity.
  - vm_compute. discriminate.
Defined.

Lemma service_wf_preserved_witness :
  (∀ sp, ∃ e service', AddReplicationSpec env_ok kv_store svc_added sp = Done (e, service') ∧
                       service_wf service') ∧
  (∀ sp, ∃ e service', SetReplicationSpec env_ok kv_store svc_added sp = Done (e, service') ∧
                       service_wf service') ∧
  (∀ id, ∃ r e service',
     DelReplicationSpec env_ok kv_store svc_added id = Done (r, e, service') ∧
     service_wf service') ∧
  (∀ id d, ∃ e service', SetDerivedObj svc_added id d = Done (e, service') ∧
                         service_wf service') ∧
  (∀ path value rev res service',
     ReplicationSpecServiceCallback env_ok svc_added path value rev = Done (res, service') →
     service_wf service').
Proof. apply (service_wf_preserved env_ok kv_store svc_added svc_added_wf). Defined.

(** The notification of the creation of another spec leaves scenario 1's
    spec as it is. *)
Lemma other_ids_untouched_witness :
  ReplicationSpec svc_notified (Id spec_A_U_B) = ReplicationSpec svc_added (Id spec_A_U_B) ∧
  GetDerviedObj svc_notified (Id spec_A_U_B) = GetDerviedObj svc_added (Id spec_A_U_B).
Proof.
  destruct (other_ids_untouched env_ok kv_store svc_added (Id spec_A_U_B) svc_added_wf)
    as (_ & _ & H).
  apply (H (getKeyFromReplicationId "C_U_D") (Some []) (Some 1) "C_U_D" None
           (Some spec_A_U_B) None svc_notified).
  - vm_compute; reflexivity.
  - reflexivity.
  - vm_compute. discriminate.
Defined.

Lemma enumerations_list_served_specs_witness :
  ∃ specs ids,
    AllReplicationSpecs svc_added = Done (Some specs, None) ∧
    AllReplicationSpecIds svc_added = Done (Some ids, None) ∧
    NoDup ids ∧
    (∀ id sp, specs !! id = Some sp ↔ ReplicationSpec svc_added id = Done (Some sp, None)) ∧
    (∀ id, id ∈ ids ↔ ∃ sp, ReplicationSpec svc_added id = Done (Some sp, None)).
Proof. apply (enumerations_list_served_specs svc_added svc_added_wf). Defined.

(** The service is constructed over the catalog of scenario 1. *)
Lemma NewReplicationSpecService_loads_catalog_witness :
  ∃ service,
    NewReplicationSpecService env_ok catalog_one (Some []) ∅ = Done (Some service, None) ∧
    service_wf service ∧
    metadata_store service = ∅ ∧
    (∀ sp, sp ∈ [spec_A_U_B] → ReplicationSpec service (Id sp) = Done (Some sp, None)) ∧
    (∀ id, id ∉ (Id <$> [spec_A_U_B]) →
           ReplicationSpec service id = Done (None, Some not_found_error)) ∧
    (∀ id, GetDerviedObj service id = Done (None, None) ∨
           GetDerviedObj service id = Done (None, Some not_found_error)).
Proof.
  apply (NewReplicationSpecService_loads_catalog env_ok catalog_one (Some []) ∅
           [entry_A_U_B] [spec_A_U_B]).
  - reflexivity.
  - apply List.Forall2_cons; [vm_compute; reflexivity|apply List.Forall2_nil].
  - apply NoDup_singleton.
Defined.

(** The enumeration starts with an entry whose value is nil: the service is
    returned without a cache, although the next entry decodes. *)
Lemma initCache_stops_at_first_bad_entry_witness :
  Value entry_nil = None ∧
  ∃ service,
    NewReplicationSpecService env_ok catalog_nil_first (Some []) ∅
      = Done (Some service, None) ∧
    cache service = None ∧
    ∀ id, ReplicationSpec service id
            = Done (None, Some (ErrorString "Can't instantiate cahe")).
Proof.
  apply (initCache_stops_at_first_bad_entry env_ok catalog_nil_first (Some []) ∅
           [] [] entry_nil [entry_A_U_B]).
  - reflexivity.
  - apply List.Forall2_nil.
  - reflexivity.
Defined.

Lemma ValidateExisting_valid_iff_live_witness :
  (ValidateExistingReplicationSpec env_ok spec_A_U_B = Done (None, None)
   ↔ spec_is_live env_ok spec_A_U_B) ∧
  (∀ e d, ValidateExistingReplicationSpec env_ok spec_A_U_B = Done (e, d) →
          (is_Some d → e = Some InvalidReplicationSpecError) ∧
          (e = Some InvalidReplicationSpecError → d = None →
             (remote_cluster_svc_RemoteClusterByUuid env_ok
                (TargetClusterUUID spec_A_U_B) false).2
               = Some InvalidReplicationSpecError)).
Proof.
  apply (ValidateExisting_valid_iff_live env_ok spec_A_U_B).
  vm_compute. discriminate.
Defined.

Lemma ValidateAndGC_noop_witness :
  (spec_is_live env_ok spec_A_U_B →
     ValidateAndGC env_ok kv_store svc_added spec_A_U_B = Done svc_added) ∧
  (∀ e, ValidateExistingReplicationSpec env_ok spec_A_U_B = Done (Some e, None) →
        e ≠ InvalidReplicationSpecError →
        ValidateAndGC env_ok kv_store svc_added spec_A_U_B = Done svc_added) ∧
  (∀ c detail,
     ValidateExistingReplicationSpec env_ok spec_A_U_B
       = Done (Some InvalidReplicationSpecError, Some detail) →
     cache svc_added = Some c →
     (c !! Id spec_A_U_B = None ∨
      ∃ p, c !! Id spec_A_U_B = Some (VSpecVal p) ∧
           spec (deref (heap svc_added) p) = None) →
     ValidateAndGC env_ok kv_store svc_added spec_A_U_B = Done svc_added).
Proof.
  apply (ValidateAndGC_noop env_ok kv_store svc_added spec_A_U_B).
  vm_compute. discriminate.
Defined.

Lemma ConstructNew_then_ValidateExisting_witness :
  NewReplicationSpecification "A" "X" "U" "B" "Y"
    = NewReplicationSpecification "A"
        (SourceBucketUUID (NewReplicationSpecification "A" "X" "U" "B" "Y")) "U" "B"
        (TargetBucketUUID (NewReplicationSpecification "A" "X" "U" "B" "Y")) ∧
  utils_LocalBucketUUID env_ok (xdcr_comp_topology_svc_MyConnectionStr env_ok).1 "A"
    = (SourceBucketUUID (NewReplicationSpecification "A" "X" "U" "B" "Y"), None) ∧
  (∃ ref,
     remote_cluster_svc_RemoteClusterByUuid env_ok "U" false = (Some ref, None) ∧
     (MyConnectionStr ref).2 = None ∧
     (MyCredentials ref).2 = None ∧
     utils_RemoteBucketUUID env_ok (MyConnectionStr ref).1 (MyCredentials ref).1.1
       (MyCredentials ref).1.2 "B"
       = (TargetBucketUUID (NewReplicationSpecification "A" "X" "U" "B" "Y"), None)) ∧
  ValidateExistingReplicationSpec env_ok (NewReplicationSpecification "A" "X" "U" "B" "Y")
    = Done (None, None).
Proof.
  apply (ConstructNew_then_ValidateExisting env_ok "A" "U" "B").
  vm_compute; reflexivity.
Defined.

(** The target bucket was recreated: the collection of the spec of
    scenario 1 is its delete. *)
Lemma ValidateAndGC_is_delete_by_id_witness :
  ValidateAndGC env_target_recreated kv_store svc_added spec_A_U_B =
    match DelReplicationSpec env_target_recreated kv_store svc_added (Id spec_A_U_B) with
    | Done (_, _, service') => Done service'
    | Panic msg => Panic msg
    end.
Proof.
  apply (ValidateAndGC_is_delete_by_id env_target_recreated kv_store svc_added spec_A_U_B
           (ErrorString ("spec A_U_B refers to bucket B which was deleted and recreated"
                           +:+ newline))).
  vm_compute; reflexivity.
Defined.

Lemma ValidateNew_empty_error_map_witness :
  ∃ ref,
    Some ref_r = Some ref ∧
    remote_cluster_svc_RemoteClusterByRefName env_ok "r" false = (Some ref, None) ∧
    let source :=
      utils_LocalBucketUUID env_ok (xdcr_comp_topology_svc_MyConnectionStr env_ok).1 "A" in
    let target :=
      utils_RemoteBucketUUID env_ok (MyConnectionStr ref).1 (MyCredentials ref).1.1
        (MyCredentials ref).1.2 "B" in
    "X" = source.1 ∧ source.2 ≠ Some NonExistentBucketError ∧
    "Y" = target.1 ∧ target.2 ≠ Some NonExistentBucketError ∧
    (∀ s, ReplicationSpec svc_empty (ReplicationId "A" (Uuid ref) "B") ≠ Done (s, None)) ∧
    (xmem_check_applies ∅ →
       cluster_info_svc_IsClusterCompatible env_ok ref [2; 2]%Z = (true, None)).
Proof.
  apply (ValidateNew_empty_error_map env_ok svc_empty "A" "r" "B" ∅ "X" "Y" (Some ref_r)).
  vm_compute; reflexivity.
Defined.

(** The errors of a lookup in scenario 1, and of a lookup on the service
    that was constructed without a cache. *)
Lemma lookup_errors_are_validation_errors_witness :
  (∀ r e, ReplicationSpec svc_added "C_U_D" = Done (r, Some e) →
          IsReplicationValidationError (Some e) = true) ∧
  ∃ e, IsReplicationValidationError (Some e) = false ∧
       ReplicationSpec svc_no_cache "C_U_D" = Done (None, Some e).
Proof.
  split.
  - destruct (lookup_errors_are_validation_errors svc_added "C_U_D") as [H _].
    destruct (H {[ Id spec_A_U_B := VSpecVal 1%positive ]}) as [Hr _]; [|exact Hr].
    vm_compute; reflexivity.
  - destruct (lookup_errors_are_validation_errors svc_no_cache "C_U_D") as [_ H].
    destruct (H eq_refl) as (e & He & Hr & _). by exists e.
Defined.

(** A pipeline is registered with the parent supervisor, and removed. *)
Lemma children_registry_witness :
  (∃ store',
     supervisor.AddChild store_parent 1%positive "pipeline" supervisor.ExternalChild
       = Done (None, store') ∧
     supervisor.Child store' 1%positive "pipeline"
       = Done (Some supervisor.ExternalChild, None) ∧
     ∀ other, other ≠ "pipeline" →
       supervisor.Child store' 1%positive other
         = supervisor.Child store_parent 1%positive other) ∧
  (∃ store' err,
     supervisor.RemoveChild store_parent (Some 1%positive) "pipeline" = Done (None, store') ∧
     supervisor.Child store' 1%positive "pipeline" = Done (None, Some err) ∧
     ∀ other, other ≠ "pipeline" →
       supervisor.Child store' 1%positive other
         = supervisor.Child store_parent 1%positive other).
Proof.
  apply (children_registry store_parent 1%positive "pipeline" supervisor.ExternalChild).
  vm_compute. by eexists.
Defined.

(** A pipeline supervisor is constructed under the parent, started and
    stopped. *)
Lemma supervisor_lifecycle_witness :
  store_parent !! 2%positive = None ∧
  supervisor.Child store_child_started 1%positive "PipelineSupervisor_1"
    = Done (Some (supervisor.SupervisorChild 2%positive), None) ∧
  ∃ store3 sq3,
    supervisor.Stop store_child_started 2%positive None = Done (None, store3) ∧
    store3 !! 1%positive = Some sq3 ∧
    supervisor.children sq3
      = delete "PipelineSupervisor_1" (supervisor.children sup_parent) ∧
    (∃ err, supervisor.Child store3 1%positive "PipelineSupervisor_1"
              = Done (None, Some err)).
Proof.
  apply (supervisor_lifecycle ValidateSettings_ok store_parent 1%positive sup_parent
           "PipelineSupervisor_1" ∅ store_child_started 2%positive None).
  - vm_compute; reflexivity.
  - exists store_child_new. split; vm_compute; reflexivity.
Defined.

(** The pipeline of [sup_started] misses a beat for the first time. *)
Lemma processReport_counters_witness :
  supervisor.childrenBeatMissedMap
    (supervisor.processReport sup_started {[ "pipeline" := supervisor.notYetResponded ]})
    !! "pipeline" = Some 1%Z ∧
  supervisor.failure_handler_calls
    (supervisor.processReport sup_started {[ "pipeline" := supervisor.notYetResponded ]})
    = supervisor.failure_handler_calls sup_started.
Proof.
  destruct (processReport_counters sup_started
              {[ "pipeline" := supervisor.notYetResponded ]}) as (Hcount & Hquiet & _).
  split.
  - rewrite (Hcount "pipeline"). vm_compute; reflexivity.
  - apply Hquiet. intros c status [<- <-]%lookup_singleton_Some. vm_compute; reflexivity.
Defined.

(** Two rounds in which the pipeline answers in time. *)
Lemma healthy_children_never_reported_witness :
  supervisor.failure_handler_calls
    (supervisor.ticks sup_started [healthy_round; healthy_round])
    = supervisor.failure_handler_calls sup_started ∧
  supervisor.heartbeat_ticker (supervisor.ticks sup_started [healthy_round; healthy_round])
    = Some true ∧
  supervisor.children (supervisor.ticks sup_started [healthy_round; healthy_round])
    = supervisor.children sup_started ∧
  (∀ c, is_Some (supervisor.children sup_started !! c) →
        supervisor.childrenBeatMissedMap
          (supervisor.ticks sup_started [healthy_round; healthy_round]) !! c =
          if decide ([healthy_round; healthy_round] = []) then
            supervisor.childrenBeatMissedMap sup_started !! c
          else Some 0%Z).
Proof.
  apply (healthy_children_never_reported [healthy_round; healthy_round] sup_started).
  - vm_compute; reflexivity.
  - vm_compute; reflexivity.
  - apply List.Forall_cons; [intros c _; right; reflexivity|].
    apply List.Forall_cons; [intros c _; right; reflexivity|].
    apply List.Forall_nil.
Defined.

Lemma Stop_twice_panics_witness :
  supervisor.Stop store_child_stopped 2%positive None = Panic "close of closed channel".
Proof.
  apply (Stop_twice_panics store_child_started 2%positive None None store_child_stopped None).
  vm_compute; reflexivity.
Defined.

End MoreInstances.
